(** * l5kit: merging and partitioning chunked driving datasets

    A shallow embedding of [l5kit/data/zarr_utils.py]: the range accountant
    [_get_num_els_in_scene_range], the subset copier [_append_zarr_subset],
    the two drivers [zarr_concat] and [zarr_split] and the directory walk
    [_compute_path_size], followed by the properties of these functions.

    Conventions of the embedding.
    - Python integers are [Z].  The interval fields of the records are read
      and written through the storage engine; the engine's fixed-width
      encoding of them is outside the file embedded here, and arithmetic on
      indices is Python's.
    - Python floats are IEEE-754 binary64 numbers, here [spec_float] with
      53 bits of precision, rounded to nearest even.
    - An exception is a value of [error]; a computation returns a
      [result].  Code that writes to a dataset threads the dataset (or the
      whole store of datasets on disk) as state, and the state survives an
      exception: what was written before the exception stays written. *)

From stdpp Require Import gmap strings list.
From Stdlib Require Import ZArith Lia SpecFloat.

Local Open Scope Z_scope.

(** ** Exceptions *)

(** The exceptions the code can raise.  The source raises
    [AssertionError] at four places, which the specification names
    apart; the embedding keeps them apart too.
    - [PreconditionError]: the assertion of [_get_num_els_in_scene_range];
    - [AlreadyExistsError]: the assertion opening [zarr_concat], and a
      refused initialisation;
    - [ConfigError]: the two assertions on [split_infos] in [zarr_split];
    - [OverflowError]: the assertion "size exceed" in [zarr_split].
    [NotFoundError] and [FormatError] are the [ValueError] and [KeyError]
    of a dataset that does not open; [IndexError], [ZeroDivisionError],
    [FloatConversionError] are Python's own. *)
Inductive error : Set :=
| NotFoundError
| FormatError
| AlreadyExistsError
| OutOfBoundsError
| ConfigError
| OverflowError
| PreconditionError
| IndexError
| ZeroDivisionError
| FloatConversionError.

#[global] Instance error_eq_dec : EqDecision error.
Proof. solve_decision. Defined.

Inductive result (A : Type) : Type :=
| Ok (a : A)
| Err (e : error).
Arguments Ok {A} a.
Arguments Err {A} e.

#[global] Instance result_ret : MRet result := fun A a => Ok a.
#[global] Instance result_bind : MBind result :=
  fun A B f r => match r with Ok a => f a | Err e => Err e end.

(** A computation over a mutable state [St] that may raise: the state
    reached is returned in both cases. *)
Definition M (St A : Type) : Type := St -> St * result A.

#[global] Instance M_ret {St} : MRet (M St) := fun A a s => (s, Ok a).
#[global] Instance M_bind {St} : MBind (M St) :=
  fun A B f m s =>
    match m s with
    | (s', Ok a) => f a s'
    | (s', Err e) => (s', Err e)
    end.

Definition lift {St A} (r : result A) : M St A := fun s => (s, r).
Definition raise {St A} (e : error) : M St A := fun s => (s, Err e).
Definition get_state {St} : M St St := fun s => (s, Ok s).
Definition put_state {St} (s : St) : M St unit := fun _ => (s, Ok tt).

(** [for x in l: acc = body acc x], stopping at the first exception. *)
Fixpoint for_each {St A B} (body : A -> B -> M St A) (acc : A) (l : list B)
  : M St A :=
  match l with
  | [] => mret acc
  | x :: l' => acc' ← body acc x; for_each body acc' l'
  end.

(** ** Python sequences *)

Definition py_len {A} (l : list A) : Z := Z.of_nat (length l).

(** [l[i]]: a negative index counts from the end; out of range raises. *)
Definition py_index {A} (l : list A) (i : Z) : result A :=
  let j := if bool_decide (i < 0) then i + py_len l else i in
  if bool_decide (0 <= j < py_len l) then
    match l !! Z.to_nat j with
    | Some x => Ok x
    | None => Err IndexError
    end
  else Err IndexError.

(** An endpoint of a slice over a sequence of length [n], as
    [slice.indices] computes it for step 1. *)
Definition py_bound (n i : Z) : Z :=
  if bool_decide (i < 0) then Z.max (i + n) 0 else Z.min i n.

(** [l[lo:hi]]: never raises, clips to the sequence. *)
Definition py_slice {A} (l : list A) (lo hi : Z) : list A :=
  let lo' := py_bound (py_len l) lo in
  let hi' := py_bound (py_len l) hi in
  take (Z.to_nat (hi' - lo')) (drop (Z.to_nat lo') l).

(** [range(lo, hi)]. *)
Definition py_range (lo hi : Z) : list Z := seqZ lo (hi - lo).

(** Modelled from the spec: the slice write of the Dataset Handle's
    sequences ([ChunkedDataset] and the storage engine under it are not
    among the sources).  Section 4.1: sequence accessors support slice
    writes by half-open index range, and writes beyond the pre-allocated
    length fail with [OutOfBoundsError].  [l[lo:hi] = block] selects the
    range as a slice does; the block must fill the selection exactly, so a
    block that would reach past the end of [l] is refused, and the length
    of [l] never changes. *)
Definition write_slice {A} (l : list A) (lo hi : Z) (block : list A)
  : result (list A) :=
  let lo' := py_bound (py_len l) lo in
  let hi' := py_bound (py_len l) hi in
  if bool_decide (Z.max (hi' - lo') 0 = py_len block) then
    Ok (take (Z.to_nat lo') l ++ block ++ drop (Z.to_nat lo' + length block) l)
  else Err OutOfBoundsError.

(** ** Python floats *)

Definition float64 : Type := spec_float.

Definition prec64 : Z := 53.
Definition emax64 : Z := 1024.

Definition float_mul : float64 -> float64 -> float64 := SFmul prec64 emax64.

(** [float(n)] for an integer [n]: correctly rounded; Python raises when
    the integer is too large for a float. *)
Definition float_of_int (n : Z) : result float64 :=
  match binary_normalize prec64 emax64 n 0 false with
  | S754_infinity _ => Err FloatConversionError
  | x => Ok x
  end.

Definition float_is_zero (x : float64) : bool :=
  match x with S754_zero _ => true | _ => false end.

(** [x / y] on floats: division by zero raises. *)
Definition float_div (x y : float64) : result float64 :=
  if float_is_zero y then Err ZeroDivisionError
  else Ok (SFdiv prec64 emax64 x y).

(** [int(x)]: truncation toward zero; raises on infinities and NaN. *)
Definition int_of_float (x : float64) : result Z :=
  match x with
  | S754_zero _ => Ok 0
  | S754_finite s m e =>
      let a := match e with
               | Z0 => Zpos m
               | Zpos p => Zpos m * 2 ^ Zpos p
               | Zneg p => Zpos m / 2 ^ Zpos p
               end in
      Ok (if s then - a else a)
  | _ => Err FloatConversionError
  end.

(** [x == -1]. *)
Definition float_is_minus_one (x : float64) : bool :=
  SFeqb x (S754_finite true 4503599627370496 (-52)).

(** [a / b] on integers (true division).  Python rounds the exact
    quotient once; converting both operands first gives the same float
    whenever they are below 2^53, and for any dividend when the divisor
    is a power of two, as [GIGABYTE] is. *)
Definition int_true_div (a b : Z) : result float64 :=
  x ← float_of_int a; y ← float_of_int b; float_div x y.

(** ** The data model *)

Definition interval : Type := Z * Z.

Definition shift_interval (d : Z) (iv : interval) : interval :=
  (iv.1 + d, iv.2 + d).

Record Scene : Type := {
  host : string;
  start_time : Z;
  end_time : Z;
  frame_index_interval : interval
}.

Record Frame : Type := {
  timestamp : Z;
  ego_translation : list float64;
  ego_rotation : list (list float64);
  agent_index_interval : interval;
  traffic_light_faces_index_interval : interval
}.

(** Agents and traffic-light faces are payload: the code moves them and
    never looks inside. *)
Record ChunkedDataset (Agent TlFace : Type) : Type := {
  scenes : list Scene;
  frames : list Frame;
  agents : list Agent;
  tl_faces : list TlFace
}.
Arguments scenes {Agent TlFace} _.
Arguments frames {Agent TlFace} _.
Arguments agents {Agent TlFace} _.
Arguments tl_faces {Agent TlFace} _.
Arguments Build_ChunkedDataset {Agent TlFace} _ _ _ _.

(** The dictionary of the four counts, keyed as the arguments of
    [ChunkedDataset.initialize]. *)
Record NumEls : Type := {
  num_scenes : Z;
  num_frames : Z;
  num_agents : Z;
  num_tl_faces : Z
}.

(** [scenes["frame_index_interval"] += d] on a block of scenes. *)
Definition shift_scene (d : Z) (s : Scene) : Scene :=
  {| host := host s; start_time := start_time s; end_time := end_time s;
     frame_index_interval := shift_interval d (frame_index_interval s) |}.

(** [frames["agent_index_interval"] += da] followed by
    [frames["traffic_light_faces_index_interval"] += dt]. *)
Definition shift_frame (da dt : Z) (f : Frame) : Frame :=
  {| timestamp := timestamp f;
     ego_translation := ego_translation f;
     ego_rotation := ego_rotation f;
     agent_index_interval := shift_interval da (agent_index_interval f);
     traffic_light_faces_index_interval :=
       shift_interval dt (traffic_light_faces_index_interval f) |}.

(** ** [collections.Counter] over the four keys *)

(** A key that is absent reads as 0, so a [Counter] over the four keys is
    a [NumEls]; [c += d] adds key by key and then drops every key whose
    count is not positive. *)
Definition keep_positive (n : Z) : Z := if bool_decide (n > 0) then n else 0.

Definition counter_iadd (c d : NumEls) : NumEls :=
  {| num_scenes := keep_positive (num_scenes c + num_scenes d);
     num_frames := keep_positive (num_frames c + num_frames d);
     num_agents := keep_positive (num_agents c + num_agents d);
     num_tl_faces := keep_positive (num_tl_faces c + num_tl_faces d) |}.

Definition counter_zero : NumEls :=
  {| num_scenes := 0; num_frames := 0; num_agents := 0; num_tl_faces := 0 |}.

Definition GIGABYTE : Z := 1 * 1024 * 1024 * 1024.

(** One element of [split_infos]. *)
Record SplitInfo : Type := {
  name : string;
  split_size_GB : float64
}.

(** What a path holds on disk: a dataset that opens, or something that
    does not open as a dataset. *)
Inductive Entry (Agent TlFace : Type) : Type :=
| Stored (d : ChunkedDataset Agent TlFace)
| Malformed.
Arguments Stored {Agent TlFace} d.
Arguments Malformed {Agent TlFace}.

(** What [zarr_concat] acts on: the datasets on disk, and the lines
    printed so far.  (The progress bars are a display and are left
    out.) *)
Record World (Agent TlFace : Type) : Type := {
  disk : gmap string (Entry Agent TlFace);
  stdout : list string
}.
Arguments disk {Agent TlFace} _.
Arguments stdout {Agent TlFace} _.
Arguments Build_World {Agent TlFace} _ _.

Section Core.
Context {Agent TlFace : Type}.

Local Abbreviation Dataset := (ChunkedDataset Agent TlFace).
Local Abbreviation Store := (gmap string (Entry Agent TlFace)).

(** *** The range accountant *)

Definition _get_num_els_in_scene_range
  (zarr_dataset : Dataset) (scene_index_start scene_index_end : Z)
  : result NumEls :=
  if bool_decide (scene_index_end > scene_index_start) then
    scene_start ← py_index (scenes zarr_dataset) scene_index_start;
    scene_end ← py_index (scenes zarr_dataset) (scene_index_end - 1);
    frame_start ← py_index (frames zarr_dataset)
                          (frame_index_interval scene_start).1;
    frame_end ← py_index (frames zarr_dataset)
                        ((frame_index_interval scene_end).2 - 1);
    mret {| num_scenes := scene_index_end - scene_index_start;
            num_frames := (frame_index_interval scene_end).2
                          - (frame_index_interval scene_start).1;
            num_agents := (agent_index_interval frame_end).2
                          - (agent_index_interval frame_start).1;
            num_tl_faces :=
              (traffic_light_faces_index_interval frame_end).2
              - (traffic_light_faces_index_interval frame_start).1 |}
  else Err PreconditionError.

(** *** The subset copier *)

(** The four write cursors [idx_output_scene], [idx_output_frame],
    [idx_output_agent], [idx_output_tl_face] are kept in a [NumEls]. *)

(** One slice assignment on the output dataset, per level. *)
Definition write_scenes (lo hi : Z) (block : list Scene) : M Dataset unit :=
  fun out =>
    match write_slice (scenes out) lo hi block with
    | Ok l => (Build_ChunkedDataset l (frames out) (agents out) (tl_faces out),
               Ok tt)
    | Err e => (out, Err e)
    end.

Definition write_frames (lo hi : Z) (block : list Frame) : M Dataset unit :=
  fun out =>
    match write_slice (frames out) lo hi block with
    | Ok l => (Build_ChunkedDataset (scenes out) l (agents out) (tl_faces out),
               Ok tt)
    | Err e => (out, Err e)
    end.

Definition write_agents (lo hi : Z) (block : list Agent) : M Dataset unit :=
  fun out =>
    match write_slice (agents out) lo hi block with
    | Ok l => (Build_ChunkedDataset (scenes out) (frames out) l (tl_faces out),
               Ok tt)
    | Err e => (out, Err e)
    end.

Definition write_tl_faces (lo hi : Z) (block : list TlFace) : M Dataset unit :=
  fun out =>
    match write_slice (tl_faces out) lo hi block with
    | Ok l => (Build_ChunkedDataset (scenes out) (frames out) (agents out) l,
               Ok tt)
    | Err e => (out, Err e)
    end.

(** The four slices the loop body takes from the input for one scene:
    [scenes], [frames], [agents], [tl_faces]. *)
Definition read_scene_blocks (input_zarr : Dataset) (idx_scene : Z)
  : result (list Scene * list Frame * list Agent * list TlFace) :=
  let scenes_ := py_slice (scenes input_zarr) idx_scene (idx_scene + 1) in
  scene0 ← py_index scenes_ 0;
  let frames_ := py_slice (frames input_zarr)
                   (frame_index_interval scene0).1
                   (frame_index_interval scene0).2 in
  frame_first ← py_index frames_ 0;
  frame_last ← py_index frames_ (-1);
  let agents_ := py_slice (agents input_zarr)
                   (agent_index_interval frame_first).1
                   (agent_index_interval frame_last).2 in
  let tl_faces_ := py_slice (tl_faces input_zarr)
                     (traffic_light_faces_index_interval frame_first).1
                     (traffic_light_faces_index_interval frame_last).2 in
  mret (scenes_, frames_, agents_, tl_faces_).

(** The body of the loop over [idx_scene]. *)
Definition copy_scene (input_zarr : Dataset)
  (idx_start_frame idx_start_agent idx_start_tl_face : Z)
  (cur : NumEls) (idx_scene : Z) : M Dataset NumEls :=
  (* get slices from input zarr *)
  '(scenes_, frames_, agents_, tl_faces_) ←
      lift (read_scene_blocks input_zarr idx_scene);
  (* fix indices *)
  let scenes_ := shift_scene idx_start_frame <$> scenes_ in
  let frames_ := shift_frame idx_start_agent idx_start_tl_face <$> frames_ in
  (* copy from input_zarr to output_zarr *)
  write_scenes (num_scenes cur) (num_scenes cur + py_len scenes_) scenes_;;
  write_frames (num_frames cur) (num_frames cur + py_len frames_) frames_;;
  write_agents (num_agents cur) (num_agents cur + py_len agents_) agents_;;
  write_tl_faces (num_tl_faces cur) (num_tl_faces cur + py_len tl_faces_)
                 tl_faces_;;
  (* update output indices *)
  mret {| num_scenes := num_scenes cur + py_len scenes_;
          num_frames := num_frames cur + py_len frames_;
          num_agents := num_agents cur + py_len agents_;
          num_tl_faces := num_tl_faces cur + py_len tl_faces_ |}.

(** [_append_zarr_subset] up to the end of its loop, returning the write
    cursors the loop ends with (local variables of the source). *)
Definition append_zarr_subset_cursors (input_zarr : Dataset)
  (scene_index_start scene_index_end : Z)
  (output_zarr_num_els : option NumEls) : M Dataset NumEls :=
  (* indices to assign in the destination array *)
  let cur := match output_zarr_num_els with
             | None => counter_zero
             | Some c => c
             end in
  (* relative indices to subtract before copying to erase input history *)
  scene ← lift (py_index (scenes input_zarr) scene_index_start);
  let idx_start_frame := (frame_index_interval scene).1 in
  frame ← lift (py_index (frames input_zarr) idx_start_frame);
  let idx_start_agent := (agent_index_interval frame).1 in
  let idx_start_tl_face := (traffic_light_faces_index_interval frame).1 in
  (* if output_zarr_num_els is not zero we also need to add output_history *)
  let idx_start_frame := num_frames cur - idx_start_frame in
  let idx_start_agent := num_agents cur - idx_start_agent in
  let idx_start_tl_face := num_tl_faces cur - idx_start_tl_face in
  for_each (copy_scene input_zarr
              idx_start_frame idx_start_agent idx_start_tl_face)
           cur (py_range scene_index_start scene_index_end).

Definition _append_zarr_subset (input_zarr : Dataset)
  (scene_index_start scene_index_end : Z)
  (output_zarr_num_els : option NumEls) : M Dataset unit :=
  append_zarr_subset_cursors input_zarr scene_index_start scene_index_end
                             output_zarr_num_els;;
  mret tt.

End Core.

(** ** The drivers *)

Section Drivers.
Context {Agent TlFace : Type}.

(** What a freshly allocated sequence holds is not specified; the four
    records below stand for it, and nothing proved depends on them. *)
Context (blank_scene : Scene) (blank_frame : Frame)
        (blank_agent : Agent) (blank_tl_face : TlFace).

(** [_compute_path_size]: the byte size of the directory tree under a
    path.  The drivers take it as a function of the path; the walk of the
    file system itself is [PathSize._compute_path_size] below. *)
Context (_compute_path_size : string -> Z).

(** [str(Path(output_path) / name)]. *)
Context (path_join : string -> string -> string).

Local Abbreviation Dataset := (ChunkedDataset Agent TlFace).
Local Abbreviation Store := (gmap string (Entry Agent TlFace)).

(** Modelled from the spec: [ChunkedDataset(path).open()], whose class is
    not among the sources.  Section 4.1: fails with [NotFoundError] or
    [FormatError] if the path is missing or not a valid dataset. *)
Definition open_dataset (path : string) : M Store Dataset :=
  fun fs =>
    match fs !! path with
    | Some (Stored d) => (fs, Ok d)
    | Some Malformed => (fs, Err FormatError)
    | None => (fs, Err NotFoundError)
    end.

Definition blank_dataset (c : NumEls) : Dataset :=
  {| scenes := replicate (Z.to_nat (num_scenes c)) blank_scene;
     frames := replicate (Z.to_nat (num_frames c)) blank_frame;
     agents := replicate (Z.to_nat (num_agents c)) blank_agent;
     tl_faces := replicate (Z.to_nat (num_tl_faces c)) blank_tl_face |}.

(** Modelled from the spec: [ChunkedDataset(path).initialize] with the four counts,
    whose class is not among the sources.  Section 4.1: pre-allocates four
    sequences of exactly the given lengths, uninitialized contents; fails
    with [AlreadyExistsError] if the path already contains data. *)
Definition initialize (path : string) (c : NumEls) : M Store unit :=
  fun fs =>
    match fs !! path with
    | Some _ => (fs, Err AlreadyExistsError)
    | None => (<[path := Stored (blank_dataset c)]> fs, Ok tt)
    end.

(** Running a computation on the dataset a handle points to: the writes
    land in the store, also when the computation raises. *)
Definition with_dataset {A} (path : string) (m : M Dataset A) : M Store A :=
  fun fs =>
    match fs !! path with
    | Some (Stored d) =>
        let '(d', r) := m d in (<[path := Stored d']> fs, r)
    | Some Malformed => (fs, Err FormatError)
    | None => (fs, Err NotFoundError)
    end.

(** *** [zarr_concat] *)

(** A computation on the disk, run in the world. *)
Definition on_disk {A} (m : M Store A) : M (World Agent TlFace) A :=
  fun w =>
    let '(fs, r) := m (disk w) in
    ({| disk := fs; stdout := stdout w |}, r).

(** [print(line)]. *)
Definition print (line : string) : M (World Agent TlFace) unit :=
  fun w => ({| disk := disk w; stdout := stdout w ++ [line] |}, Ok tt).

(** The line printed for a source that does not open. *)
Definition not_valid_line (input_zarr : string) : string :=
  input_zarr +:+ " is not valid! skipping".

(** The body of the first loop: [try: open; except (ValueError,
    KeyError): print; continue], then the two appends. *)
Definition scan_input (acc : list NumEls * list string) (input_zarr : string)
  : M (World Agent TlFace) (list NumEls * list string) :=
  fun w =>
    match on_disk (open_dataset input_zarr) w with
    | (w', Ok input_dataset) =>
        (n ← lift (_get_num_els_in_scene_range input_dataset 0
                     (py_len (scenes input_dataset)));
         mret (acc.1 ++ [n], acc.2 ++ [input_zarr])) w'
    | (w', Err NotFoundError) | (w', Err FormatError) =>
        (print (not_valid_line input_zarr);; mret acc) w'
    | (w', Err e) => (w', Err e)
    end.

(** The body of the second loop; [cur_num_els] is the accumulator. *)
Definition concat_step (output_zarr : string) (num_els_valid_zarrs : list NumEls)
  (cur_num_els : NumEls) (it : Z * string) : M Store NumEls :=
  let '(idx, input_zarr) := it in
  input_dataset ← open_dataset input_zarr;
  with_dataset output_zarr
    (_append_zarr_subset input_dataset 0 (py_len (scenes input_dataset))
                         (Some cur_num_els));;
  n ← lift (py_index num_els_valid_zarrs idx);
  mret (counter_iadd cur_num_els n).

(** [enumerate(l)]. *)
Definition enumerate {A} (l : list A) : list (Z * A) :=
  zip (seqZ 0 (py_len l)) l.

Definition zarr_concat (input_zarrs : list string) (output_zarr : string)
  : M (World Agent TlFace) unit :=
  w ← get_state;
  if bool_decide (is_Some (disk w !! output_zarr))
  then raise AlreadyExistsError
  else
    (* we need to estimate how much to allocate by reading all input zarrs lens *)
    '(num_els_valid_zarrs, valid_zarrs) ←
        for_each scan_input ([], []) input_zarrs;
    (* we can now pre-allocate the output dataset *)
    let total_num_els := foldl counter_iadd counter_zero num_els_valid_zarrs in
    on_disk (initialize output_zarr total_num_els);;
    for_each (fun cur_num_els it =>
                on_disk (concat_step output_zarr num_els_valid_zarrs
                                     cur_num_els it))
             counter_zero (enumerate valid_zarrs);;
    mret tt.

(** *** [zarr_split] *)

(** [int(num_scenes_input * split_info["split_size_GB"] / size_input_gb)]. *)
Definition scenes_for_split (num_scenes_input : Z) (size_input_gb : float64)
  (split_info : SplitInfo) : result Z :=
  n ← float_of_int num_scenes_input;
  q ← float_div (float_mul n (split_size_GB split_info)) size_input_gb;
  int_of_float q.

(** [sum(l)] on integers. *)
Definition py_sum (l : list Z) : Z := foldl Z.add 0 l.

(** The body of the loop over the cuts; the accumulator is [cur_scene]
    with [cuts_track]. *)
Definition split_step (input_dataset : Dataset) (output_path : string)
  (acc : Z * list (Z * Z)) (it : Z * SplitInfo) : M Store (Z * list (Z * Z)) :=
  let '(cur_scene, cuts_track) := acc in
  let '(num_scenes, split_info) := it in
  let start_cut := cur_scene in
  let end_cut := cur_scene + num_scenes in
  num_els_output ←
    lift (_get_num_els_in_scene_range input_dataset start_cut end_cut);
  let output_dataset := path_join output_path (name split_info) in
  initialize output_dataset num_els_output;;
  with_dataset output_dataset
    (_append_zarr_subset input_dataset start_cut end_cut None);;
  mret (end_cut, cuts_track ++ [(start_cut, end_cut)]).

(** [zarr_split] prints nothing: it is a computation on the disk. *)
Definition zarr_split (input_zarr output_path : string)
  (split_infos : list SplitInfo) : M Store (list (Z * Z)) :=
  input_dataset ← open_dataset input_zarr;
  if bool_decide (py_len split_infos > 0) then
    last_info ← lift (py_index split_infos (-1));
    if float_is_minus_one (split_size_GB last_info) then
      (* compute the size of the input_dataset in GB *)
      size_input_gb ←
        lift (int_true_div (_compute_path_size input_zarr) GIGABYTE);
      let num_scenes_input := py_len (scenes input_dataset) in
      (* ensure the defined splits don't overspill the input dataset *)
      num_scenes_output ←
        lift (mapM (scenes_for_split num_scenes_input size_input_gb)
                   (py_slice split_infos 0 (-1)));
      if bool_decide (py_sum num_scenes_output < num_scenes_input) then
        let num_scenes_output :=
          num_scenes_output
            ++ [num_scenes_input - py_sum num_scenes_output] in
        '(_, cuts_track) ←
            for_each (split_step input_dataset output_path) (0, [])
                     (zip num_scenes_output split_infos);
        mret cuts_track
      else raise OverflowError
    else raise ConfigError
  else raise ConfigError.

End Drivers.

(** ** The invariants of section 3 *)

(** [chain a ivs b]: the intervals [ivs] tile [a, b) in order: the first
    starts at [a], each ends where the next begins, the last ends at [b],
    and none runs backwards.  Empty intervals are allowed. *)
Fixpoint chain (a : Z) (ivs : list interval) (b : Z) : Prop :=
  match ivs with
  | [] => a = b
  | iv :: ivs' => iv.1 = a /\ iv.1 <= iv.2 /\ chain iv.2 ivs' b
  end.

#[global] Instance chain_dec a ivs b : Decision (chain a ivs b).
Proof.
  revert a; induction ivs as [|iv ivs IH]; intros a; simpl; apply _.
Defined.

(** The end of the [k]-th interval, counting from 1; [a] for [k = 0]. *)
Definition bound_from (a : Z) (ivs : list interval) (k : nat) : Z :=
  foldl (fun _ iv => iv.2) a (take k ivs).

(** The elements of [l] at the positions [lo], ..., [hi - 1]. *)
Definition zslice {A} (l : list A) (lo hi : Z) : list A :=
  take (Z.to_nat (hi - lo)) (drop (Z.to_nat lo) l).

(** Replacing [l[lo : lo + len(block)]] by [block]. *)
Definition zsplice {A} (l : list A) (lo : Z) (block : list A) : list A :=
  take (Z.to_nat lo) l ++ block ++ drop (Z.to_nat lo + length block) l.

Section Invariants.
Context {Agent TlFace : Type}.
Local Abbreviation Dataset := (ChunkedDataset Agent TlFace).

(** A dataset satisfies the invariants when the frame intervals of its
    scenes tile the frame sequence, and the agent and traffic-light
    intervals of its frames tile the agent and traffic-light sequences:
    valid slices, contiguous, no gap or overlap, the last ending at the
    length of the sequence. *)
Definition valid_dataset (d : Dataset) : Prop :=
  chain 0 (frame_index_interval <$> scenes d) (py_len (frames d))
  /\ chain 0 (agent_index_interval <$> frames d) (py_len (agents d))
  /\ chain 0 (traffic_light_faces_index_interval <$> frames d)
             (py_len (tl_faces d)).

#[global] Instance valid_dataset_dec d : Decision (valid_dataset d).
Proof. unfold valid_dataset; apply _. Defined.

(** The scene references at least one frame. *)
Definition has_frames (s : Scene) : Prop :=
  (frame_index_interval s).1 < (frame_index_interval s).2.

#[global] Instance has_frames_dec s : Decision (has_frames s).
Proof. unfold has_frames; apply _. Defined.

(** Where the frames of scene [k] begin (and those of scene [k - 1]
    end), and where the agents and traffic-light faces of frame [j]
    begin, read off the interval fields. *)
Definition frame_bound (d : Dataset) (k : Z) : Z :=
  bound_from 0 (frame_index_interval <$> scenes d) (Z.to_nat k).

Definition agent_bound (d : Dataset) (j : Z) : Z :=
  bound_from 0 (agent_index_interval <$> frames d) (Z.to_nat j).

Definition tl_face_bound (d : Dataset) (j : Z) : Z :=
  bound_from 0 (traffic_light_faces_index_interval <$> frames d) (Z.to_nat j).

(** The number of scenes, frames, agents and traffic-light faces that
    the scenes [a], ..., [b - 1] of a dataset hold. *)
Definition range_counts (d : Dataset) (a b : Z) : NumEls :=
  {| num_scenes := b - a;
     num_frames := frame_bound d b - frame_bound d a;
     num_agents := agent_bound d (frame_bound d b)
                   - agent_bound d (frame_bound d a);
     num_tl_faces := tl_face_bound d (frame_bound d b)
                     - tl_face_bound d (frame_bound d a) |}.

(** The scenes [a], ..., [b - 1] of a dataset as a dataset of their
    own: the blocks of the range at each level, the intervals counted
    from the start of the blocks. *)
Definition scene_range (d : Dataset) (a b : Z) : Dataset :=
  let fa := frame_bound d a in
  let fb := frame_bound d b in
  {| scenes := shift_scene (- fa) <$> zslice (scenes d) a b;
     frames := shift_frame (- agent_bound d fa) (- tl_face_bound d fa)
                 <$> zslice (frames d) fa fb;
     agents := zslice (agents d) (agent_bound d fa) (agent_bound d fb);
     tl_faces :=
       zslice (tl_faces d) (tl_face_bound d fa) (tl_face_bound d fb) |}.

(** The destination [out] once the scenes [a], ..., [b - 1] of [d] have
    been copied to the write cursors [cur]: at each level the block of
    the range replaces what was at the cursor, its intervals moved by
    cursor minus start of the block. *)
Definition copied (d : Dataset) (a b : Z) (cur : NumEls) (out : Dataset)
  : Dataset :=
  let fa := frame_bound d a in
  let fb := frame_bound d b in
  {| scenes :=
       zsplice (scenes out) (num_scenes cur)
         (shift_scene (num_frames cur - fa) <$> zslice (scenes d) a b);
     frames :=
       zsplice (frames out) (num_frames cur)
         (shift_frame (num_agents cur - agent_bound d fa)
                      (num_tl_faces cur - tl_face_bound d fa)
            <$> zslice (frames d) fa fb);
     agents :=
       zsplice (agents out) (num_agents cur)
         (zslice (agents d) (agent_bound d fa) (agent_bound d fb));
     tl_faces :=
       zsplice (tl_faces out) (num_tl_faces cur)
         (zslice (tl_faces d) (tl_face_bound d fa) (tl_face_bound d fb)) |}.

(** The dataset has a scene, and each of its scenes has a frame. *)
Definition populated (d : Dataset) : Prop :=
  scenes d <> [] /\ Forall has_frames (scenes d).

#[global] Instance populated_dec d : Decision (populated d).
Proof. unfold populated; apply _. Defined.

(** The four lengths of a dataset. *)
Definition dataset_lens (d : Dataset) : NumEls :=
  {| num_scenes := py_len (scenes d);
     num_frames := py_len (frames d);
     num_agents := py_len (agents d);
     num_tl_faces := py_len (tl_faces d) |}.

(** The part of a destination written so far, given its write cursors. *)
Definition written_part (d : Dataset) (cur : NumEls) : Dataset :=
  {| scenes := take (Z.to_nat (num_scenes cur)) (scenes d);
     frames := take (Z.to_nat (num_frames cur)) (frames d);
     agents := take (Z.to_nat (num_agents cur)) (agents d);
     tl_faces := take (Z.to_nat (num_tl_faces cur)) (tl_faces d) |}.

(** Key-wise sum of counts, and "cursors plus counts fit the lengths". *)
Definition num_els_add (c d : NumEls) : NumEls :=
  {| num_scenes := num_scenes c + num_scenes d;
     num_frames := num_frames c + num_frames d;
     num_agents := num_agents c + num_agents d;
     num_tl_faces := num_tl_faces c + num_tl_faces d |}.

Definition num_els_le (c d : NumEls) : Prop :=
  num_scenes c <= num_scenes d /\ num_frames c <= num_frames d
  /\ num_agents c <= num_agents d /\ num_tl_faces c <= num_tl_faces d.

#[global] Instance num_els_le_dec c d : Decision (num_els_le c d).
Proof. unfold num_els_le; apply _. Defined.

(** The dataset [a] followed by the dataset [b], the intervals of [b]
    moved past the contents of [a]. *)
Definition dataset_append (a b : Dataset) : Dataset :=
  {| scenes := scenes a ++ (shift_scene (py_len (frames a)) <$> scenes b);
     frames := frames a
               ++ (shift_frame (py_len (agents a)) (py_len (tl_faces a))
                     <$> frames b);
     agents := agents a ++ agents b;
     tl_faces := tl_faces a ++ tl_faces b |}.

Definition empty_dataset : Dataset :=
  {| scenes := []; frames := []; agents := []; tl_faces := [] |}.

Definition dataset_concat (ds : list Dataset) : Dataset :=
  foldl dataset_append empty_dataset ds.

(** The datasets behind the paths that open, in the order of the paths. *)
Definition surviving (fs : gmap string (Entry Agent TlFace))
  (paths : list string) : list (string * Dataset) :=
  omap (fun p => match fs !! p with
                 | Some (Stored d) => Some (p, d)
                 | _ => None
                 end) paths.

(** The paths that do not open, in the order of the paths. *)
Definition skipped (fs : gmap string (Entry Agent TlFace))
  (paths : list string) : list string :=
  omap (fun p => match fs !! p with
                 | Some (Stored _) => None
                 | _ => Some p
                 end) paths.

End Invariants.
(** ** What it means for a copy to overrun the destination *)

Section Overrun.
Context {Agent TlFace : Type}.
Local Abbreviation Dataset := (ChunkedDataset Agent TlFace).

(** Writing [block] at the cursor [lo] of the sequence [l] would pass the
    end of [l]. *)
Definition past_end {A} (l : list A) (lo : Z) (block : list A) : Prop :=
  block <> [] /\ lo + py_len block > py_len l.

(** At one of the four levels, the block of a scene would be written
    past the pre-allocated length of the destination. *)
Definition overruns (out : Dataset) (cur : NumEls)
  (blocks : list Scene * list Frame * list Agent * list TlFace) : Prop :=
  let '(scenes_, frames_, agents_, tl_faces_) := blocks in
  past_end (scenes out) (num_scenes cur) scenes_
  \/ past_end (frames out) (num_frames cur) frames_
  \/ past_end (agents out) (num_agents cur) agents_
  \/ past_end (tl_faces out) (num_tl_faces cur) tl_faces_.

(** The call [_append_zarr_subset input a b offs] on the destination
    [out] has copied the scenes before [k] without an exception and is
    about to copy scene [k], the destination being [out_k] and the write
    cursors [cur_k]. *)
Definition copy_reaches (input_zarr : Dataset) (a b : Z)
  (offs : option NumEls) (out : Dataset) (k : Z) (out_k : Dataset)
  (cur_k : NumEls) : Prop :=
  let cur := match offs with None => counter_zero | Some c => c end in
  exists pre post scene frame,
    py_range a b = pre ++ k :: post
    /\ py_index (scenes input_zarr) a = Ok scene
    /\ py_index (frames input_zarr) (frame_index_interval scene).1 = Ok frame
    /\ for_each
         (copy_scene input_zarr
            (num_frames cur - (frame_index_interval scene).1)
            (num_agents cur - (agent_index_interval frame).1)
            (num_tl_faces cur
             - (traffic_light_faces_index_interval frame).1))
         cur pre out
       = (out_k, Ok cur_k).

End Overrun.

(** ** The size of a directory tree *)

Module PathSize.

#[local] Set Warnings "-register-all".

(** What [Path.glob], [Path.is_file] and [Path.stat] show of an entry of
    the file system: a regular file (or a link to one) with its size in
    bytes, a directory with its entries, or something that is
    neither (a socket, a dangling link, a link to a directory, which
    the recursive wildcard does not follow). *)
Inductive FsEntry : Type :=
| RegularFile (st_size : Z)
| Directory (entries : list FsEntry)
| OtherEntry.

(** [root_directory.glob("**/*")]: every entry below the directory, at
    any depth; nothing when the path is not a directory. *)
Fixpoint glob_all (root_directory : FsEntry) : list FsEntry :=
  match root_directory with
  | Directory entries =>
      flat_map (fun f => f :: glob_all f) entries
  | _ => []
  end.

(** [f.stat().st_size ... if f.is_file()]. *)
Definition size_if_file (f : FsEntry) : option Z :=
  match f with
  | RegularFile st_size => Some st_size
  | _ => None
  end.

(** [_compute_path_size(path)], the file system given as what it holds
    under each path ([None]: the path does not exist). *)
Definition _compute_path_size (file_system : string -> option FsEntry)
  (path : string) : Z :=
  match file_system path with
  | Some root_directory => py_sum (omap size_if_file (glob_all root_directory))
  | None => 0
  end.

(** What one entry of a directory adds to the size of the directory. *)
Definition entry_weight (f : FsEntry) : Z :=
  match f with
  | RegularFile st_size => st_size
  | Directory _ => py_sum (omap size_if_file (glob_all f))
  | OtherEntry => 0
  end.

End PathSize.

(** ** Small datasets for the examples *)

Definition ex_scene (a b : Z) : Scene :=
  {| host := "host"; start_time := 100; end_time := 200;
     frame_index_interval := (a, b) |}.

Definition ex_frame (t a b c d : Z) : Frame :=
  {| timestamp := t; ego_translation := []; ego_rotation := [];
     agent_index_interval := (a, b);
     traffic_light_faces_index_interval := (c, d) |}.

Definition ex_blank_scene : Scene := ex_scene 0 0.
Definition ex_blank_frame : Frame := ex_frame 0 0 0 0 0.

(** Two scenes of two and one frames, three agents, two faces. *)
Definition ds_small : ChunkedDataset nat nat :=
  {| scenes := [ex_scene 0 2; ex_scene 2 3];
     frames := [ex_frame 1 0 1 0 0; ex_frame 2 1 3 0 1; ex_frame 3 3 3 1 2];
     agents := [10; 11; 12]%nat;
     tl_faces := [20; 21]%nat |}.

(** One scene that references no frame, in a dataset without frames. *)
Definition ds_no_frames : ChunkedDataset nat nat :=
  {| scenes := [ex_scene 0 0]; frames := []; agents := []; tl_faces := [] |}.

(** A scene of one frame followed by a scene that references no frame. *)
Definition ds_idle_scene : ChunkedDataset nat nat :=
  {| scenes := [ex_scene 0 1; ex_scene 1 1];
     frames := [ex_frame 1 0 1 0 0];
     agents := [10]%nat;
     tl_faces := [] |}.

(** A dataset without scenes. *)
Definition ds_no_scenes : ChunkedDataset nat nat :=
  {| scenes := []; frames := []; agents := []; tl_faces := [] |}.

(** A store with one dataset under ["a"], something that is not a
    dataset under ["bad"], and nothing else. *)
Definition ex_store : gmap string (Entry nat nat) :=
  {[ "a" := Stored ds_small; "bad" := Malformed ]}.

Definition ex_store_of (d : ChunkedDataset nat nat)
  : gmap string (Entry nat nat) :=
  {[ "a" := Stored d ]}.

Definition ex_world_of (d : ChunkedDataset nat nat) : World nat nat :=
  {| disk := ex_store_of d; stdout := [] |}.

Definition ex_world : World nat nat := {| disk := ex_store; stdout := [] |}.

Definition ex_concat :=
  zarr_concat ex_blank_scene ex_blank_frame 0%nat 0%nat.

(** The cuts that consecutive pieces of the given sizes make, starting
    at scene [cur]. *)
Fixpoint cuts_from (cur : Z) (sizes : list Z) : list (Z * Z) :=
  match sizes with
  | [] => []
  | n :: sizes' => (cur, cur + n) :: cuts_from (cur + n) sizes'
  end.

(** Whether each spec carries the sentinel budget -1, and "exactly the
    last spec carries it". *)
Definition sentinel_flags (split_infos : list SplitInfo) : list bool :=
  (fun si => float_is_minus_one (split_size_GB si)) <$> split_infos.

Definition exactly_last_sentinel (split_infos : list SplitInfo) : Prop :=
  sentinel_flags split_infos
  = replicate (length split_infos - 1) false ++ [true].

#[global] Instance exactly_last_sentinel_dec l :
  Decision (exactly_last_sentinel l).
Proof. unfold exactly_last_sentinel; apply _. Defined.

(** Floats for the examples: -1.0, 0.25, 0.5, 1.5 and 2.0. *)
Definition float_m1 : float64 := S754_finite true 4503599627370496 (-52).
Definition float_quarter : float64 := S754_finite false 4503599627370496 (-54).
Definition float_half : float64 := S754_finite false 4503599627370496 (-53).
Definition float_1_5 : float64 := S754_finite false 6755399441055744 (-52).
Definition float_2 : float64 := S754_finite false 4503599627370496 (-51).

Definition ex_info (n : string) (x : float64) : SplitInfo :=
  {| name := n; split_size_GB := x |}.

(** Every path weighs one gigabyte; paths are joined with a slash. *)
Definition ex_path_size (path : string) : Z := GIGABYTE.
Definition ex_path_join (dir name : string) : string := dir +:+ "/" +:+ name.

Definition ex_split :=
  zarr_split ex_blank_scene ex_blank_frame 0%nat 0%nat
             ex_path_size ex_path_join.

(** The counts of [ds_small]. *)
Definition ex_counts_small : NumEls :=
  {| num_scenes := 2; num_frames := 3; num_agents := 3; num_tl_faces := 2 |}.

(** A destination with room for two copies of [ds_small]. *)
Definition ex_dest : ChunkedDataset nat nat :=
  blank_dataset ex_blank_scene ex_blank_frame 0%nat 0%nat
    {| num_scenes := 4; num_frames := 6; num_agents := 6; num_tl_faces := 4 |}.

(** The counts of the first and of the second scene of [ds_small]. *)
Definition ex_counts_first : NumEls :=
  {| num_scenes := 1; num_frames := 2; num_agents := 3; num_tl_faces := 1 |}.
Definition ex_counts_second : NumEls :=
  {| num_scenes := 1; num_frames := 1; num_agents := 0; num_tl_faces := 1 |}.

(** A file system in which every path is an empty directory, and a
    directory with a file, a subdirectory of two files and a socket. *)
Definition ex_empty_dirs (path : string) : option PathSize.FsEntry :=
  Some (PathSize.Directory []).

Definition ex_tree : PathSize.FsEntry :=
  PathSize.Directory
    [PathSize.RegularFile 10;
     PathSize.Directory [PathSize.RegularFile 20; PathSize.RegularFile 30];
     PathSize.OtherEntry].

Definition ex_split_weightless :=
  zarr_split ex_blank_scene ex_blank_frame 0%nat 0%nat
             (PathSize._compute_path_size ex_empty_dirs) ex_path_join.

(** * Properties *)

(** Closed decidable facts, by evaluation. *)
Ltac by_compute :=
  match goal with
  | |- ?P => apply (bool_decide_unpack P); vm_compute; exact I
  end.


(** ** Python sequences *)

Section Sequences.
Context {A : Type}.
Implicit Types (l block : list A).

Lemma py_len_nonneg l : 0 <= py_len l.
Proof. unfold py_len; lia. Qed.

Lemma py_len_app l1 l2 : py_len (l1 ++ l2) = py_len l1 + py_len l2.
Proof. unfold py_len; rewrite length_app; lia. Qed.

Lemma py_len_fmap {B} (f : A -> B) l : py_len (f <$> l) = py_len l.
Proof. unfold py_len; now rewrite length_fmap. Qed.

Lemma py_index_lookup l i x :
  0 <= i -> l !! Z.to_nat i = Some x -> py_index l i = Ok x.
Proof.
  intros Hi Hx. unfold py_index.
  pose proof (lookup_lt_Some _ _ _ Hx) as Hlt.
  cbv zeta. rewrite (bool_decide_eq_false_2 (i < 0)) by lia.
  rewrite bool_decide_eq_true_2 by (unfold py_len; lia).
  now rewrite Hx.
Qed.

Lemma py_index_last l x :
  l !! (length l - 1)%nat = Some x -> l <> [] -> py_index l (-1) = Ok x.
Proof.
  intros Hx Hne. unfold py_index.
  assert (0 < length l)%nat by (destruct l; simpl; [congruence | lia]).
  cbv zeta. rewrite (bool_decide_eq_true_2 (-1 < 0)) by lia.
  rewrite bool_decide_eq_true_2 by (unfold py_len; lia).
  replace (Z.to_nat (-1 + py_len l)) with (length l - 1)%nat
    by (unfold py_len; lia).
  now rewrite Hx.
Qed.

Lemma py_index_nil i : py_index (@nil A) i = Err IndexError.
Proof.
  unfold py_index, py_len; simpl.
  destruct (bool_decide (i < 0)); rewrite bool_decide_eq_false_2; auto; lia.
Qed.

Lemma py_index_err l i e : py_index l i = Err e -> e = IndexError.
Proof.
  unfold py_index. repeat case_match; congruence.
Qed.

Lemma py_slice_take_drop l lo hi :
  0 <= lo <= hi -> hi <= py_len l ->
  py_slice l lo hi = take (Z.to_nat (hi - lo)) (drop (Z.to_nat lo) l).
Proof.
  intros Hlo Hhi. unfold py_slice, py_bound.
  rewrite !bool_decide_eq_false_2 by lia.
  now rewrite !Z.min_l by lia.
Qed.

Lemma slice_length l lo hi :
  0 <= lo <= hi -> hi <= py_len l ->
  py_len (take (Z.to_nat (hi - lo)) (drop (Z.to_nat lo) l)) = hi - lo.
Proof.
  intros Hlo Hhi. unfold py_len in *.
  rewrite length_take, length_drop. lia.
Qed.

Lemma slice_app l lo mid hi :
  0 <= lo <= mid -> mid <= hi ->
  take (Z.to_nat (mid - lo)) (drop (Z.to_nat lo) l)
    ++ take (Z.to_nat (hi - mid)) (drop (Z.to_nat mid) l)
  = take (Z.to_nat (hi - lo)) (drop (Z.to_nat lo) l).
Proof.
  intros Hlo Hhi.
  replace (Z.to_nat (hi - lo)) with (Z.to_nat (mid - lo) + Z.to_nat (hi - mid))%nat by lia.
  rewrite <- take_take_drop. f_equal.
  rewrite drop_drop. do 2 f_equal. lia.
Qed.

Lemma slice_lookup l lo hi (i : nat) :
  (i < Z.to_nat (hi - lo))%nat ->
  take (Z.to_nat (hi - lo)) (drop (Z.to_nat lo) l) !! i = l !! (Z.to_nat lo + i)%nat.
Proof.
  intros Hi. rewrite lookup_take_lt by lia. now rewrite lookup_drop.
Qed.

Lemma write_slice_fits l lo block :
  0 <= lo -> lo + py_len block <= py_len l ->
  write_slice l lo (lo + py_len block) block = Ok (zsplice l lo block).
Proof.
  intros Hlo Hfit. unfold write_slice, py_bound, zsplice.
  pose proof (py_len_nonneg block).
  rewrite (bool_decide_eq_false_2 (lo < 0)) by lia.
  rewrite (bool_decide_eq_false_2 (lo + py_len block < 0)) by lia.
  rewrite !Z.min_l by lia.
  rewrite bool_decide_eq_true_2 by lia. reflexivity.
Qed.

Lemma write_slice_overrun l lo block :
  block <> [] -> lo + py_len block > py_len l ->
  write_slice l lo (lo + py_len block) block = Err OutOfBoundsError.
Proof.
  intros Hne Hover. unfold write_slice, py_bound.
  assert (0 < py_len block)
    by (destruct block; [congruence | unfold py_len; simpl; lia]).
  pose proof (py_len_nonneg l).
  rewrite bool_decide_eq_false_2; [reflexivity |].
  repeat case_bool_decide; lia.
Qed.

Lemma write_slice_length l lo hi block l' :
  write_slice l lo hi block = Ok l' -> length l' = length l.
Proof.
  unfold write_slice. case_bool_decide as Hsel; [|discriminate].
  intros [= <-].
  set (lo' := py_bound (py_len l) lo) in *.
  set (hi' := py_bound (py_len l) hi) in *.
  assert (0 <= lo' <= py_len l /\ 0 <= hi' <= py_len l) as Hb.
  { pose proof (py_len_nonneg l). unfold lo', hi', py_bound.
    repeat case_bool_decide; lia. }
  unfold py_len in *.
  rewrite !length_app, length_take, length_drop. lia.
Qed.

Lemma write_slice_err l lo hi block e :
  write_slice l lo hi block = Err e -> e = OutOfBoundsError.
Proof. unfold write_slice. case_bool_decide; congruence. Qed.

Lemma zsplice_nil l lo : zsplice l lo [] = l.
Proof.
  unfold zsplice; simpl. rewrite Nat.add_0_r. apply take_drop.
Qed.

Lemma zsplice_length l lo block :
  0 <= lo -> lo + py_len block <= py_len l ->
  length (zsplice l lo block) = length l.
Proof.
  intros Hlo Hfit. unfold zsplice, py_len in *.
  rewrite !length_app, length_take, length_drop. lia.
Qed.

Lemma zsplice_zsplice l lo b1 b2 :
  0 <= lo -> lo + py_len b1 <= py_len l ->
  zsplice (zsplice l lo b1) (lo + py_len b1) b2 = zsplice l lo (b1 ++ b2).
Proof.
  intros Hlo Hfit. unfold zsplice, py_len in *.
  replace (Z.to_nat (lo + Z.of_nat (length b1)))
    with (Z.to_nat lo + length b1)%nat by lia.
  assert (length (take (Z.to_nat lo) l) = Z.to_nat lo) as Hlt
    by (rewrite length_take; lia).
  rewrite (app_assoc (take _ l) b1).
  rewrite take_app_length'
    by (rewrite length_app, Hlt; reflexivity).
  rewrite <- !app_assoc. f_equal. f_equal. f_equal.
  rewrite (app_assoc (take _ l) b1), drop_app_ge
    by (rewrite length_app, Hlt; lia).
  rewrite length_app, Hlt, drop_drop, length_app.
  f_equal. lia.
Qed.

Lemma zsplice_take l lo block :
  0 <= lo -> lo <= py_len l ->
  take (Z.to_nat lo) (zsplice l lo block) = take (Z.to_nat lo) l.
Proof.
  intros Hlo Hfit. unfold zsplice, py_len in *.
  rewrite take_app_le by (rewrite length_take; lia).
  rewrite take_take. f_equal. lia.
Qed.

Lemma zsplice_take_end l lo block :
  0 <= lo -> lo <= py_len l ->
  take (Z.to_nat (lo + py_len block)) (zsplice l lo block)
  = take (Z.to_nat lo) l ++ block.
Proof.
  intros Hlo Hfit. unfold zsplice, py_len in *.
  rewrite app_assoc.
  apply take_app_length'. rewrite length_app, length_take. lia.
Qed.

End Sequences.

(** ** Chains of intervals *)

Lemma bound_from_0 a ivs : bound_from a ivs 0 = a.
Proof. reflexivity. Qed.

Lemma bound_from_cons a iv ivs k :
  bound_from a (iv :: ivs) (S k) = bound_from iv.2 ivs k.
Proof. reflexivity. Qed.

Lemma chain_le a ivs b : chain a ivs b -> a <= b.
Proof.
  revert a; induction ivs as [|iv ivs IH]; simpl; intros a.
  - lia.
  - intros (<- & Hle & Hc). specialize (IH _ Hc). lia.
Qed.

Lemma chain_app a l1 l2 b :
  chain a (l1 ++ l2) b <-> exists m, chain a l1 m /\ chain m l2 b.
Proof.
  revert a; induction l1 as [|iv l1 IH]; simpl; intros a.
  - split; [intros H; exists a; auto | intros (m & -> & H); auto].
  - rewrite IH. split.
    + intros (H1 & H2 & m & H3 & H4); exists m; auto.
    + intros (m & (H1 & H2 & H3) & H4); eauto.
Qed.

Lemma chain_take a ivs b k :
  chain a ivs b -> chain a (take k ivs) (bound_from a ivs k).
Proof.
  revert a k; induction ivs as [|iv ivs IH]; intros a [|k]; simpl; auto.
  intros (H1 & H2 & H3). rewrite bound_from_cons. auto.
Qed.

Lemma chain_drop a ivs b k :
  chain a ivs b -> chain (bound_from a ivs k) (drop k ivs) b.
Proof.
  revert a k; induction ivs as [|iv ivs IH]; intros a [|k]; simpl; auto.
  intros (H1 & H2 & H3). rewrite bound_from_cons. auto.
Qed.

Lemma bound_from_add a ivs i j :
  bound_from a ivs (i + j) = bound_from (bound_from a ivs i) (drop i ivs) j.
Proof.
  revert a i; induction ivs as [|iv ivs IH]; intros a [|i]; simpl; auto.
  - unfold bound_from. now rewrite !take_nil.
  - rewrite !bound_from_cons. apply IH.
Qed.

Lemma chain_slice a ivs b i j :
  chain a ivs b -> (i <= j)%nat ->
  chain (bound_from a ivs i) (take (j - i) (drop i ivs)) (bound_from a ivs j).
Proof.
  intros Hc Hij.
  replace j with (i + (j - i))%nat at 2 by lia.
  rewrite bound_from_add. eapply chain_take, chain_drop, Hc.
Qed.

Lemma bound_from_mono a ivs b i j :
  chain a ivs b -> (i <= j)%nat -> bound_from a ivs i <= bound_from a ivs j.
Proof. intros Hc Hij. eapply chain_le, chain_slice; eauto. Qed.

Lemma bound_from_length a ivs b :
  chain a ivs b -> bound_from a ivs (length ivs) = b.
Proof.
  revert a; induction ivs as [|iv ivs IH]; simpl; intros a; auto.
  intros (H1 & H2 & H3). rewrite bound_from_cons. auto.
Qed.

Lemma bound_from_ge a ivs k :
  (length ivs <= k)%nat -> bound_from a ivs k = bound_from a ivs (length ivs).
Proof. intros Hk. unfold bound_from. now rewrite !take_ge by lia. Qed.

Lemma bound_from_range a ivs b k :
  chain a ivs b -> a <= bound_from a ivs k <= b.
Proof.
  intros Hc. split.
  - rewrite <- (bound_from_0 a ivs) at 1. eapply bound_from_mono; eauto; lia.
  - rewrite <- (bound_from_length a ivs b Hc).
    destruct (decide (k <= length ivs)%nat).
    + eapply bound_from_mono; eauto.
    + rewrite bound_from_ge by lia. lia.
Qed.

Lemma chain_lookup a ivs b k iv :
  chain a ivs b -> ivs !! k = Some iv ->
  iv.1 = bound_from a ivs k /\ iv.2 = bound_from a ivs (S k) /\ iv.1 <= iv.2.
Proof.
  revert a k; induction ivs as [|iv' ivs IH]; intros a [|k]; simpl;
    try discriminate.
  - intros (H1 & H2 & H3) [= ->]. auto.
  - intros (H1 & H2 & H3) Hk. rewrite !bound_from_cons. eauto.
Qed.

Lemma chain_shift d a ivs b :
  chain a ivs b -> chain (a + d) (shift_interval d <$> ivs) (b + d).
Proof.
  revert a; induction ivs as [|iv ivs IH]; simpl; intros a.
  - lia.
  - intros (H1 & H2 & H3). repeat split; try lia. apply IH, H3.
Qed.

Lemma chain_end_unique a ivs b b' : chain a ivs b -> chain a ivs b' -> b = b'.
Proof.
  intros H1 H2.
  now rewrite <- (bound_from_length _ _ _ H1), <- (bound_from_length _ _ _ H2).
Qed.

Lemma zsplice_zsplice_at {A} (l : list A) lo lo' b1 b2 :
  0 <= lo -> lo + py_len b1 <= py_len l -> lo' = lo + py_len b1 ->
  zsplice (zsplice l lo b1) lo' b2 = zsplice l lo (b1 ++ b2).
Proof. intros ? ? ->. now apply zsplice_zsplice. Qed.

(** ** The monad of stateful computations *)

Lemma M_bind_lift_ok {St A B} (a : A) (f : A -> M St B) s :
  (lift (Ok a) ≫= f) s = f a s.
Proof. reflexivity. Qed.

Lemma M_bind_lift_err {St A B} e (f : A -> M St B) s :
  (lift (Err e) ≫= f) s = (s, Err e).
Proof. reflexivity. Qed.

Lemma M_bind_ok {St A B} (m : M St A) (f : A -> M St B) s s' a :
  m s = (s', Ok a) -> (m ≫= f) s = f a s'.
Proof. intros H. unfold mbind, M_bind. now rewrite H. Qed.

Lemma M_bind_err {St A B} (m : M St A) (f : A -> M St B) s s' e :
  m s = (s', Err e) -> (m ≫= f) s = (s', Err e).
Proof. intros H. unfold mbind, M_bind. now rewrite H. Qed.

Section Writes.
Context {Agent TlFace : Type}.
Local Abbreviation Dataset := (ChunkedDataset Agent TlFace).
Implicit Types out : Dataset.

Lemma write_scenes_fits out lo block :
  0 <= lo -> lo + py_len block <= py_len (scenes out) ->
  write_scenes lo (lo + py_len block) block out
  = (Build_ChunkedDataset (zsplice (scenes out) lo block) (frames out)
       (agents out) (tl_faces out), Ok tt).
Proof. intros. unfold write_scenes. now rewrite write_slice_fits. Qed.

Lemma write_frames_fits out lo block :
  0 <= lo -> lo + py_len block <= py_len (frames out) ->
  write_frames lo (lo + py_len block) block out
  = (Build_ChunkedDataset (scenes out) (zsplice (frames out) lo block)
       (agents out) (tl_faces out), Ok tt).
Proof. intros. unfold write_frames. now rewrite write_slice_fits. Qed.

Lemma write_agents_fits out lo block :
  0 <= lo -> lo + py_len block <= py_len (agents out) ->
  write_agents lo (lo + py_len block) block out
  = (Build_ChunkedDataset (scenes out) (frames out)
       (zsplice (agents out) lo block) (tl_faces out), Ok tt).
Proof. intros. unfold write_agents. now rewrite write_slice_fits. Qed.

Lemma write_tl_faces_fits out lo block :
  0 <= lo -> lo + py_len block <= py_len (tl_faces out) ->
  write_tl_faces lo (lo + py_len block) block out
  = (Build_ChunkedDataset (scenes out) (frames out) (agents out)
       (zsplice (tl_faces out) lo block), Ok tt).
Proof. intros. unfold write_tl_faces. now rewrite write_slice_fits. Qed.

End Writes.

(** ** Boundary records of a valid dataset *)

Lemma chain_fmap_lookup {X} (p : X -> interval) (l : list X) a n (k : Z) :
  chain a (p <$> l) n -> 0 <= k < py_len l ->
  exists x, l !! Z.to_nat k = Some x
    /\ (p x).1 = bound_from a (p <$> l) (Z.to_nat k)
    /\ (p x).2 = bound_from a (p <$> l) (Z.to_nat (k + 1))
    /\ (p x).1 <= (p x).2.
Proof.
  intros Hc Hk.
  destruct (lookup_lt_is_Some_2 l (Z.to_nat k)) as [x Hx];
    [unfold py_len in Hk; lia |].
  exists x. split; [exact Hx |].
  assert ((p <$> l) !! Z.to_nat k = Some (p x)) as Hpx
    by (now rewrite list_lookup_fmap, Hx).
  destruct (chain_lookup _ _ _ _ _ Hc Hpx) as (H1 & H2 & H3).
  replace (Z.to_nat (k + 1)) with (S (Z.to_nat k)) by lia. auto.
Qed.

Section ValidSource.
Context {Agent TlFace : Type}.
Local Abbreviation Dataset := (ChunkedDataset Agent TlFace).
Context (src : Dataset) (Hvalid : valid_dataset src).

Local Abbreviation FB := (frame_bound src).
Local Abbreviation AB := (agent_bound src).
Local Abbreviation TB := (tl_face_bound src).

Lemma frame_bound_0 : FB 0 = 0.
Proof. reflexivity. Qed.

Lemma frame_bound_mono i j : 0 <= i <= j -> FB i <= FB j.
Proof.
  intros Hij. destruct Hvalid as (Hs & _).
  eapply bound_from_mono; eauto. lia.
Qed.

Lemma frame_bound_range k : 0 <= FB k <= py_len (frames src).
Proof. destruct Hvalid as (Hs & _). eapply bound_from_range; eauto. Qed.

Lemma frame_bound_len : FB (py_len (scenes src)) = py_len (frames src).
Proof.
  destruct Hvalid as (Hs & _). unfold frame_bound, py_len.
  rewrite Nat2Z.id.
  rewrite <- (length_fmap frame_index_interval).
  eapply bound_from_length; eauto.
Qed.

Lemma agent_bound_0 : AB 0 = 0.
Proof. reflexivity. Qed.

Lemma agent_bound_mono i j : 0 <= i <= j -> AB i <= AB j.
Proof.
  intros Hij. destruct Hvalid as (_ & Ha & _).
  eapply bound_from_mono; eauto. lia.
Qed.

Lemma agent_bound_range j : 0 <= AB j <= py_len (agents src).
Proof. destruct Hvalid as (_ & Ha & _). eapply bound_from_range; eauto. Qed.

Lemma agent_bound_len : AB (py_len (frames src)) = py_len (agents src).
Proof.
  destruct Hvalid as (_ & Ha & _). unfold agent_bound, py_len.
  rewrite Nat2Z.id.
  rewrite <- (length_fmap agent_index_interval).
  eapply bound_from_length; eauto.
Qed.

Lemma tl_face_bound_0 : TB 0 = 0.
Proof. reflexivity. Qed.

Lemma tl_face_bound_mono i j : 0 <= i <= j -> TB i <= TB j.
Proof.
  intros Hij. destruct Hvalid as (_ & _ & Ht).
  eapply bound_from_mono; eauto. lia.
Qed.

Lemma tl_face_bound_range j : 0 <= TB j <= py_len (tl_faces src).
Proof. destruct Hvalid as (_ & _ & Ht). eapply bound_from_range; eauto. Qed.

Lemma tl_face_bound_len : TB (py_len (frames src)) = py_len (tl_faces src).
Proof.
  destruct Hvalid as (_ & _ & Ht). unfold tl_face_bound, py_len.
  rewrite Nat2Z.id.
  rewrite <- (length_fmap traffic_light_faces_index_interval).
  eapply bound_from_length; eauto.
Qed.

(** The scene at position [k] spans the frames from [FB k] to
    [FB (k + 1)]. *)
Lemma scene_at k :
  0 <= k < py_len (scenes src) ->
  exists s, scenes src !! Z.to_nat k = Some s
    /\ frame_index_interval s = (FB k, FB (k + 1)).
Proof.
  intros Hk. destruct Hvalid as (Hs & _).
  destruct (chain_fmap_lookup _ _ _ _ k Hs Hk) as (s & Hl & H1 & H2 & _).
  exists s; split; [exact Hl |].
  destruct (frame_index_interval s) as [x y]; simpl in *.
  unfold frame_bound. congruence.
Qed.

(** The frame at position [j] spans the agents from [AB j] to
    [AB (j + 1)] and the traffic-light faces from [TB j] to [TB (j + 1)]. *)
Lemma frame_at j :
  0 <= j < py_len (frames src) ->
  exists f, frames src !! Z.to_nat j = Some f
    /\ agent_index_interval f = (AB j, AB (j + 1))
    /\ traffic_light_faces_index_interval f = (TB j, TB (j + 1)).
Proof.
  intros Hj. destruct Hvalid as (_ & Ha & Ht).
  destruct (chain_fmap_lookup _ _ _ _ j Ha Hj) as (f & Hl & H1 & H2 & _).
  destruct (chain_fmap_lookup _ _ _ _ j Ht Hj) as (f' & Hl' & H1' & H2' & _).
  assert (f' = f) as -> by congruence.
  exists f; split; [exact Hl |].
  destruct (agent_index_interval f) as [x y],
           (traffic_light_faces_index_interval f) as [x' y']; simpl in *.
  unfold agent_bound, tl_face_bound. split; congruence.
Qed.

(** *** The range accountant on a valid dataset *)

Lemma num_els_in_range a b :
  0 <= a < b -> b <= py_len (scenes src) -> FB a < FB b ->
  _get_num_els_in_scene_range src a b = Ok (range_counts src a b).
Proof.
  intros Hab Hb Hfr.
  destruct (scene_at a) as (sa & Hsa & Hia); [lia |].
  destruct (scene_at (b - 1)) as (sb & Hsb & Hib); [lia |].
  replace (b - 1 + 1) with b in Hib by lia.
  pose proof (frame_bound_range a) as Hra.
  pose proof (frame_bound_range b) as Hrb.
  destruct (frame_at (FB a)) as (fa & Hfa & Haa & Hta); [lia |].
  destruct (frame_at (FB b - 1)) as (fb & Hfb & Hab' & Htb); [lia |].
  replace (FB b - 1 + 1) with (FB b) in Hab', Htb by lia.
  unfold _get_num_els_in_scene_range.
  rewrite bool_decide_eq_true_2 by lia.
  rewrite (py_index_lookup _ a sa) by (auto; lia).
  rewrite (py_index_lookup _ (b - 1) sb) by (auto; lia).
  cbn [mbind result_bind].
  rewrite Hia, Hib. cbn [fst snd].
  rewrite (py_index_lookup _ (FB a) fa) by (auto; lia).
  rewrite (py_index_lookup _ (FB b - 1) fb) by (auto; lia).
  cbn [mbind result_bind mret result_ret].
  rewrite Haa, Hab', Hta, Htb. reflexivity.
Qed.

(** *** One turn of the copy loop on a valid dataset *)

Lemma read_scene_blocks_valid k :
  0 <= k < py_len (scenes src) -> FB k < FB (k + 1) ->
  read_scene_blocks src k
  = Ok (zslice (scenes src) k (k + 1),
        zslice (frames src) (FB k) (FB (k + 1)),
        zslice (agents src) (AB (FB k)) (AB (FB (k + 1))),
        zslice (tl_faces src) (TB (FB k)) (TB (FB (k + 1)))).
Proof.
  intros Hk Hfr.
  destruct (scene_at k) as (s & Hs & Hi); [lia |].
  pose proof (frame_bound_range k) as Hrk.
  pose proof (frame_bound_range (k + 1)) as Hrk1.
  destruct (frame_at (FB k)) as (f0 & Hf0 & Ha0 & Ht0); [lia |].
  destruct (frame_at (FB (k + 1) - 1)) as (f1 & Hf1 & Ha1 & Ht1); [lia |].
  replace (FB (k + 1) - 1 + 1) with (FB (k + 1)) in Ha1, Ht1 by lia.
  unfold read_scene_blocks.
  rewrite (py_slice_take_drop (scenes src)) by lia.
  assert (take (Z.to_nat (k + 1 - k)) (drop (Z.to_nat k) (scenes src)) = [s])
    as Hone.
  { replace (Z.to_nat (k + 1 - k)) with 1%nat by lia.
    erewrite drop_S by eauto. reflexivity. }
  unfold zslice at 1. rewrite Hone.
  cbn [py_index py_len length mbind result_bind bool_decide]. 
  replace (py_index [s] 0) with (Ok s) by reflexivity.
  cbn [mbind result_bind]. rewrite Hi. cbn [fst snd].
  rewrite (py_slice_take_drop (frames src)) by lia.
  fold (zslice (frames src) (FB k) (FB (k + 1))).
  assert (py_len (zslice (frames src) (FB k) (FB (k + 1)))
          = FB (k + 1) - FB k) as Hlen by (apply slice_length; lia).
  rewrite (py_index_lookup _ 0 f0); cycle 1; [lia | |].
  { unfold zslice. rewrite slice_lookup by lia.
    now replace (Z.to_nat (FB k) + Z.to_nat 0)%nat with (Z.to_nat (FB k)) by lia. }
  rewrite (py_index_last _ f1); cycle 1.
  { unfold py_len in Hlen. unfold zslice in *. rewrite slice_lookup by lia.
    rewrite <- Hf1. f_equal. lia. }
  { intros Hnil. rewrite Hnil in Hlen. unfold py_len in Hlen; simpl in Hlen; lia. }
  cbn [mbind result_bind mret result_ret].
  rewrite Ha0, Ha1, Ht0, Ht1. cbn [fst snd].
  pose proof (agent_bound_range (FB k)).
  pose proof (agent_bound_range (FB (k + 1))).
  pose proof (agent_bound_mono (FB k) (FB (k + 1))).
  pose proof (tl_face_bound_range (FB k)).
  pose proof (tl_face_bound_range (FB (k + 1))).
  pose proof (tl_face_bound_mono (FB k) (FB (k + 1))).
  rewrite (py_slice_take_drop (agents src)) by lia.
  rewrite (py_slice_take_drop (tl_faces src)) by lia.
  reflexivity.
Qed.

Lemma copy_scene_valid off_f off_a off_t cur k out :
  0 <= k < py_len (scenes src) -> FB k < FB (k + 1) ->
  0 <= num_scenes cur -> num_scenes cur + 1 <= py_len (scenes out) ->
  0 <= num_frames cur ->
  num_frames cur + (FB (k + 1) - FB k) <= py_len (frames out) ->
  0 <= num_agents cur ->
  num_agents cur + (AB (FB (k + 1)) - AB (FB k)) <= py_len (agents out) ->
  0 <= num_tl_faces cur ->
  num_tl_faces cur + (TB (FB (k + 1)) - TB (FB k)) <= py_len (tl_faces out) ->
  copy_scene src off_f off_a off_t cur k out
  = ({| scenes := zsplice (scenes out) (num_scenes cur)
                    (shift_scene off_f <$> zslice (scenes src) k (k + 1));
        frames := zsplice (frames out) (num_frames cur)
                    (shift_frame off_a off_t
                       <$> zslice (frames src) (FB k) (FB (k + 1)));
        agents := zsplice (agents out) (num_agents cur)
                    (zslice (agents src) (AB (FB k)) (AB (FB (k + 1))));
        tl_faces := zsplice (tl_faces out) (num_tl_faces cur)
                      (zslice (tl_faces src) (TB (FB k)) (TB (FB (k + 1)))) |},
     Ok {| num_scenes := num_scenes cur + 1;
           num_frames := num_frames cur + (FB (k + 1) - FB k);
           num_agents := num_agents cur + (AB (FB (k + 1)) - AB (FB k));
           num_tl_faces :=
             num_tl_faces cur + (TB (FB (k + 1)) - TB (FB k)) |}).
Proof.
  intros Hk Hfr Hs0 Hs1 Hf0 Hf1 Ha0 Ha1 Ht0 Ht1.
  pose proof (frame_bound_range k) as Hrk.
  pose proof (frame_bound_range (k + 1)) as Hrk1.
  pose proof (agent_bound_range (FB k)).
  pose proof (agent_bound_range (FB (k + 1))).
  pose proof (agent_bound_mono (FB k) (FB (k + 1))).
  pose proof (tl_face_bound_range (FB k)).
  pose proof (tl_face_bound_range (FB (k + 1))).
  pose proof (tl_face_bound_mono (FB k) (FB (k + 1))).
  assert (py_len (zslice (scenes src) k (k + 1)) = 1) as Ls
    by (unfold zslice; rewrite slice_length; lia).
  assert (py_len (zslice (frames src) (FB k) (FB (k + 1)))
          = FB (k + 1) - FB k) as Lf
    by (unfold zslice; rewrite slice_length; lia).
  assert (py_len (zslice (agents src) (AB (FB k)) (AB (FB (k + 1))))
          = AB (FB (k + 1)) - AB (FB k)) as La
    by (unfold zslice; rewrite slice_length; lia).
  assert (py_len (zslice (tl_faces src) (TB (FB k)) (TB (FB (k + 1))))
          = TB (FB (k + 1)) - TB (FB k)) as Lt
    by (unfold zslice; rewrite slice_length; lia).
  unfold copy_scene.
  rewrite read_scene_blocks_valid by assumption.
  rewrite M_bind_lift_ok.
  erewrite M_bind_ok
    by (apply write_scenes_fits; rewrite ?py_len_fmap; lia).
  erewrite M_bind_ok
    by (apply write_frames_fits; cbn [frames]; rewrite ?py_len_fmap; lia).
  erewrite M_bind_ok
    by (apply write_agents_fits; cbn [agents]; lia).
  erewrite M_bind_ok
    by (apply write_tl_faces_fits; cbn [tl_faces]; lia).
  cbn [scenes frames agents tl_faces].
  rewrite !py_len_fmap, Ls, Lf, La, Lt. reflexivity.
Qed.

Lemma copy_loop_valid off_f off_a off_t (n : nat) : forall k cur out,
  0 <= k -> k + Z.of_nat n <= py_len (scenes src) ->
  (forall i, k <= i < k + Z.of_nat n -> FB i < FB (i + 1)) ->
  num_frames cur = off_f + FB k ->
  num_agents cur = off_a + AB (FB k) ->
  num_tl_faces cur = off_t + TB (FB k) ->
  0 <= num_scenes cur -> 0 <= num_frames cur ->
  0 <= num_agents cur -> 0 <= num_tl_faces cur ->
  num_scenes cur + Z.of_nat n <= py_len (scenes out) ->
  off_f + FB (k + Z.of_nat n) <= py_len (frames out) ->
  off_a + AB (FB (k + Z.of_nat n)) <= py_len (agents out) ->
  off_t + TB (FB (k + Z.of_nat n)) <= py_len (tl_faces out) ->
  for_each (copy_scene src off_f off_a off_t) cur (seqZ k (Z.of_nat n)) out
  = ({| scenes := zsplice (scenes out) (num_scenes cur)
                    (shift_scene off_f
                       <$> zslice (scenes src) k (k + Z.of_nat n));
        frames := zsplice (frames out) (num_frames cur)
                    (shift_frame off_a off_t
                       <$> zslice (frames src) (FB k) (FB (k + Z.of_nat n)));
        agents := zsplice (agents out) (num_agents cur)
                    (zslice (agents src) (AB (FB k))
                            (AB (FB (k + Z.of_nat n))));
        tl_faces := zsplice (tl_faces out) (num_tl_faces cur)
                      (zslice (tl_faces src) (TB (FB k))
                              (TB (FB (k + Z.of_nat n)))) |},
     Ok {| num_scenes := num_scenes cur + Z.of_nat n;
           num_frames := off_f + FB (k + Z.of_nat n);
           num_agents := off_a + AB (FB (k + Z.of_nat n));
           num_tl_faces := off_t + TB (FB (k + Z.of_nat n)) |}).
Proof.
  induction n as [|n IH]; intros k cur out Hk Hkn Hfr Ef Ea Et Hs0 Hf0 Ha0 Ht0
    Cs Cf Ca Ct.
  - change (Z.of_nat 0) with 0. rewrite !Z.add_0_r.
    unfold zslice. rewrite !Z.sub_diag. change (Z.to_nat 0) with 0%nat.
    rewrite !take_0, !fmap_nil, !zsplice_nil.
    destruct out, cur; cbn in *. subst. reflexivity.
  - rewrite seqZ_cons by lia. cbn [for_each mbind M_bind].
    replace (Z.pred (Z.of_nat (S n))) with (Z.of_nat n) by lia.
    replace (Z.succ k) with (k + 1) by lia.
    assert (Hfk : FB k < FB (k + 1)) by (apply Hfr; lia).
    assert (Hm1 : FB (k + 1) <= FB (k + Z.of_nat (S n)))
      by (apply frame_bound_mono; lia).
    pose proof (frame_bound_range k) as Hrk.
    pose proof (frame_bound_range (k + 1)) as Hrk1.
    pose proof (frame_bound_range (k + Z.of_nat (S n))) as Hrkn.
    pose proof (agent_bound_range (FB k)).
    pose proof (agent_bound_mono (FB k) (FB (k + 1))).
    pose proof (agent_bound_mono (FB (k + 1)) (FB (k + Z.of_nat (S n)))).
    pose proof (tl_face_bound_range (FB k)).
    pose proof (tl_face_bound_mono (FB k) (FB (k + 1))).
    pose proof (tl_face_bound_mono (FB (k + 1)) (FB (k + Z.of_nat (S n)))).
    erewrite M_bind_ok by (apply copy_scene_valid; lia).
    replace (k + Z.of_nat (S n)) with (k + 1 + Z.of_nat n) in * by lia.
    assert (py_len (zslice (scenes src) k (k + 1)) = 1) as Ls
      by (unfold zslice; rewrite slice_length; lia).
    assert (py_len (zslice (frames src) (FB k) (FB (k + 1)))
            = FB (k + 1) - FB k) as Lf
      by (unfold zslice; rewrite slice_length; lia).
    assert (py_len (zslice (agents src) (AB (FB k)) (AB (FB (k + 1))))
            = AB (FB (k + 1)) - AB (FB k)) as La
      by (unfold zslice; rewrite slice_length;
          pose proof (agent_bound_range (FB (k + 1))); lia).
    assert (py_len (zslice (tl_faces src) (TB (FB k)) (TB (FB (k + 1))))
            = TB (FB (k + 1)) - TB (FB k)) as Lt
      by (unfold zslice; rewrite slice_length;
          pose proof (tl_face_bound_range (FB (k + 1))); lia).
    rewrite IH; cbn [num_scenes num_frames num_agents num_tl_faces
                     scenes frames agents tl_faces];
      try (rewrite ?(Nat2Z.inj_add), ?length_app; unfold py_len in *;
           rewrite ?zsplice_length
             by (unfold py_len; rewrite ?length_fmap; lia); lia);
      try (intros i Hi; apply Hfr; lia).
    f_equal.
    + f_equal.
      * rewrite zsplice_zsplice_at by (rewrite ?py_len_fmap; lia).
        rewrite <- fmap_app. unfold zslice. rewrite slice_app by lia.
        reflexivity.
      * rewrite zsplice_zsplice_at by (rewrite ?py_len_fmap; lia).
        rewrite <- fmap_app. unfold zslice. rewrite slice_app by lia.
        reflexivity.
      * rewrite zsplice_zsplice_at by lia.
        unfold zslice. rewrite slice_app by lia. reflexivity.
      * rewrite zsplice_zsplice_at by lia.
        unfold zslice. rewrite slice_app by lia. reflexivity.
    + f_equal. f_equal. lia.
Qed.

End ValidSource.

(** ** The subset copier on a valid dataset *)

Lemma shift_interval_shift d e iv :
  shift_interval d (shift_interval e iv) = shift_interval (e + d) iv.
Proof. destruct iv; unfold shift_interval; simpl; f_equal; lia. Qed.

Lemma shift_scene_shift d e s :
  shift_scene d (shift_scene e s) = shift_scene (e + d) s.
Proof.
  unfold shift_scene; simpl. now rewrite shift_interval_shift.
Qed.

Lemma shift_frame_shift d d' e e' f :
  shift_frame d d' (shift_frame e e' f) = shift_frame (e + d) (e' + d') f.
Proof.
  unfold shift_frame; simpl. now rewrite !shift_interval_shift.
Qed.

Lemma shift_interval_0 iv : shift_interval 0 iv = iv.
Proof. destruct iv; unfold shift_interval; simpl; f_equal; lia. Qed.

Lemma shift_scene_0 s : shift_scene 0 s = s.
Proof. destruct s; unfold shift_scene; simpl. now rewrite shift_interval_0. Qed.

Lemma shift_frame_0 f : shift_frame 0 0 f = f.
Proof.
  destruct f; unfold shift_frame; simpl. now rewrite !shift_interval_0.
Qed.

Lemma fmap_frame_index_interval_shift d (l : list Scene) :
  frame_index_interval <$> (shift_scene d <$> l)
  = shift_interval d <$> (frame_index_interval <$> l).
Proof. rewrite <- !list_fmap_compose. reflexivity. Qed.

Lemma fmap_agent_index_interval_shift d d' (l : list Frame) :
  agent_index_interval <$> (shift_frame d d' <$> l)
  = shift_interval d <$> (agent_index_interval <$> l).
Proof. rewrite <- !list_fmap_compose. reflexivity. Qed.

Lemma fmap_tl_index_interval_shift d d' (l : list Frame) :
  traffic_light_faces_index_interval <$> (shift_frame d d' <$> l)
  = shift_interval d' <$> (traffic_light_faces_index_interval <$> l).
Proof. rewrite <- !list_fmap_compose. reflexivity. Qed.

Section Copier.
Context {Agent TlFace : Type}.
Local Abbreviation Dataset := (ChunkedDataset Agent TlFace).
Implicit Types src out : Dataset.

(** Every scene of the range holds a frame: in terms of the bounds. *)
Lemma has_frames_in_range src a b :
  valid_dataset src -> 0 <= a <= b -> b <= py_len (scenes src) ->
  Forall has_frames (py_slice (scenes src) a b) ->
  forall i, a <= i < b -> frame_bound src i < frame_bound src (i + 1).
Proof.
  intros Hv Hab Hb Hall i Hi.
  destruct (scene_at src Hv i) as (s & Hs & Hiv); [lia |].
  rewrite py_slice_take_drop in Hall by lia.
  rewrite Forall_lookup in Hall.
  specialize (Hall (Z.to_nat (i - a)) s).
  rewrite slice_lookup in Hall by lia.
  replace (Z.to_nat a + Z.to_nat (i - a))%nat with (Z.to_nat i) in Hall by lia.
  specialize (Hall Hs). unfold has_frames in Hall.
  now rewrite Hiv in Hall.
Qed.

Lemma range_counts_nonneg src a b :
  valid_dataset src -> 0 <= a <= b ->
  num_els_le counter_zero (range_counts src a b).
Proof.
  intros Hv Hab. unfold num_els_le, range_counts; cbn.
  pose proof (frame_bound_mono src Hv a b).
  pose proof (frame_bound_range src Hv a).
  pose proof (agent_bound_mono src Hv (frame_bound src a) (frame_bound src b)).
  pose proof (tl_face_bound_mono src Hv (frame_bound src a) (frame_bound src b)).
  lia.
Qed.

Lemma append_cursors_valid src a b cur out :
  valid_dataset src ->
  0 <= a < b -> b <= py_len (scenes src) ->
  (forall i, a <= i < b -> frame_bound src i < frame_bound src (i + 1)) ->
  num_els_le counter_zero cur ->
  num_els_le (num_els_add cur (range_counts src a b)) (dataset_lens out) ->
  append_zarr_subset_cursors src a b (Some cur) out
  = (copied src a b cur out, Ok (num_els_add cur (range_counts src a b))).
Proof.
  intros Hv Hab Hb Hfr (Hs0 & Hf0 & Ha0 & Ht0) (Cs & Cf & Ca & Ct).
  cbn in Hs0, Hf0, Ha0, Ht0, Cs, Cf, Ca, Ct.
  destruct (scene_at src Hv a) as (sa & Hsa & Hia); [lia |].
  pose proof (frame_bound_range src Hv a) as Hra.
  assert (Hfa : frame_bound src a < frame_bound src (a + 1)) by (apply Hfr; lia).
  pose proof (frame_bound_range src Hv (a + 1)) as Hra1.
  destruct (frame_at src Hv (frame_bound src a)) as (fa & Hfa' & Haa & Hta);
    [lia |].
  unfold append_zarr_subset_cursors.
  rewrite (py_index_lookup _ a sa) by (auto; lia).
  rewrite M_bind_lift_ok. rewrite Hia. cbn [fst snd].
  rewrite (py_index_lookup _ _ fa) by (auto; lia).
  rewrite M_bind_lift_ok. rewrite Haa, Hta. cbn [fst snd].
  unfold py_range.
  replace (b - a) with (Z.of_nat (Z.to_nat (b - a))) by lia.
  assert (Hb' : a + Z.of_nat (Z.to_nat (b - a)) = b) by lia.
  rewrite (copy_loop_valid src Hv); rewrite ?Hb'; try lia;
    [| intros i Hi; apply Hfr; lia].
  unfold copied, num_els_add, range_counts. cbn. f_equal. f_equal; f_equal; lia.
Qed.

Lemma append_zarr_subset_valid src a b cur out :
  valid_dataset src ->
  0 <= a < b -> b <= py_len (scenes src) ->
  (forall i, a <= i < b -> frame_bound src i < frame_bound src (i + 1)) ->
  num_els_le counter_zero cur ->
  num_els_le (num_els_add cur (range_counts src a b)) (dataset_lens out) ->
  _append_zarr_subset src a b (Some cur) out = (copied src a b cur out, Ok tt).
Proof.
  intros. unfold _append_zarr_subset.
  erewrite M_bind_ok by (now apply append_cursors_valid). reflexivity.
Qed.

Lemma append_zarr_subset_fresh src a b out :
  valid_dataset src ->
  0 <= a < b -> b <= py_len (scenes src) ->
  (forall i, a <= i < b -> frame_bound src i < frame_bound src (i + 1)) ->
  num_els_le (range_counts src a b) (dataset_lens out) ->
  _append_zarr_subset src a b None out
  = (copied src a b counter_zero out, Ok tt).
Proof.
  intros Hv Hab Hb Hfr Hle.
  change (_append_zarr_subset src a b None out)
    with (_append_zarr_subset src a b (Some counter_zero) out).
  destruct Hle as (? & ? & ? & ?).
  apply append_zarr_subset_valid; auto; unfold num_els_le; cbn in *; lia.
Qed.

(** *** Appending datasets keeps them valid *)

Lemma valid_dataset_append (w x : Dataset) :
  valid_dataset w -> valid_dataset x -> valid_dataset (dataset_append w x).
Proof.
  intros (Ws & Wa & Wt) (Xs & Xa & Xt).
  unfold valid_dataset, dataset_append; cbn.
  rewrite !fmap_app, !py_len_app, !py_len_fmap.
  rewrite fmap_frame_index_interval_shift, fmap_agent_index_interval_shift,
    fmap_tl_index_interval_shift.
  repeat split; apply chain_app; eexists; (split; [eassumption |]).
  - apply (chain_shift (py_len (frames w)) 0) in Xs.
    now rewrite Z.add_0_l, Z.add_comm in Xs.
  - apply (chain_shift (py_len (agents w)) 0) in Xa.
    now rewrite Z.add_0_l, Z.add_comm in Xa.
  - apply (chain_shift (py_len (tl_faces w)) 0) in Xt.
    now rewrite Z.add_0_l, Z.add_comm in Xt.
Qed.

Lemma valid_empty_dataset : valid_dataset (@empty_dataset Agent TlFace).
Proof. repeat split. Qed.

Lemma range_block_lens src a b :
  valid_dataset src -> 0 <= a <= b -> b <= py_len (scenes src) ->
  py_len (zslice (scenes src) a b) = b - a
  /\ py_len (zslice (frames src) (frame_bound src a) (frame_bound src b))
     = frame_bound src b - frame_bound src a
  /\ py_len (zslice (agents src) (agent_bound src (frame_bound src a))
                    (agent_bound src (frame_bound src b)))
     = agent_bound src (frame_bound src b) - agent_bound src (frame_bound src a)
  /\ py_len (zslice (tl_faces src) (tl_face_bound src (frame_bound src a))
                    (tl_face_bound src (frame_bound src b)))
     = tl_face_bound src (frame_bound src b)
       - tl_face_bound src (frame_bound src a).
Proof.
  intros Hv Hab Hb.
  pose proof (frame_bound_mono src Hv a b).
  pose proof (frame_bound_range src Hv a).
  pose proof (frame_bound_range src Hv b).
  pose proof (agent_bound_mono src Hv (frame_bound src a) (frame_bound src b)).
  pose proof (agent_bound_range src Hv (frame_bound src a)).
  pose proof (agent_bound_range src Hv (frame_bound src b)).
  pose proof (tl_face_bound_mono src Hv (frame_bound src a) (frame_bound src b)).
  pose proof (tl_face_bound_range src Hv (frame_bound src a)).
  pose proof (tl_face_bound_range src Hv (frame_bound src b)).
  unfold zslice. rewrite !slice_length by lia. auto.
Qed.

Lemma zsplice_take_end_at {A} (l : list A) lo n block :
  0 <= lo -> lo <= py_len l -> n = lo + py_len block ->
  take (Z.to_nat n) (zsplice l lo block) = take (Z.to_nat lo) l ++ block.
Proof. intros ? ? ->. now apply zsplice_take_end. Qed.

Lemma dataset_lens_scene_range src a b :
  valid_dataset src -> 0 <= a <= b -> b <= py_len (scenes src) ->
  dataset_lens (scene_range src a b) = range_counts src a b.
Proof.
  intros Hv Hab Hb.
  destruct (range_block_lens src a b Hv Hab Hb) as (Ls & Lf & La & Lt).
  unfold dataset_lens, scene_range, range_counts.
  cbn [scenes frames agents tl_faces].
  rewrite !py_len_fmap, Ls, Lf, La, Lt. reflexivity.
Qed.

Lemma valid_scene_range src a b :
  valid_dataset src -> 0 <= a <= b -> b <= py_len (scenes src) ->
  valid_dataset (scene_range src a b).
Proof.
  intros Hv Hab Hb.
  pose proof (dataset_lens_scene_range src a b Hv Hab Hb) as Hlens.
  pose proof (frame_bound_mono src Hv a b).
  pose proof (frame_bound_range src Hv a).
  destruct Hv as (Hs & Ha & Ht).
  unfold valid_dataset.
  change (py_len (frames (scene_range src a b)))
    with (num_frames (dataset_lens (scene_range src a b))).
  change (py_len (agents (scene_range src a b)))
    with (num_agents (dataset_lens (scene_range src a b))).
  change (py_len (tl_faces (scene_range src a b)))
    with (num_tl_faces (dataset_lens (scene_range src a b))).
  rewrite Hlens.
  unfold scene_range, range_counts, zslice; cbn.
  rewrite fmap_frame_index_interval_shift, fmap_agent_index_interval_shift,
    fmap_tl_index_interval_shift.
  rewrite (fmap_take frame_index_interval), (fmap_drop frame_index_interval),
    (fmap_take agent_index_interval), (fmap_drop agent_index_interval),
    (fmap_take traffic_light_faces_index_interval),
    (fmap_drop traffic_light_faces_index_interval).
  repeat split.
  - replace 0 with (frame_bound src a + - frame_bound src a) at 1 by lia.
    replace (frame_bound src b - frame_bound src a)
      with (frame_bound src b + - frame_bound src a) by lia.
    apply chain_shift.
    replace (Z.to_nat (b - a)) with (Z.to_nat b - Z.to_nat a)%nat by lia.
    eapply chain_slice; eauto. lia.
  - set (fa := frame_bound src a) in *. set (fb := frame_bound src b) in *.
    replace 0 with (agent_bound src fa + - agent_bound src fa) at 1 by lia.
    replace (agent_bound src fb - agent_bound src fa)
      with (agent_bound src fb + - agent_bound src fa) by lia.
    apply chain_shift.
    replace (Z.to_nat (fb - fa)) with (Z.to_nat fb - Z.to_nat fa)%nat by lia.
    eapply chain_slice; eauto. lia.
  - set (fa := frame_bound src a) in *. set (fb := frame_bound src b) in *.
    replace 0 with (tl_face_bound src fa + - tl_face_bound src fa) at 1 by lia.
    replace (tl_face_bound src fb - tl_face_bound src fa)
      with (tl_face_bound src fb + - tl_face_bound src fa) by lia.
    apply chain_shift.
    replace (Z.to_nat (fb - fa)) with (Z.to_nat fb - Z.to_nat fa)%nat by lia.
    eapply chain_slice; eauto. lia.
Qed.

(** The whole range of a valid dataset is the dataset. *)
Lemma scene_range_all src :
  valid_dataset src -> scene_range src 0 (py_len (scenes src)) = src.
Proof.
  intros Hv. unfold scene_range.
  rewrite (frame_bound_len src Hv). rewrite (frame_bound_0 src).
  rewrite (agent_bound_len src Hv), (tl_face_bound_len src Hv).
  rewrite (agent_bound_0 src), (tl_face_bound_0 src).
  unfold zslice. rewrite !Z.sub_0_r. change (Z.to_nat 0) with 0%nat.
  rewrite !drop_0. unfold py_len. rewrite !Nat2Z.id, !firstn_all.
  change (- 0) with 0.
  rewrite (list_fmap_ext (shift_scene 0) id) by (intros; apply shift_scene_0).
  rewrite (list_fmap_ext (shift_frame 0 0) id) by (intros; apply shift_frame_0).
  rewrite !list_fmap_id. now destruct src.
Qed.

(** What the copier has written, once done: the part written before,
    followed by the range. *)
Lemma written_part_copied src a b cur out :
  valid_dataset src -> 0 <= a <= b -> b <= py_len (scenes src) ->
  num_els_le counter_zero cur ->
  num_els_le (num_els_add cur (range_counts src a b)) (dataset_lens out) ->
  written_part (copied src a b cur out)
               (num_els_add cur (range_counts src a b))
  = dataset_append (written_part out cur) (scene_range src a b).
Proof.
  intros Hv Hab Hb (Hs0 & Hf0 & Ha0 & Ht0) (Cs & Cf & Ca & Ct).
  destruct (range_block_lens src a b Hv Hab Hb) as (Ls & Lf & La & Lt).
  pose proof (range_counts_nonneg src a b Hv Hab) as (Ns & Nf & Na & Nt).
  cbn in Hs0, Hf0, Ha0, Ht0, Cs, Cf, Ca, Ct, Ns, Nf, Na, Nt.
  unfold written_part, copied, dataset_append, scene_range, range_counts.
  cbn [scenes frames agents tl_faces num_scenes num_frames num_agents
       num_tl_faces num_els_add].
  assert (py_len (take (Z.to_nat (num_frames cur)) (frames out))
          = num_frames cur) as ->
    by (unfold py_len in *; rewrite length_take; lia).
  assert (py_len (take (Z.to_nat (num_agents cur)) (agents out))
          = num_agents cur) as ->
    by (unfold py_len in *; rewrite length_take; lia).
  assert (py_len (take (Z.to_nat (num_tl_faces cur)) (tl_faces out))
          = num_tl_faces cur) as ->
    by (unfold py_len in *; rewrite length_take; lia).
  rewrite <- !list_fmap_compose.
  rewrite !zsplice_take_end_at by (rewrite ?py_len_fmap; lia).
  f_equal; f_equal.
  - apply list_fmap_ext. intros i s _. unfold compose.
    rewrite shift_scene_shift. f_equal. lia.
  - apply list_fmap_ext. intros i f _. unfold compose.
    rewrite shift_frame_shift. f_equal; lia.
Qed.

(** The copier does not change the lengths of the destination, nor the
    part written before. *)
Lemma dataset_lens_copied src a b cur out :
  valid_dataset src -> 0 <= a <= b -> b <= py_len (scenes src) ->
  num_els_le counter_zero cur ->
  num_els_le (num_els_add cur (range_counts src a b)) (dataset_lens out) ->
  dataset_lens (copied src a b cur out) = dataset_lens out.
Proof.
  intros Hv Hab Hb (Hs0 & Hf0 & Ha0 & Ht0) (Cs & Cf & Ca & Ct).
  destruct (range_block_lens src a b Hv Hab Hb) as (Ls & Lf & La & Lt).
  cbn in Hs0, Hf0, Ha0, Ht0, Cs, Cf, Ca, Ct.
  unfold dataset_lens, copied. cbn [scenes frames agents tl_faces].
  unfold py_len.
  rewrite !zsplice_length by (rewrite ?py_len_fmap; lia). reflexivity.
Qed.

Lemma written_part_copied_before src a b cur out :
  valid_dataset src -> 0 <= a <= b -> b <= py_len (scenes src) ->
  num_els_le counter_zero cur ->
  num_els_le (num_els_add cur (range_counts src a b)) (dataset_lens out) ->
  written_part (copied src a b cur out) cur = written_part out cur.
Proof.
  intros Hv Hab Hb (Hs0 & Hf0 & Ha0 & Ht0) (Cs & Cf & Ca & Ct).
  pose proof (range_counts_nonneg src a b Hv Hab) as (Ns & Nf & Na & Nt).
  cbn in Hs0, Hf0, Ha0, Ht0, Cs, Cf, Ca, Ct, Ns, Nf, Na, Nt.
  unfold written_part, copied; cbn.
  rewrite !zsplice_take by lia. reflexivity.
Qed.

End Copier.

(** ** The range accountant *)

Section Accountant.
Context {Agent TlFace : Type}.
Local Abbreviation Dataset := (ChunkedDataset Agent TlFace).
Implicit Types d src out : Dataset.

(** On a valid dataset the counts of the accountant are the numbers of
    elements the range holds, provided the range holds a frame. *)
Lemma num_els_in_range_inv d a b n :
  valid_dataset d -> 0 <= a < b -> b <= py_len (scenes d) ->
  frame_bound d a < frame_bound d b ->
  _get_num_els_in_scene_range d a b = Ok n -> n = range_counts d a b.
Proof.
  intros Hv Hab Hb Hfr Hn.
  rewrite (num_els_in_range d Hv a b Hab Hb Hfr) in Hn. congruence.
Qed.

Lemma frame_bound_lt_of_has_frames d a b :
  valid_dataset d -> 0 <= a < b -> b <= py_len (scenes d) ->
  Forall has_frames (py_slice (scenes d) a b) ->
  frame_bound d a < frame_bound d b.
Proof.
  intros Hv Hab Hb Hall.
  pose proof (has_frames_in_range d a b Hv ltac:(lia) Hb Hall a ltac:(lia)).
  pose proof (frame_bound_mono d Hv (a + 1) b ltac:(lia)). lia.
Qed.

(** C3 (as amended).  For every dataset satisfying the invariants of
    section 3 and every range [0 <= scene_start < scene_end <=
    len(scenes)] that holds at least one frame (the frame interval of the
    first scene of the range starts before the frame interval of its last
    scene ends), the two boundary frames exist and
    [_get_num_els_in_scene_range] returns [num_scenes = scene_end -
    scene_start], [num_frames] = (end of the frame interval of scene
    [scene_end - 1]) - (start of the frame interval of scene
    [scene_start]), and [num_agents], [num_tl_faces] = (end of the
    interval of the frame at the end-of-range frame index - 1) - (start
    of the interval of the frame at the start-of-range frame index): the
    result is a function of the four boundary records. *)
Theorem range_accountant_boundary_records d a b (sa sb : Scene) :
  valid_dataset d ->
  0 <= a < b ->
  scenes d !! Z.to_nat a = Some sa ->
  scenes d !! Z.to_nat (b - 1) = Some sb ->
  (frame_index_interval sa).1 < (frame_index_interval sb).2 ->
  exists fa fb : Frame,
    frames d !! Z.to_nat (frame_index_interval sa).1 = Some fa
    /\ frames d !! Z.to_nat ((frame_index_interval sb).2 - 1) = Some fb
    /\ _get_num_els_in_scene_range d a b
       = Ok {| num_scenes := b - a;
               num_frames := (frame_index_interval sb).2
                             - (frame_index_interval sa).1;
               num_agents := (agent_index_interval fb).2
                             - (agent_index_interval fa).1;
               num_tl_faces :=
                 (traffic_light_faces_index_interval fb).2
                 - (traffic_light_faces_index_interval fa).1 |}.
Proof.
  intros Hv Hab Hsa Hsb Hfr.
  pose proof (lookup_lt_Some _ _ _ Hsb) as Hlt.
  assert (Hb : b <= py_len (scenes d)) by (unfold py_len; lia).
  destruct (scene_at d Hv a) as (sa' & Hsa' & Hia); [lia |].
  destruct (scene_at d Hv (b - 1)) as (sb' & Hsb' & Hib); [lia |].
  replace (b - 1 + 1) with b in Hib by lia.
  assert (sa' = sa) as -> by congruence.
  assert (sb' = sb) as -> by congruence.
  rewrite Hia, Hib in *. cbn [fst snd] in *.
  pose proof (frame_bound_range d Hv a).
  pose proof (frame_bound_range d Hv b).
  destruct (frame_at d Hv (frame_bound d a)) as (fa & Hfa & Haa & Hta); [lia |].
  destruct (frame_at d Hv (frame_bound d b - 1)) as (fb & Hfb & Hab' & Htb);
    [lia |].
  replace (frame_bound d b - 1 + 1) with (frame_bound d b) in Hab', Htb by lia.
  exists fa, fb. repeat split; auto.
  rewrite (num_els_in_range d Hv a b) by lia.
  unfold range_counts. rewrite Haa, Hab', Hta, Htb. reflexivity.
Qed.

End Accountant.

Lemma range_accountant_boundary_records_witness :
  exists fa fb : Frame,
    frames ds_small !! Z.to_nat 0 = Some fa
    /\ frames ds_small !! Z.to_nat (3 - 1) = Some fb
    /\ _get_num_els_in_scene_range ds_small 0 2
       = Ok {| num_scenes := 2 - 0; num_frames := 3 - 0;
               num_agents := (agent_index_interval fb).2
                             - (agent_index_interval fa).1;
               num_tl_faces :=
                 (traffic_light_faces_index_interval fb).2
                 - (traffic_light_faces_index_interval fa).1 |}.
Proof.
  apply (range_accountant_boundary_records ds_small 0 2
           (ex_scene 0 2) (ex_scene 2 3)).
  - vm_compute; intuition congruence.
  - lia.
  - reflexivity.
  - reflexivity.
  - simpl; lia.
Defined.

(** C3 fails as stated: a dataset whose only scene references no frame
    satisfies the invariants, the range [0, 1) is within its scenes, and
    the accountant raises instead of returning counts. *)
Lemma range_accountant_no_frames_raises :
  valid_dataset ds_no_frames
  /\ 0 <= 0 < 1 /\ 1 <= py_len (scenes ds_no_frames)
  /\ _get_num_els_in_scene_range ds_no_frames 0 1 = Err IndexError.
Proof.
  split; [vm_compute; intuition congruence |].
  split; [lia |]. split; [vm_compute; congruence | reflexivity].
Qed.

(** ** The subset copier: agreement with the accountant, invariants *)

Section CopierClaims.
Context {Agent TlFace : Type}.
Local Abbreviation Dataset := (ChunkedDataset Agent TlFace).
Implicit Types d src out : Dataset.

(** C10 (as amended).  For every source dataset satisfying the
    invariants of section 3 and every range [0 <= scene_start < scene_end
    <= len(scenes)] in which every scene has at least one frame, the
    accountant returns counts [n], and for every destination and write
    cursors that leave room for [n] the copy loop of [_append_zarr_subset]
    runs to its end with each write cursor advanced by exactly the
    corresponding count of [n]: a destination pre-allocated from the
    accountant's counts is enough. *)
Theorem copier_advances_by_accountant_counts src a b :
  valid_dataset src ->
  0 <= a < b -> b <= py_len (scenes src) ->
  Forall has_frames (py_slice (scenes src) a b) ->
  exists n,
    _get_num_els_in_scene_range src a b = Ok n
    /\ forall cur out,
         num_els_le counter_zero cur ->
         num_els_le (num_els_add cur n) (dataset_lens out) ->
         exists out',
           append_zarr_subset_cursors src a b (Some cur) out
           = (out', Ok (num_els_add cur n)).
Proof.
  intros Hv Hab Hb Hall.
  pose proof (frame_bound_lt_of_has_frames src a b Hv Hab Hb Hall) as Hfr.
  exists (range_counts src a b). split.
  - now apply num_els_in_range.
  - intros cur out Hcur Hfit. eexists.
    apply append_cursors_valid; auto.
    apply has_frames_in_range; auto. lia.
Qed.

(** C2 (as amended).  For every source dataset satisfying the invariants
    of section 3, every range [0 <= scene_start < scene_end <=
    len(scenes)] in which every scene has at least one frame, and every
    destination whose contents up to the write offsets satisfy the
    invariants and which has room after the offsets for the counts [n] of
    the range, [_append_zarr_subset] returns, the lengths of the
    destination are unchanged, what was written before is untouched, and
    the contents of the destination up to the advanced offsets satisfy
    the invariants of section 3 again; when the room was exact, the whole
    destination does. *)
Theorem copier_preserves_invariants src a b cur out n :
  valid_dataset src ->
  0 <= a < b -> b <= py_len (scenes src) ->
  Forall has_frames (py_slice (scenes src) a b) ->
  _get_num_els_in_scene_range src a b = Ok n ->
  num_els_le counter_zero cur ->
  valid_dataset (written_part out cur) ->
  num_els_le (num_els_add cur n) (dataset_lens out) ->
  exists out',
    _append_zarr_subset src a b (Some cur) out = (out', Ok tt)
    /\ dataset_lens out' = dataset_lens out
    /\ written_part out' cur = written_part out cur
    /\ valid_dataset (written_part out' (num_els_add cur n))
    /\ (num_els_add cur n = dataset_lens out -> valid_dataset out').
Proof.
  intros Hv Hab Hb Hall Hn Hcur Hprior Hfit.
  pose proof (frame_bound_lt_of_has_frames src a b Hv Hab Hb Hall) as Hfr.
  apply (num_els_in_range_inv src a b n Hv Hab Hb Hfr) in Hn. subst n.
  assert (Hab' : 0 <= a <= b) by lia.
  exists (copied src a b cur out).
  assert (Hw : valid_dataset
            (written_part (copied src a b cur out)
               (num_els_add cur (range_counts src a b)))).
  { rewrite written_part_copied by auto.
    apply valid_dataset_append; auto. now apply valid_scene_range. }
  pose proof (dataset_lens_copied src a b cur out Hv Hab' Hb Hcur Hfit) as Hl.
  split; [| split; [| split; [| split]]].
  - apply append_zarr_subset_valid; auto.
    apply has_frames_in_range; auto.
  - exact Hl.
  - now apply written_part_copied_before.
  - exact Hw.
  - intros Heq. rewrite Heq, <- Hl in Hw.
    unfold written_part, dataset_lens, py_len in Hw.
    cbn [num_scenes num_frames num_agents num_tl_faces] in Hw.
    rewrite !Nat2Z.id, !firstn_all in Hw.
    now destruct (copied src a b cur out).
Qed.

End CopierClaims.

Lemma copier_advances_by_accountant_counts_witness :
  exists n,
    _get_num_els_in_scene_range ds_small 0 2 = Ok n
    /\ forall cur out,
         num_els_le counter_zero cur ->
         num_els_le (num_els_add cur n) (dataset_lens out) ->
         exists out',
           append_zarr_subset_cursors ds_small 0 2 (Some cur) out
           = (out', Ok (num_els_add cur n)).
Proof.
  apply (copier_advances_by_accountant_counts ds_small 0 2).
  - vm_compute; intuition congruence.
  - lia.
  - vm_compute; congruence.
  - vm_compute. repeat constructor.
Defined.

Lemma copier_preserves_invariants_witness :
  exists out',
    _append_zarr_subset ds_small 0 2 (Some counter_zero)
      (blank_dataset ex_blank_scene ex_blank_frame 0%nat 0%nat ex_counts_small)
    = (out', Ok tt)
    /\ dataset_lens out'
       = dataset_lens
           (blank_dataset ex_blank_scene ex_blank_frame 0%nat 0%nat
              ex_counts_small)
    /\ written_part out' counter_zero
       = written_part
           (blank_dataset ex_blank_scene ex_blank_frame 0%nat 0%nat
              ex_counts_small) counter_zero
    /\ valid_dataset
         (written_part out' (num_els_add counter_zero ex_counts_small))
    /\ (num_els_add counter_zero ex_counts_small
        = dataset_lens
            (blank_dataset ex_blank_scene ex_blank_frame 0%nat 0%nat
               ex_counts_small)
        -> valid_dataset out').
Proof.
  apply (copier_preserves_invariants ds_small 0 2).
  - vm_compute; intuition congruence.
  - lia.
  - vm_compute; congruence.
  - vm_compute. repeat constructor.
  - reflexivity.
  - vm_compute; intuition congruence.
  - vm_compute; intuition congruence.
  - vm_compute; intuition congruence.
Defined.

(** C10 fails as stated: the dataset satisfies the invariants and the
    range [0, 2) is valid; the accountant returns counts, but the copy
    loop, run on a fresh destination pre-allocated with exactly these
    counts, raises at the scene that has no frame. *)
Lemma copier_raises_where_accountant_counts :
  valid_dataset ds_idle_scene
  /\ 0 <= 0 < 2 /\ 2 <= py_len (scenes ds_idle_scene)
  /\ exists n,
       _get_num_els_in_scene_range ds_idle_scene 0 2 = Ok n
       /\ (append_zarr_subset_cursors ds_idle_scene 0 2 None
             (blank_dataset ex_blank_scene ex_blank_frame 0%nat 0%nat n)).2
          = Err IndexError.
Proof.
  split; [vm_compute; intuition congruence |].
  split; [lia |]. split; [vm_compute; congruence |].
  eexists. split; reflexivity.
Qed.

(** C2 fails as stated: source satisfying the invariants, valid range,
    fresh destination (nothing written before, offsets zero)
    pre-allocated with the counts of the range; [_append_zarr_subset]
    raises at the scene that has no frame. *)
Lemma copier_raises_on_idle_scene :
  let n := {| num_scenes := 2; num_frames := 1; num_agents := 1;
              num_tl_faces := 0 |} in
  let out := blank_dataset ex_blank_scene ex_blank_frame 0%nat 0%nat n in
  valid_dataset ds_idle_scene
  /\ 0 <= 0 < 2 /\ 2 <= py_len (scenes ds_idle_scene)
  /\ _get_num_els_in_scene_range ds_idle_scene 0 2 = Ok n
  /\ valid_dataset (written_part out counter_zero)
  /\ num_els_le (num_els_add counter_zero n) (dataset_lens out)
  /\ (_append_zarr_subset ds_idle_scene 0 2 (Some counter_zero) out).2
     = Err IndexError.
Proof.
  cbv zeta.
  split; [vm_compute; intuition congruence |].
  split; [lia |]. split; [vm_compute; congruence |].
  split; [reflexivity |].
  split; [vm_compute; intuition congruence |].
  split; [vm_compute; intuition congruence | reflexivity].
Qed.

(** ** Overrunning the destination *)

Lemma for_each_app {St A B} (body : A -> B -> M St A) acc l1 l2 s :
  for_each body acc (l1 ++ l2) s
  = (for_each body acc l1 ≫= fun acc' => for_each body acc' l2) s.
Proof.
  revert acc s; induction l1 as [|x l1 IH]; intros acc s; simpl.
  - reflexivity.
  - unfold mbind, M_bind in *. destruct (body acc x s) as [s' [a|e]]; auto.
Qed.

Section OverrunProps.
Context {Agent TlFace : Type}.
Local Abbreviation Dataset := (ChunkedDataset Agent TlFace).
Implicit Types input out : Dataset.

Lemma write_slice_past_end {A} (l : list A) lo block :
  past_end l lo block ->
  write_slice l lo (lo + py_len block) block = Err OutOfBoundsError.
Proof. intros (Hne & Hover). now apply write_slice_overrun. Qed.

(** One turn of the loop never changes the lengths of the destination. *)
Lemma copy_scene_lens input off_f off_a off_t cur k out out' r :
  copy_scene input off_f off_a off_t cur k out = (out', r) ->
  dataset_lens out' = dataset_lens out.
Proof.
  unfold copy_scene.
  destruct (read_scene_blocks input k) as [[[[ss fs] ags] ts]|e];
    [rewrite M_bind_lift_ok | rewrite M_bind_lift_err; congruence].
  unfold write_scenes, write_frames, write_agents, write_tl_faces,
    mbind, M_bind, mret, M_ret.
  destruct (write_slice (scenes out) _ _ _) as [l1|] eqn:E1;
    [| congruence].
  cbn [scenes frames agents tl_faces].
  destruct (write_slice (frames out) _ _ _) as [l2|] eqn:E2;
    cbn [scenes frames agents tl_faces].
  2: { intros [= <- <-]. unfold dataset_lens, py_len; cbn.
       now rewrite (write_slice_length _ _ _ _ _ E1). }
  destruct (write_slice (agents out) _ _ _) as [l3|] eqn:E3;
    cbn [scenes frames agents tl_faces].
  2: { intros [= <- <-]. unfold dataset_lens, py_len; cbn.
       now rewrite (write_slice_length _ _ _ _ _ E1),
         (write_slice_length _ _ _ _ _ E2). }
  destruct (write_slice (tl_faces out) _ _ _) as [l4|] eqn:E4;
    cbn [scenes frames agents tl_faces].
  2: { intros [= <- <-]. unfold dataset_lens, py_len; cbn.
       now rewrite (write_slice_length _ _ _ _ _ E1),
         (write_slice_length _ _ _ _ _ E2), (write_slice_length _ _ _ _ _ E3). }
  intros [= <- <-]. unfold dataset_lens, py_len; cbn.
  now rewrite (write_slice_length _ _ _ _ _ E1),
    (write_slice_length _ _ _ _ _ E2), (write_slice_length _ _ _ _ _ E3),
    (write_slice_length _ _ _ _ _ E4).
Qed.

Lemma copy_loop_lens input off_f off_a off_t l : forall cur out out' r,
  for_each (copy_scene input off_f off_a off_t) cur l out = (out', r) ->
  dataset_lens out' = dataset_lens out.
Proof.
  induction l as [|k l IH]; intros cur out out' r; simpl.
  - now intros [= <- <-].
  - unfold mbind, M_bind.
    destruct (copy_scene input off_f off_a off_t cur k out)
      as [out1 [cur1|e]] eqn:E.
    + intros H. apply IH in H. rewrite H. eapply copy_scene_lens; eauto.
    + intros [= <- <-]. eapply copy_scene_lens; eauto.
Qed.

(** A turn of the loop whose blocks overrun the destination raises
    [OutOfBoundsError]. *)
Lemma copy_scene_overrun input off_f off_a off_t cur k out blocks :
  read_scene_blocks input k = Ok blocks ->
  overruns out cur blocks ->
  exists out',
    copy_scene input off_f off_a off_t cur k out
    = (out', Err OutOfBoundsError).
Proof.
  intros Hread Hover. destruct blocks as [[[ss fs] ags] ts].
  unfold copy_scene. rewrite Hread, M_bind_lift_ok.
  unfold write_scenes, write_frames, write_agents, write_tl_faces,
    mbind, M_bind, mret, M_ret.
  destruct (write_slice (scenes out) _ _ _) as [l1|e1] eqn:E1.
  2: { apply write_slice_err in E1 as ->. eauto. }
  cbn [scenes frames agents tl_faces].
  destruct (write_slice (frames out) _ _ _) as [l2|e2] eqn:E2.
  2: { apply write_slice_err in E2 as ->. eauto. }
  cbn [scenes frames agents tl_faces].
  destruct (write_slice (agents out) _ _ _) as [l3|e3] eqn:E3.
  2: { apply write_slice_err in E3 as ->. eauto. }
  cbn [scenes frames agents tl_faces].
  destruct (write_slice (tl_faces out) _ _ _) as [l4|e4] eqn:E4.
  2: { apply write_slice_err in E4 as ->. eauto. }
  exfalso. destruct Hover as [H | [H | [H | H]]].
  - assert (past_end (scenes out) (num_scenes cur)
              (shift_scene off_f <$> ss)) as H'
      by (destruct H; split; [now destruct ss | now rewrite py_len_fmap]).
    apply write_slice_past_end in H'. congruence.
  - assert (past_end (frames out) (num_frames cur)
              (shift_frame off_a off_t <$> fs)) as H'
      by (destruct H; split; [now destruct fs | now rewrite py_len_fmap]).
    apply write_slice_past_end in H'. congruence.
  - apply write_slice_past_end in H. congruence.
  - apply write_slice_past_end in H. congruence.
Qed.

(** C6.  For every call of [_append_zarr_subset] that, having copied the
    scenes before scene [k], reads the blocks of scene [k] and finds that
    at one of the four levels the block would be written past the
    pre-allocated length of the destination, the call fails with
    [OutOfBoundsError]; the lengths of the destination are what they
    were: nothing was appended, nothing truncated. *)
Theorem overrun_fails_with_out_of_bounds input a b offs out k out_k cur_k
  blocks :
  copy_reaches input a b offs out k out_k cur_k ->
  read_scene_blocks input k = Ok blocks ->
  overruns out_k cur_k blocks ->
  exists out',
    _append_zarr_subset input a b offs out = (out', Err OutOfBoundsError)
    /\ dataset_lens out' = dataset_lens out.
Proof.
  intros (pre & post & scene & frame & Hrange & Hscene & Hframe & Hpre)
    Hread Hover.
  destruct (copy_scene_overrun input
              (num_frames (match offs with None => counter_zero | Some c => c end)
               - (frame_index_interval scene).1)
              (num_agents (match offs with None => counter_zero | Some c => c end)
               - (agent_index_interval frame).1)
              (num_tl_faces (match offs with None => counter_zero | Some c => c end)
               - (traffic_light_faces_index_interval frame).1)
              cur_k k out_k blocks Hread Hover) as (out' & Hk).
  exists out'. split.
  - unfold _append_zarr_subset, append_zarr_subset_cursors.
    erewrite M_bind_err; [reflexivity |].
    rewrite Hscene, M_bind_lift_ok. cbv zeta.
    rewrite Hframe, M_bind_lift_ok, Hrange, for_each_app.
    erewrite M_bind_ok by exact Hpre.
    cbn [for_each]. erewrite M_bind_err by exact Hk. reflexivity.
  - apply copy_scene_lens in Hk. apply copy_loop_lens in Hpre. congruence.
Qed.

End OverrunProps.

(** An instance: a destination with room for one frame only, and a first
    scene of two frames. *)
Lemma overrun_fails_with_out_of_bounds_witness :
  exists out',
    _append_zarr_subset ds_small 0 2 None
      (blank_dataset ex_blank_scene ex_blank_frame 0%nat 0%nat
         {| num_scenes := 2; num_frames := 1; num_agents := 3;
            num_tl_faces := 2 |})
    = (out', Err OutOfBoundsError)
    /\ dataset_lens out'
       = dataset_lens
           (blank_dataset ex_blank_scene ex_blank_frame 0%nat 0%nat
              {| num_scenes := 2; num_frames := 1; num_agents := 3;
                 num_tl_faces := 2 |}).
Proof.
  eapply (overrun_fails_with_out_of_bounds ds_small 0 2 None _ 0 _
            counter_zero).
  - exists [], [1], (ex_scene 0 2), (ex_frame 1 0 1 0 0).
    repeat split; reflexivity.
  - reflexivity.
  - right; left. split; [discriminate | vm_compute; reflexivity].
Defined.

(** ** Counts and appended datasets *)

Lemma counter_iadd_nonneg c d :
  num_els_le counter_zero c -> num_els_le counter_zero d ->
  counter_iadd c d = num_els_add c d.
Proof.
  intros (? & ? & ? & ?) (? & ? & ? & ?). cbn in *.
  unfold counter_iadd, num_els_add, keep_positive.
  f_equal; case_bool_decide; lia.
Qed.

Section AppendProps.
Context {Agent TlFace : Type}.
Local Abbreviation Dataset := (ChunkedDataset Agent TlFace).
Implicit Types d a b acc : Dataset.

Lemma dataset_lens_nonneg d : num_els_le counter_zero (dataset_lens d).
Proof. unfold num_els_le, dataset_lens, py_len; cbn; lia. Qed.

Lemma dataset_lens_append a b :
  dataset_lens (dataset_append a b)
  = num_els_add (dataset_lens a) (dataset_lens b).
Proof.
  unfold dataset_lens, dataset_append, num_els_add; cbn.
  now rewrite !py_len_app, !py_len_fmap.
Qed.

Lemma written_part_all d : written_part d (dataset_lens d) = d.
Proof.
  unfold written_part, dataset_lens, py_len; cbn.
  rewrite !Nat2Z.id, !firstn_all. now destruct d.
Qed.

Lemma dataset_concat_snoc ds d :
  dataset_concat (ds ++ [d]) = dataset_append (dataset_concat ds) d.
Proof. unfold dataset_concat. now rewrite foldl_snoc. Qed.

Lemma foldl_append_valid ds : forall acc,
  valid_dataset acc -> Forall valid_dataset ds ->
  valid_dataset (foldl dataset_append acc ds).
Proof.
  induction ds as [|d ds IH]; intros acc Hacc Hds; simpl; auto.
  inversion Hds; subst. apply IH; auto. now apply valid_dataset_append.
Qed.

Lemma foldl_counter_iadd_lens ds : forall acc,
  foldl counter_iadd (dataset_lens acc) (dataset_lens <$> ds)
  = dataset_lens (foldl dataset_append acc ds).
Proof.
  induction ds as [|d ds IH]; intros acc; simpl; auto.
  rewrite counter_iadd_nonneg by apply dataset_lens_nonneg.
  rewrite <- dataset_lens_append. apply IH.
Qed.

Lemma foldl_num_els_add_lens ds : forall acc,
  foldl num_els_add (dataset_lens acc) (dataset_lens <$> ds)
  = dataset_lens (foldl dataset_append acc ds).
Proof.
  induction ds as [|d ds IH]; intros acc; simpl; auto.
  rewrite <- dataset_lens_append. apply IH.
Qed.

Lemma foldl_append_lens_le ds : forall acc,
  num_els_le (dataset_lens acc) (dataset_lens (foldl dataset_append acc ds)).
Proof.
  induction ds as [|d ds IH]; intros acc; simpl.
  - unfold num_els_le; lia.
  - specialize (IH (dataset_append acc d)).
    rewrite dataset_lens_append in IH.
    destruct IH as (? & ? & ? & ?).
    destruct (dataset_lens_nonneg d) as (? & ? & ? & ?).
    unfold num_els_le in *; cbn in *; lia.
Qed.

(** On a valid, populated dataset the accountant, run over all scenes,
    returns the four lengths. *)
Lemma range_counts_all d :
  valid_dataset d -> range_counts d 0 (py_len (scenes d)) = dataset_lens d.
Proof.
  intros Hv. unfold range_counts, dataset_lens.
  rewrite (frame_bound_len d Hv), (frame_bound_0 d).
  rewrite (agent_bound_len d Hv), (tl_face_bound_len d Hv).
  rewrite (agent_bound_0 d), (tl_face_bound_0 d).
  f_equal; lia.
Qed.

Lemma populated_len d : populated d -> 0 < py_len (scenes d).
Proof.
  intros (Hne & _). destruct (scenes d); [congruence |].
  unfold py_len; simpl; lia.
Qed.

Lemma populated_has_frames d :
  valid_dataset d -> populated d ->
  forall i, 0 <= i < py_len (scenes d) ->
            frame_bound d i < frame_bound d (i + 1).
Proof.
  intros Hv (Hne & Hall) i Hi.
  apply (has_frames_in_range d 0 (py_len (scenes d))); auto; try lia.
  rewrite py_slice_take_drop by lia.
  rewrite Z.sub_0_r. change (Z.to_nat 0) with 0%nat. rewrite drop_0.
  unfold py_len. rewrite Nat2Z.id, firstn_all. exact Hall.
Qed.

Lemma num_els_all d :
  valid_dataset d -> populated d ->
  _get_num_els_in_scene_range d 0 (py_len (scenes d)) = Ok (dataset_lens d).
Proof.
  intros Hv Hp. pose proof (populated_len d Hp) as Hlen.
  rewrite (num_els_in_range d Hv) by
    (try lia;
     pose proof (populated_has_frames d Hv Hp 0 ltac:(lia));
     pose proof (frame_bound_mono d Hv (0 + 1) (py_len (scenes d)) ltac:(lia));
     lia).
  now rewrite range_counts_all.
Qed.

(** Copying all of a valid, populated dataset behind what is written. *)
Lemma append_all_valid d acc out :
  valid_dataset d -> populated d ->
  written_part out (dataset_lens acc) = acc ->
  num_els_le (dataset_lens (dataset_append acc d)) (dataset_lens out) ->
  exists out',
    _append_zarr_subset d 0 (py_len (scenes d)) (Some (dataset_lens acc)) out
    = (out', Ok tt)
    /\ dataset_lens out' = dataset_lens out
    /\ written_part out' (dataset_lens (dataset_append acc d))
       = dataset_append acc d.
Proof.
  intros Hv Hp Hacc Hfit. pose proof (populated_len d Hp) as Hlen.
  rewrite dataset_lens_append in *.
  rewrite <- (range_counts_all d Hv) in *.
  exists (copied d 0 (py_len (scenes d)) (dataset_lens acc) out).
  split; [| split].
  - apply append_zarr_subset_valid; auto; try lia.
    + intros i Hi. apply populated_has_frames; auto.
    + apply dataset_lens_nonneg.
  - apply dataset_lens_copied; auto; try lia. apply dataset_lens_nonneg.
  - rewrite written_part_copied; auto; try lia.
    + now rewrite Hacc, scene_range_all.
    + apply dataset_lens_nonneg.
Qed.

End AppendProps.


(** ** [zarr_concat] *)

Section ConcatProps.
Context {Agent TlFace : Type}.
Context (blank_scene : Scene) (blank_frame : Frame)
        (blank_agent : Agent) (blank_tl_face : TlFace).
Local Abbreviation Dataset := (ChunkedDataset Agent TlFace).
Local Abbreviation Store := (gmap string (Entry Agent TlFace)).
Local Abbreviation blank :=
  (blank_dataset blank_scene blank_frame blank_agent blank_tl_face).
Local Abbreviation concat :=
  (zarr_concat blank_scene blank_frame blank_agent blank_tl_face).
Implicit Types (fs : Store) (d acc : Dataset) (out : string).
Implicit Types (w : World Agent TlFace) (log : list string).

Lemma on_disk_eq {A} (m : M Store A) fs log fs' r :
  m fs = (fs', r) ->
  on_disk m {| disk := fs; stdout := log |}
  = ({| disk := fs'; stdout := log |}, r).
Proof. intros H. unfold on_disk. cbn [disk stdout]. now rewrite H. Qed.

(** A loop whose body acts on the disk only is a loop on the disk. *)
Lemma for_each_on_disk {A B} (body : A -> B -> M Store A) l :
  forall a fs log,
    for_each (fun a x => on_disk (body a x)) a l
             {| disk := fs; stdout := log |}
    = on_disk (for_each body a l) {| disk := fs; stdout := log |}.
Proof.
  induction l as [|x l IH]; intros a fs log; [reflexivity |].
  cbn [for_each]. unfold mbind at 1 2, M_bind, on_disk at 1 3.
  cbn [disk stdout].
  destruct (body a x fs) as [fs' [a'|e]]; [| reflexivity].
  rewrite IH. reflexivity.
Qed.

Lemma skipped_cons fs p paths :
  skipped fs (p :: paths)
  = match fs !! p with
    | Some (Stored d) => skipped fs paths
    | _ => p :: skipped fs paths
    end.
Proof. unfold skipped; simpl. now destruct (fs !! p) as [[|]|]. Qed.

Lemma surviving_cons fs p paths :
  surviving fs (p :: paths)
  = match fs !! p with
    | Some (Stored d) => (p, d) :: surviving fs paths
    | _ => surviving fs paths
    end.
Proof. unfold surviving; simpl. now destruct (fs !! p) as [[|]|]. Qed.

Lemma elem_of_surviving fs paths p d :
  (p, d) ∈ surviving fs paths -> p ∈ paths /\ fs !! p = Some (Stored d).
Proof.
  unfold surviving. rewrite list_elem_of_omap.
  intros (q & Hq & Hm). destruct (fs !! q) as [[d'|]|] eqn:E; try discriminate.
  injection Hm as <- <-. auto.
Qed.

Lemma surviving_idemp fs paths :
  surviving fs (surviving fs paths).*1 = surviving fs paths.
Proof.
  induction paths as [|p paths IH]; [reflexivity |].
  rewrite surviving_cons. destruct (fs !! p) as [[d|]|] eqn:E; auto.
  rewrite fmap_cons. cbn [fst]. rewrite surviving_cons, E. now f_equal.
Qed.

Lemma dataset_lens_blank c :
  num_els_le counter_zero c -> dataset_lens (blank c) = c.
Proof.
  intros (? & ? & ? & ?). cbn in *. unfold dataset_lens, blank_dataset, py_len.
  cbn. rewrite !length_replicate. destruct c; cbn in *. f_equal; lia.
Qed.

(** The first loop collects the counts and the paths of the sources that
    open, in order, prints a line for each of the others, and leaves the
    disk alone. *)
Lemma scan_inputs_spec fs inputs :
  forall (lists : list NumEls * list string) log,
  (forall p d, (p, d) ∈ surviving fs inputs ->
               valid_dataset d /\ populated d) ->
  for_each scan_input lists inputs {| disk := fs; stdout := log |}
  = ({| disk := fs;
        stdout := log ++ (not_valid_line <$> skipped fs inputs) |},
     Ok (lists.1 ++ (dataset_lens <$> (surviving fs inputs).*2),
         lists.2 ++ (surviving fs inputs).*1)).
Proof.
  induction inputs as [|p inputs IH]; intros lists log Hgood.
  - simpl. rewrite !app_nil_r. now destruct lists.
  - cbn [for_each]. rewrite surviving_cons in *. rewrite skipped_cons.
    unfold mbind at 1, M_bind at 1. unfold scan_input at 1.
    unfold on_disk, open_dataset. cbn [disk stdout].
    destruct (fs !! p) as [[d|]|] eqn:E.
    + destruct (Hgood p d) as (Hv & Hp); [apply list_elem_of_here |].
      rewrite num_els_all by assumption.
      rewrite M_bind_lift_ok. cbn [mret M_ret].
      rewrite IH
        by (intros q e Hq; apply (Hgood q e); now apply list_elem_of_further).
      cbn [fst snd]. rewrite !fmap_cons, <- !app_assoc. reflexivity.
    + unfold print, mbind, M_bind, mret, M_ret. cbn [disk stdout].
      rewrite IH by assumption.
      rewrite fmap_cons, <- app_assoc. reflexivity.
    + unfold print, mbind, M_bind, mret, M_ret. cbn [disk stdout].
      rewrite IH by assumption.
      rewrite fmap_cons, <- app_assoc. reflexivity.
Qed.

(** The second loop: each source that opens is copied behind the ones
    before it. *)
Lemma concat_loop_spec out fs counts :
  fs !! out = None ->
  forall (rest : list (string * Dataset)) (i : Z) acc X,
    0 <= i ->
    (forall p d, (p, d) ∈ rest ->
       fs !! p = Some (Stored d) /\ valid_dataset d /\ populated d) ->
    (forall (j : nat) d, rest.*2 !! j = Some d ->
       counts !! (Z.to_nat i + j)%nat = Some (dataset_lens d)) ->
    written_part X (dataset_lens acc) = acc ->
    num_els_le (dataset_lens (foldl dataset_append acc rest.*2))
               (dataset_lens X) ->
    exists X',
      for_each (concat_step out counts) (dataset_lens acc)
               (zip (seqZ i (py_len rest)) rest.*1)
               (<[out := Stored X]> fs)
      = (<[out := Stored X']> fs,
         Ok (dataset_lens (foldl dataset_append acc rest.*2)))
      /\ dataset_lens X' = dataset_lens X
      /\ written_part X' (dataset_lens (foldl dataset_append acc rest.*2))
         = foldl dataset_append acc rest.*2.
Proof.
  intros Hout rest. induction rest as [|[p d] rest IH];
    intros i acc X Hi Hgood Hcounts Hacc Hfit.
  - exists X. cbn. auto.
  - destruct (Hgood p d) as (Hp & Hv & Hpop); [apply list_elem_of_here |].
    assert (Hne : p <> out) by (intros ->; congruence).
    change (((p, d) :: rest).*2) with (d :: rest.*2) in *.
    change (((p, d) :: rest).*1) with (p :: rest.*1).
    cbn [foldl] in *.
    assert (Hfit1 : num_els_le (dataset_lens (dataset_append acc d))
                               (dataset_lens X)).
    { pose proof (foldl_append_lens_le rest.*2 (dataset_append acc d))
        as (? & ? & ? & ?).
      destruct Hfit as (? & ? & ? & ?). unfold num_els_le; lia. }
    destruct (append_all_valid d acc X Hv Hpop Hacc Hfit1)
      as (X1 & Hcopy & Hlens1 & Hw1).
    destruct (IH (i + 1) (dataset_append acc d) X1) as (X' & Hloop & Hl & Hw);
      auto; try lia.
    { intros q e Hq. apply (Hgood q e). now apply list_elem_of_further. }
    { intros j e Hj. replace (Z.to_nat (i + 1) + j)%nat
        with (Z.to_nat i + S j)%nat by lia. now apply Hcounts. }
    { now rewrite Hlens1. }
    exists X'. split; [| split; [congruence | exact Hw]].
    replace (py_len ((p, d) :: rest)) with (Z.succ (py_len rest) )
      by (unfold py_len; simpl; lia).
    rewrite seqZ_cons by (unfold py_len; lia).
    replace (Z.pred (Z.succ (py_len rest))) with (py_len rest) by lia.
    replace (Z.succ i) with (i + 1) by lia.
    cbn [zip zip_with for_each].
    erewrite M_bind_ok; [exact Hloop |].
    unfold concat_step.
    erewrite M_bind_ok; cycle 1.
    { unfold open_dataset. rewrite lookup_insert_ne by congruence.
      now rewrite Hp. }
    erewrite M_bind_ok; cycle 1.
    { unfold with_dataset. rewrite lookup_insert_eq, Hcopy.
      rewrite insert_insert_eq. reflexivity. }
    rewrite (py_index_lookup counts i (dataset_lens d)); cycle 1;
      [lia | |].
    { specialize (Hcounts 0%nat d eq_refl).
      now rewrite Nat.add_0_r in Hcounts. }
    rewrite M_bind_lift_ok. cbn [mret M_ret].
    rewrite counter_iadd_nonneg by apply dataset_lens_nonneg.
    now rewrite <- dataset_lens_append.
Qed.

(** What [zarr_concat] does when every source that opens is valid and
    populated: the destination holds the sources that open, one after the
    other, and a line has been printed for each source that does not
    open. *)
Lemma zarr_concat_spec inputs out fs log :
  fs !! out = None ->
  (forall p d, (p, d) ∈ surviving fs inputs ->
               valid_dataset d /\ populated d) ->
  concat inputs out {| disk := fs; stdout := log |}
  = ({| disk := <[out := Stored (dataset_concat (surviving fs inputs).*2)]> fs;
        stdout := log ++ (not_valid_line <$> skipped fs inputs) |},
     Ok tt).
Proof.
  intros Hout Hgood.
  set (surv := surviving fs inputs) in *.
  unfold zarr_concat.
  unfold mbind at 1, M_bind at 1, get_state. cbn [disk].
  rewrite bool_decide_eq_false_2 by (rewrite Hout; apply is_Some_None).
  erewrite M_bind_ok by (apply scan_inputs_spec; exact Hgood).
  cbn [fst snd app].
  change counter_zero with (dataset_lens (@empty_dataset Agent TlFace)).
  rewrite foldl_counter_iadd_lens.
  fold (dataset_concat surv.*2).
  erewrite M_bind_ok; cycle 1.
  { apply on_disk_eq. unfold initialize. rewrite Hout. reflexivity. }
  destruct (concat_loop_spec out fs (dataset_lens <$> surv.*2) Hout surv 0
              empty_dataset (blank (dataset_lens (dataset_concat surv.*2))))
    as (X' & Hloop & Hl & Hw); try lia.
  - intros p d Hpd. destruct (Hgood p d Hpd).
    apply elem_of_surviving in Hpd as (_ & ?). auto.
  - intros j d Hj. change (Z.to_nat 0 + j)%nat with j.
    now rewrite list_lookup_fmap, Hj.
  - reflexivity.
  - rewrite dataset_lens_blank by apply dataset_lens_nonneg.
    unfold num_els_le; fold (dataset_concat surv.*2); lia.
  - fold (dataset_concat surv.*2) in *.
    rewrite dataset_lens_blank in Hl by apply dataset_lens_nonneg.
    rewrite <- Hl, written_part_all in Hw. subst X'.
    unfold enumerate.
    replace (py_len surv.*1) with (py_len surv)
      by (unfold py_len; now rewrite length_fmap).
    fold surv. fold (dataset_concat surv.*2).
    erewrite M_bind_ok; [reflexivity |].
    rewrite (for_each_on_disk (concat_step out (dataset_lens <$> surv.*2))).
    apply on_disk_eq. exact Hloop.
Qed.

(** Skipping is all that a source that does not open causes: the call
    ends as it does on the paths that open, with the same disk; only the
    lines printed differ. *)
Lemma on_disk_bind {A B} (m : M Store A) (f : A -> M Store B) fs log :
  (on_disk m ≫= fun a => on_disk (f a)) {| disk := fs; stdout := log |}
  = on_disk (m ≫= f) {| disk := fs; stdout := log |}.
Proof.
  unfold mbind, M_bind, on_disk. cbn [disk stdout].
  destruct (m fs) as [fs' [a|e]]; reflexivity.
Qed.

Lemma scan_input_opens (lists : list NumEls * list string) p fs log d :
  fs !! p = Some (Stored d) ->
  scan_input lists p {| disk := fs; stdout := log |}
  = ({| disk := fs; stdout := log |},
     match _get_num_els_in_scene_range d 0 (py_len (scenes d)) with
     | Ok n => Ok (lists.1 ++ [n], lists.2 ++ [p])
     | Err e => Err e
     end).
Proof.
  intros E. unfold scan_input, on_disk, open_dataset. cbn [disk stdout].
  rewrite E.
  destruct (_get_num_els_in_scene_range d 0 (py_len (scenes d))) as [n|e].
  - now rewrite M_bind_lift_ok.
  - now rewrite M_bind_lift_err.
Qed.

Lemma scan_input_skips (lists : list NumEls * list string) p fs log :
  (forall d, fs !! p <> Some (Stored d)) ->
  scan_input lists p {| disk := fs; stdout := log |}
  = ({| disk := fs; stdout := log ++ [not_valid_line p] |}, Ok lists).
Proof.
  intros E. unfold scan_input, on_disk, open_dataset. cbn [disk stdout].
  destruct (fs !! p) as [[d|]|]; [now destruct (E d) | |]; reflexivity.
Qed.

Lemma scan_inputs_survivors fs inputs :
  forall (lists : list NumEls * list string) log1 log2,
  exists r log1' log2',
    for_each scan_input lists inputs {| disk := fs; stdout := log1 |}
    = ({| disk := fs; stdout := log1' |}, r)
    /\ for_each scan_input lists (surviving fs inputs).*1
         {| disk := fs; stdout := log2 |}
       = ({| disk := fs; stdout := log2' |}, r).
Proof.
  induction inputs as [|p inputs IH]; intros lists log1 log2.
  - exists (Ok lists), log1, log2. split; reflexivity.
  - rewrite surviving_cons. cbn [for_each].
    destruct (fs !! p) as [[d|]|] eqn:E.
    + rewrite fmap_cons. cbn [fst for_each].
      destruct (_get_num_els_in_scene_range d 0 (py_len (scenes d)))
        as [n|e] eqn:En.
      * destruct (IH (lists.1 ++ [n], lists.2 ++ [p]) log1 log2)
          as (r & l1 & l2 & H1 & H2).
        exists r, l1, l2. split.
        -- erewrite M_bind_ok
             by (rewrite (scan_input_opens _ _ _ _ _ E), En; reflexivity).
           exact H1.
        -- erewrite M_bind_ok
             by (rewrite (scan_input_opens _ _ _ _ _ E), En; reflexivity).
           exact H2.
      * exists (Err e), log1, log2. split.
        -- erewrite M_bind_err
             by (rewrite (scan_input_opens _ _ _ _ _ E), En; reflexivity).
           reflexivity.
        -- erewrite M_bind_err
             by (rewrite (scan_input_opens _ _ _ _ _ E), En; reflexivity).
           reflexivity.
    + destruct (IH lists (log1 ++ [not_valid_line p]) log2)
        as (r & l1 & l2 & H1 & H2).
      exists r, l1, l2. split; [| exact H2].
      erewrite M_bind_ok
        by (apply scan_input_skips; intros d; rewrite E; discriminate).
      exact H1.
    + destruct (IH lists (log1 ++ [not_valid_line p]) log2)
        as (r & l1 & l2 & H1 & H2).
      exists r, l1, l2. split; [| exact H2].
      erewrite M_bind_ok
        by (apply scan_input_skips; intros d; rewrite E; discriminate).
      exact H1.
Qed.

Lemma zarr_concat_unfold inputs out fs log :
  concat inputs out {| disk := fs; stdout := log |}
  = if bool_decide (is_Some (fs !! out))
    then ({| disk := fs; stdout := log |}, Err AlreadyExistsError)
    else match for_each scan_input ([], []) inputs
                 {| disk := fs; stdout := log |} with
         | (w, Ok (nums, valid)) =>
             (on_disk (initialize blank_scene blank_frame blank_agent
                         blank_tl_face out
                         (foldl counter_iadd counter_zero nums));;
              for_each (fun cur it => on_disk (concat_step out nums cur it))
                       counter_zero (enumerate valid);;
              mret tt) w
         | (w, Err e) => (w, Err e)
         end.
Proof.
  unfold zarr_concat.
  unfold mbind at 1, M_bind at 1, get_state. cbn [disk].
  case_bool_decide; [reflexivity |].
  unfold mbind at 1, M_bind at 1.
  destruct (for_each scan_input _ _ _) as [w [[nums valid]|e]]; reflexivity.
Qed.

Lemma zarr_concat_survivors inputs out fs log :
  exists r fs' log1 log2,
    concat inputs out {| disk := fs; stdout := log |}
    = ({| disk := fs'; stdout := log1 |}, r)
    /\ concat (surviving fs inputs).*1 out {| disk := fs; stdout := log |}
       = ({| disk := fs'; stdout := log2 |}, r).
Proof.
  rewrite !zarr_concat_unfold.
  case_bool_decide.
  { exists (Err AlreadyExistsError), fs, log, log. split; reflexivity. }
  destruct (scan_inputs_survivors fs inputs ([], []) log log)
    as (r & log1 & log2 & H1 & H2).
  rewrite H1, H2.
  destruct r as [[nums valid]|e].
  - assert (HK : exists fs' r, forall l,
      (on_disk (initialize blank_scene blank_frame blank_agent blank_tl_face
                  out (foldl counter_iadd counter_zero nums))
       ≫= fun _ =>
         for_each (fun cur it => on_disk (concat_step out nums cur it))
                  counter_zero (enumerate valid) ≫= fun _ => mret tt)
        {| disk := fs; stdout := l |}
      = ({| disk := fs'; stdout := l |}, r)).
    { destruct (initialize blank_scene blank_frame blank_agent blank_tl_face
                  out (foldl counter_iadd counter_zero nums) fs)
        as [fs1 [[]|e]] eqn:Ei.
      - destruct (for_each (concat_step out nums) counter_zero
                    (enumerate valid) fs1) as [fs2 [a|e]] eqn:El.
        + exists fs2, (Ok tt). intros l.
          erewrite M_bind_ok by (apply on_disk_eq; exact Ei).
          erewrite M_bind_ok; [reflexivity |].
          rewrite (for_each_on_disk (concat_step out nums)).
          apply on_disk_eq. exact El.
        + exists fs2, (Err e). intros l.
          erewrite M_bind_ok by (apply on_disk_eq; exact Ei).
          erewrite M_bind_err; [reflexivity |].
          rewrite (for_each_on_disk (concat_step out nums)).
          apply on_disk_eq. exact El.
      - exists fs1, (Err e). intros l.
        erewrite M_bind_err; [reflexivity |].
        apply on_disk_eq. exact Ei. }
    destruct HK as (fs' & r & HK).
    exists r, fs', log1, log2. split; apply HK.
  - exists (Err e), fs, log1, log2. split; reflexivity.
Qed.

End ConcatProps.

(** ** Concatenating copies of one dataset *)

Section Replicated.
Context {Agent TlFace : Type}.
Local Abbreviation Dataset := (ChunkedDataset Agent TlFace).
Implicit Types d : Dataset.

Lemma dataset_concat_replicate_S n d :
  dataset_concat (replicate (S n) d)
  = dataset_append (dataset_concat (replicate n d)) d.
Proof. now rewrite replicate_S_end, dataset_concat_snoc. Qed.

Lemma dataset_lens_concat_replicate n d :
  dataset_lens (dataset_concat (replicate n d))
  = {| num_scenes := Z.of_nat n * py_len (scenes d);
       num_frames := Z.of_nat n * py_len (frames d);
       num_agents := Z.of_nat n * py_len (agents d);
       num_tl_faces := Z.of_nat n * py_len (tl_faces d) |}.
Proof.
  induction n as [|n IH].
  - reflexivity.
  - rewrite dataset_concat_replicate_S, dataset_lens_append, IH.
    unfold num_els_add, dataset_lens; cbn [num_scenes num_frames num_agents
      num_tl_faces]. f_equal; lia.
Qed.

(** Copy [i] of the source within the concatenation of [n] copies. *)
Lemma dataset_concat_replicate_lookup n d (i : nat) :
  (i < n)%nat ->
  (forall (k : nat) s, scenes d !! k = Some s ->
     scenes (dataset_concat (replicate n d))
       !! (i * length (scenes d) + k)%nat
     = Some (shift_scene (Z.of_nat i * py_len (frames d)) s))
  /\ (forall (j : nat) f, frames d !! j = Some f ->
        frames (dataset_concat (replicate n d))
          !! (i * length (frames d) + j)%nat
        = Some (shift_frame (Z.of_nat i * py_len (agents d))
                            (Z.of_nat i * py_len (tl_faces d)) f))
  /\ (forall (m : nat) x, agents d !! m = Some x ->
        agents (dataset_concat (replicate n d))
          !! (i * length (agents d) + m)%nat = Some x)
  /\ (forall (m : nat) x, tl_faces d !! m = Some x ->
        tl_faces (dataset_concat (replicate n d))
          !! (i * length (tl_faces d) + m)%nat = Some x).
Proof.
  induction n as [|n IH]; [lia |]. intros Hi.
  rewrite dataset_concat_replicate_S.
  pose proof (dataset_lens_concat_replicate n d) as Hlens.
  apply (f_equal num_scenes) in Hlens as Hls.
  apply (f_equal num_frames) in Hlens as Hlf.
  apply (f_equal num_agents) in Hlens as Hla.
  apply (f_equal num_tl_faces) in Hlens as Hlt.
  unfold dataset_lens, py_len in Hls, Hlf, Hla, Hlt.
  cbn [num_scenes num_frames num_agents num_tl_faces] in Hls, Hlf, Hla, Hlt.
  unfold dataset_append. cbn [scenes frames agents tl_faces].
  destruct (decide (i < n)%nat) as [Hlt'|Hge].
  - destruct (IH Hlt') as (Hs & Hf & Ha & Ht).
    repeat split; intros k x Hx; pose proof (lookup_lt_Some _ _ _ Hx).
    + rewrite lookup_app_l by nia. now apply Hs.
    + rewrite lookup_app_l by nia. now apply Hf.
    + rewrite lookup_app_l by nia. now apply Ha.
    + rewrite lookup_app_l by nia. now apply Ht.
  - assert (i = n) as -> by lia.
    repeat split; intros k x Hx.
    + rewrite lookup_app_r by nia.
      replace (n * length (scenes d) + k
               - length (scenes (dataset_concat (replicate n d))))%nat
        with k by nia.
      rewrite list_lookup_fmap, Hx. cbn. unfold py_len. now rewrite Hlf.
    + rewrite lookup_app_r by nia.
      replace (n * length (frames d) + k
               - length (frames (dataset_concat (replicate n d))))%nat
        with k by nia.
      rewrite list_lookup_fmap, Hx. cbn. unfold py_len.
      now rewrite Hla, Hlt.
    + rewrite lookup_app_r by nia.
      replace (n * length (agents d) + k
               - length (agents (dataset_concat (replicate n d))))%nat
        with k by nia. exact Hx.
    + rewrite lookup_app_r by nia.
      replace (n * length (tl_faces d) + k
               - length (tl_faces (dataset_concat (replicate n d))))%nat
        with k by nia. exact Hx.
Qed.

End Replicated.

(** ** The laws of [zarr_concat] *)

Lemma take_enumerate {A} (l : list A) (i : nat) :
  take i (enumerate l) = zip (seqZ 0 (py_len (take i l))) (take i l).
Proof.
  unfold enumerate. rewrite zip_with_take. f_equal.
  unfold seqZ, py_len. rewrite <- fmap_take, take_seq, length_take.
  do 2 f_equal. lia.
Qed.

Section ConcatClaims.
Context {Agent TlFace : Type}.
Context (blank_scene : Scene) (blank_frame : Frame)
        (blank_agent : Agent) (blank_tl_face : TlFace).
Local Abbreviation Dataset := (ChunkedDataset Agent TlFace).
Local Abbreviation Store := (gmap string (Entry Agent TlFace)).
Local Abbreviation blank :=
  (blank_dataset blank_scene blank_frame blank_agent blank_tl_face).
Local Abbreviation concat :=
  (zarr_concat blank_scene blank_frame blank_agent blank_tl_face).
Implicit Types (fs : Store) (d : Dataset) (out : string).

Lemma surviving_replicate fs p d n :
  fs !! p = Some (Stored d) ->
  surviving fs (replicate n p) = replicate n (p, d).
Proof.
  intros Hp. induction n as [|n IH]; [reflexivity |].
  cbn [replicate]. rewrite surviving_cons, Hp. now f_equal.
Qed.

Lemma skipped_replicate fs p d n :
  fs !! p = Some (Stored d) -> skipped fs (replicate n p) = [].
Proof.
  intros Hp. induction n as [|n IH]; [reflexivity |].
  cbn [replicate]. now rewrite skipped_cons, Hp.
Qed.

Lemma skipped_surviving fs paths : skipped fs (surviving fs paths).*1 = [].
Proof.
  induction paths as [|p paths IH]; [reflexivity |].
  rewrite surviving_cons. destruct (fs !! p) as [[d|]|] eqn:E; auto.
  rewrite fmap_cons. cbn [fst]. now rewrite skipped_cons, E.
Qed.

Lemma zarr_concat_replicate fs log p d out n :
  fs !! p = Some (Stored d) -> fs !! out = None ->
  valid_dataset d -> populated d ->
  concat (replicate n p) out {| disk := fs; stdout := log |}
  = ({| disk := <[out := Stored (dataset_concat (replicate n d))]> fs;
        stdout := log |}, Ok tt).
Proof.
  intros Hp Hout Hv Hpop.
  rewrite (zarr_concat_spec _ _ _ _ _ _ fs log Hout).
  - rewrite (surviving_replicate fs p d n Hp), fmap_replicate.
    rewrite (skipped_replicate fs p d n Hp), app_nil_r. reflexivity.
  - rewrite (surviving_replicate fs p d n Hp).
    intros q e Hq. apply elem_of_replicate in Hq as (Hq & _).
    injection Hq as -> ->. auto.
Qed.

(** C5 (as amended).  For every source dataset that satisfies the
    invariants of section 3, has at least one scene and whose scenes each
    have at least one frame, and every N, concatenating N copies of the
    source into a path that does not exist succeeds, prints nothing and
    yields an output with N times the scenes, N times the frames, N times
    the agents and N times the traffic-light faces of the source. *)
Theorem concat_length_law fs log p d out (n : nat) :
  fs !! p = Some (Stored d) -> fs !! out = None ->
  valid_dataset d -> populated d ->
  exists output,
    concat (replicate n p) out {| disk := fs; stdout := log |}
    = ({| disk := <[out := Stored output]> fs; stdout := log |}, Ok tt)
    /\ py_len (scenes output) = Z.of_nat n * py_len (scenes d)
    /\ py_len (frames output) = Z.of_nat n * py_len (frames d)
    /\ py_len (agents output) = Z.of_nat n * py_len (agents d)
    /\ py_len (tl_faces output) = Z.of_nat n * py_len (tl_faces d).
Proof.
  intros Hp Hout Hv Hpop.
  exists (dataset_concat (replicate n d)). split.
  - now apply zarr_concat_replicate.
  - pose proof (dataset_lens_concat_replicate n d) as Hl.
    unfold dataset_lens in Hl. injection Hl as -> -> -> ->. auto.
Qed.

(** C1 (as amended).  For every source dataset that satisfies the
    invariants of section 3, has at least one scene and whose scenes each
    have at least one frame, and every N, concatenating N copies of the
    source into a path that does not exist succeeds, and for every copy
    index i in [0, N): the output scene at index i*S + k is the source
    scene k with its frame interval shifted by i*F and all other fields
    equal (in particular the scene at i*S is the source scene 0); the
    output frame at i*F + j is the source frame j with its agent interval
    shifted by i*A and its traffic-light interval shifted by i*T; the
    output agent at i*A + m is the source agent m and the output face at
    i*T + m the source face m (S, F, A, T the four lengths of the
    source). *)
Theorem concat_content_law fs log p d out (n : nat) :
  fs !! p = Some (Stored d) -> fs !! out = None ->
  valid_dataset d -> populated d ->
  exists output,
    concat (replicate n p) out {| disk := fs; stdout := log |}
    = ({| disk := <[out := Stored output]> fs; stdout := log |}, Ok tt)
    /\ forall i : nat, (i < n)%nat ->
       (forall (k : nat) s, scenes d !! k = Some s ->
          exists s', scenes output !! (i * length (scenes d) + k)%nat = Some s'
            /\ host s' = host s /\ start_time s' = start_time s
            /\ end_time s' = end_time s
            /\ frame_index_interval s'
               = shift_interval (Z.of_nat i * py_len (frames d))
                                (frame_index_interval s))
       /\ (forall (j : nat) f, frames d !! j = Some f ->
          exists f', frames output !! (i * length (frames d) + j)%nat = Some f'
            /\ timestamp f' = timestamp f
            /\ ego_translation f' = ego_translation f
            /\ ego_rotation f' = ego_rotation f
            /\ agent_index_interval f'
               = shift_interval (Z.of_nat i * py_len (agents d))
                                (agent_index_interval f)
            /\ traffic_light_faces_index_interval f'
               = shift_interval (Z.of_nat i * py_len (tl_faces d))
                                (traffic_light_faces_index_interval f))
       /\ (forall (m : nat) x, agents d !! m = Some x ->
             agents output !! (i * length (agents d) + m)%nat = Some x)
       /\ (forall (m : nat) x, tl_faces d !! m = Some x ->
             tl_faces output !! (i * length (tl_faces d) + m)%nat = Some x).
Proof.
  intros Hp Hout Hv Hpop.
  exists (dataset_concat (replicate n d)). split.
  - now apply zarr_concat_replicate.
  - intros i Hi.
    destruct (dataset_concat_replicate_lookup n d i Hi) as (Hs & Hf & Ha & Ht).
    repeat split; auto.
    + intros k s Hk. eexists. split; [exact (Hs k s Hk) |]. repeat split.
    + intros j f Hj. eexists. split; [exact (Hf j f Hj) |]. repeat split.
Qed.

(** C8 (as amended).  During [zarr_concat], when the destination path
    does not exist and every source that opens satisfies the invariants
    of section 3, has a scene and has a frame in every scene: the call
    succeeds; every source path that does not open is skipped with the
    line [<path> is not valid! skipping] printed for it, in the order of
    the paths, and nothing else is printed; the disk the call leaves is the
    one it leaves on the list of the paths that open, where it prints
    nothing; the output holds the sources that open one after the other
    in the order of their paths; and the write offsets with which the
    second loop reaches the i-th surviving source are the sums of the
    counts of the surviving sources before it. *)
Theorem concat_skips_unopenable inputs out fs log :
  fs !! out = None ->
  Forall (fun pd => valid_dataset pd.2 /\ populated pd.2)
         (surviving fs inputs) ->
  concat inputs out {| disk := fs; stdout := log |}
  = ({| disk := <[out := Stored (dataset_concat (surviving fs inputs).*2)]> fs;
        stdout :=
          log ++ ((fun input_zarr => input_zarr +:+ " is not valid! skipping")
                    <$> skipped fs inputs) |},
     Ok tt)
  /\ concat (surviving fs inputs).*1 out {| disk := fs; stdout := log |}
     = ({| disk := <[out := Stored (dataset_concat (surviving fs inputs).*2)]> fs;
           stdout := log |}, Ok tt)
  /\ exists counts,
       Forall2 (fun d n =>
                  _get_num_els_in_scene_range d 0 (py_len (scenes d)) = Ok n)
               (surviving fs inputs).*2 counts
       /\ forall i : nat, (i < length (surviving fs inputs))%nat ->
            exists fs_i,
              for_each (fun cur it => on_disk (concat_step out counts cur it))
                counter_zero
                (take i (enumerate (surviving fs inputs).*1))
                {| disk := <[out := Stored (blank (foldl num_els_add
                                                     counter_zero counts))]> fs;
                   stdout :=
                     log ++ ((fun input_zarr =>
                                input_zarr +:+ " is not valid! skipping")
                               <$> skipped fs inputs) |}
              = ({| disk := fs_i;
                    stdout :=
                      log ++ ((fun input_zarr =>
                                 input_zarr +:+ " is not valid! skipping")
                                <$> skipped fs inputs) |},
                 Ok (foldl num_els_add counter_zero (take i counts))).
Proof.
  change (fun input_zarr : string => input_zarr +:+ " is not valid! skipping")
    with not_valid_line.
  intros Hout Hgood.
  set (surv := surviving fs inputs) in *.
  assert (Hgood' : forall p d, (p, d) ∈ surv ->
                     valid_dataset d /\ populated d).
  { intros p d Hpd. rewrite Forall_forall in Hgood. apply (Hgood _ Hpd). }
  split; [| split].
  - now apply zarr_concat_spec.
  - rewrite (zarr_concat_spec _ _ _ _ _ _ fs log Hout).
    + subst surv. now rewrite surviving_idemp, skipped_surviving, app_nil_r.
    + subst surv. now rewrite surviving_idemp.
  - exists (dataset_lens <$> surv.*2). split.
    + apply Forall2_fmap_r, Forall_Forall2_diag.
      rewrite Forall_forall. intros d Hd.
      apply list_elem_of_fmap in Hd as ([p d'] & -> & Hpd).
      destruct (Hgood' _ _ Hpd). now apply num_els_all.
    + intros i Hi.
      change counter_zero with (dataset_lens (@empty_dataset Agent TlFace)).
      rewrite take_enumerate, <- !fmap_take.
      rewrite !foldl_num_els_add_lens.
      set (rest := take i surv).
      replace (py_len rest.*1) with (py_len rest)
        by (unfold py_len; now rewrite length_fmap).
      destruct (concat_loop_spec out fs (dataset_lens <$> surv.*2) Hout rest 0
                  empty_dataset
                  (blank (dataset_lens (foldl dataset_append empty_dataset
                                          surv.*2))))
        as (X' & Hloop & _); try lia.
      * intros p d Hpd.
        assert ((p, d) ∈ surv) as Hin.
        { apply elem_of_take in Hpd as (j & Hj & _).
          eapply list_elem_of_lookup_2; exact Hj. }
        destruct (Hgood' p d Hin).
        apply elem_of_surviving in Hin as (_ & ?). auto.
      * intros j d Hj. change (Z.to_nat 0 + j)%nat with j.
        subst rest. rewrite fmap_take in Hj.
        apply lookup_take_Some in Hj as (Hj & _).
        now rewrite list_lookup_fmap, Hj.
      * reflexivity.
      * rewrite dataset_lens_blank by apply dataset_lens_nonneg.
        subst rest. rewrite fmap_take.
        rewrite <- (take_drop i surv.*2) at 2.
        rewrite foldl_app. apply foldl_append_lens_le.
      * eexists.
        rewrite (for_each_on_disk (concat_step out (dataset_lens <$> surv.*2))).
        apply on_disk_eq. exact Hloop.
Qed.

End ConcatClaims.

(** *** Instances and failing inputs of the concatenation laws *)

Lemma concat_length_law_witness :
  exists output,
    ex_concat (replicate 2 "a") "out" {| disk := ex_store; stdout := [] |}
    = ({| disk := <["out" := Stored output]> ex_store; stdout := [] |}, Ok tt)
    /\ py_len (scenes output) = Z.of_nat 2 * py_len (scenes ds_small)
    /\ py_len (frames output) = Z.of_nat 2 * py_len (frames ds_small)
    /\ py_len (agents output) = Z.of_nat 2 * py_len (agents ds_small)
    /\ py_len (tl_faces output) = Z.of_nat 2 * py_len (tl_faces ds_small).
Proof.
  apply (concat_length_law ex_blank_scene ex_blank_frame 0%nat 0%nat
           ex_store [] "a" ds_small "out" 2).
  - vm_compute; reflexivity.
  - vm_compute; reflexivity.
  - by_compute.
  - by_compute.
Defined.

(** C5 fails as stated: a dataset whose scene has no frame, and a
    dataset without scenes, satisfy the invariants; concatenating one
    copy of either fails, so no output of the promised lengths exists. *)
Lemma concat_fails_on_unpopulated_source :
  valid_dataset ds_no_frames
  /\ (ex_concat (replicate 1 "a") "out" (ex_world_of ds_no_frames)).2
     = Err IndexError
  /\ valid_dataset ds_no_scenes
  /\ (ex_concat (replicate 1 "a") "out" (ex_world_of ds_no_scenes)).2
     = Err PreconditionError.
Proof.
  split; [by_compute |]. split; [vm_compute; reflexivity |].
  split; [by_compute | vm_compute; reflexivity].
Qed.

Lemma concat_content_law_witness :
  exists output,
    ex_concat (replicate 2 "a") "out" {| disk := ex_store; stdout := [] |}
    = ({| disk := <["out" := Stored output]> ex_store; stdout := [] |}, Ok tt)
    /\ forall i : nat, (i < 2)%nat ->
       (forall (k : nat) s, scenes ds_small !! k = Some s ->
          exists s',
            scenes output !! (i * length (scenes ds_small) + k)%nat = Some s'
            /\ host s' = host s /\ start_time s' = start_time s
            /\ end_time s' = end_time s
            /\ frame_index_interval s'
               = shift_interval (Z.of_nat i * py_len (frames ds_small))
                                (frame_index_interval s))
       /\ (forall (j : nat) f, frames ds_small !! j = Some f ->
          exists f',
            frames output !! (i * length (frames ds_small) + j)%nat = Some f'
            /\ timestamp f' = timestamp f
            /\ ego_translation f' = ego_translation f
            /\ ego_rotation f' = ego_rotation f
            /\ agent_index_interval f'
               = shift_interval (Z.of_nat i * py_len (agents ds_small))
                                (agent_index_interval f)
            /\ traffic_light_faces_index_interval f'
               = shift_interval (Z.of_nat i * py_len (tl_faces ds_small))
                                (traffic_light_faces_index_interval f))
       /\ (forall (m : nat) x, agents ds_small !! m = Some x ->
             agents output !! (i * length (agents ds_small) + m)%nat = Some x)
       /\ (forall (m : nat) x, tl_faces ds_small !! m = Some x ->
             tl_faces output !! (i * length (tl_faces ds_small) + m)%nat
             = Some x).
Proof.
  apply (concat_content_law ex_blank_scene ex_blank_frame 0%nat 0%nat
           ex_store [] "a" ds_small "out" 2).
  - vm_compute; reflexivity.
  - vm_compute; reflexivity.
  - by_compute.
  - by_compute.
Defined.

(** C1 fails as stated: the source satisfies the invariants, but
    concatenating two copies of it fails at its scene without frames, and
    in what is left behind the scene at index 1*S is not scene 0 of the
    source with its interval shifted by 1*F. *)
Lemma concat_content_fails_on_idle_scene :
  valid_dataset ds_idle_scene
  /\ (ex_concat (replicate 2 "a") "out" (ex_world_of ds_idle_scene)).2
     = Err IndexError
  /\ exists output,
       disk (ex_concat (replicate 2 "a") "out" (ex_world_of ds_idle_scene)).1
         !! "out" = Some (Stored output)
       /\ frame_index_interval <$> scenes output !! (1 * 2)%nat
          <> Some (shift_interval (1 * py_len (frames ds_idle_scene)) (0, 1)).
Proof.
  split; [by_compute |]. split; [vm_compute; reflexivity |].
  eexists. split; [vm_compute; reflexivity |].
  vm_compute. discriminate.
Qed.

Lemma concat_skips_unopenable_witness :
  ex_concat ["a"; "missing"; "bad"; "a"] "out"
    {| disk := ex_store; stdout := [] |}
  = ({| disk := <["out" := Stored (dataset_concat
          (surviving ex_store ["a"; "missing"; "bad"; "a"]).*2)]> ex_store;
        stdout :=
          [] ++ ((fun input_zarr => input_zarr +:+ " is not valid! skipping")
                   <$> skipped ex_store ["a"; "missing"; "bad"; "a"]) |},
     Ok tt)
  /\ ex_concat (surviving ex_store ["a"; "missing"; "bad"; "a"]).*1 "out"
       {| disk := ex_store; stdout := [] |}
     = ({| disk := <["out" := Stored (dataset_concat
             (surviving ex_store ["a"; "missing"; "bad"; "a"]).*2)]> ex_store;
           stdout := [] |}, Ok tt)
  /\ exists counts,
       Forall2 (fun d n =>
                  _get_num_els_in_scene_range d 0 (py_len (scenes d)) = Ok n)
               (surviving ex_store ["a"; "missing"; "bad"; "a"]).*2 counts
       /\ forall i : nat,
            (i < length (surviving ex_store ["a"; "missing"; "bad"; "a"]))%nat ->
            exists fs_i,
              for_each (fun cur it => on_disk (concat_step "out" counts cur it))
                counter_zero
                (take i (enumerate
                   (surviving ex_store ["a"; "missing"; "bad"; "a"]).*1))
                {| disk := <["out" := Stored
                     (blank_dataset ex_blank_scene ex_blank_frame 0%nat 0%nat
                        (foldl num_els_add counter_zero counts))]> ex_store;
                   stdout :=
                     [] ++ ((fun input_zarr =>
                               input_zarr +:+ " is not valid! skipping")
                              <$> skipped ex_store
                                    ["a"; "missing"; "bad"; "a"]) |}
              = ({| disk := fs_i;
                    stdout :=
                     [] ++ ((fun input_zarr =>
                               input_zarr +:+ " is not valid! skipping")
                              <$> skipped ex_store
                                    ["a"; "missing"; "bad"; "a"]) |},
                 Ok (foldl num_els_add counter_zero (take i counts))).
Proof.
  apply (concat_skips_unopenable ex_blank_scene ex_blank_frame 0%nat 0%nat
           ["a"; "missing"; "bad"; "a"] "out" ex_store []).
  - vm_compute; reflexivity.
  - by_compute.
Defined.

(** C8 fails as stated, on three inputs.  First: the path ["missing"]
    does not open and is skipped with its line printed, but the source
    under ["a"], which satisfies the invariants, has a scene without
    frames, and the call ends in [IndexError] instead of succeeding.
    Second: the destination exists already; the call raises before any
    source is looked at, so the path that does not open is not skipped
    with a warning, nothing being printed.  Third: the source under
    ["a"] has no scene; the accountant's assertion fails on it before
    ["missing"] is reached, and again nothing is printed. *)
Lemma concat_fails_despite_skipping :
  valid_dataset ds_idle_scene
  /\ skipped (ex_store_of ds_idle_scene) ["missing"; "a"] = ["missing"]
  /\ (ex_concat ["missing"; "a"] "out" (ex_world_of ds_idle_scene)).2
     = Err IndexError
  /\ stdout (ex_concat ["missing"; "a"] "out" (ex_world_of ds_idle_scene)).1
     = ["missing is not valid! skipping"]
  /\ skipped ex_store ["missing"; "a"] = ["missing"]
  /\ ex_concat ["missing"; "a"] "a" ex_world
     = (ex_world, Err AlreadyExistsError)
  /\ valid_dataset ds_no_scenes
  /\ skipped (ex_store_of ds_no_scenes) ["a"; "missing"] = ["missing"]
  /\ ex_concat ["a"; "missing"] "out" (ex_world_of ds_no_scenes)
     = (ex_world_of ds_no_scenes, Err PreconditionError).
Proof.
  split; [by_compute |]. split; [vm_compute; reflexivity |].
  split; [vm_compute; reflexivity |]. split; [vm_compute; reflexivity |].
  split; [vm_compute; reflexivity |]. split; [vm_compute; reflexivity |].
  split; [by_compute |]. split; vm_compute; reflexivity.
Qed.

(** The lines the call of the instance above prints. *)
Lemma concat_warning_lines :
  stdout (ex_concat ["a"; "missing"; "bad"; "a"] "out" ex_world).1
  = ["missing is not valid! skipping"; "bad is not valid! skipping"].
Proof. vm_compute. reflexivity. Qed.

(** ** Which exceptions the stages of [zarr_split] can raise *)

Lemma result_bind_not_config {A B} (r : result A) (f : A -> result B) :
  r <> Err ConfigError -> (forall a, f a <> Err ConfigError) ->
  r ≫= f <> Err ConfigError.
Proof.
  intros Hr Hf. destruct r as [a|e]; cbn; auto.
  intros [= ->]. now apply Hr.
Qed.

Lemma py_index_not_config {A} (l : list A) i : py_index l i <> Err ConfigError.
Proof. intros H. apply py_index_err in H. discriminate. Qed.

Lemma float_of_int_not_config n : float_of_int n <> Err ConfigError.
Proof. unfold float_of_int. repeat case_match; congruence. Qed.

Lemma float_div_not_config x y : float_div x y <> Err ConfigError.
Proof. unfold float_div. case_match; congruence. Qed.

Lemma int_of_float_not_config x : int_of_float x <> Err ConfigError.
Proof. unfold int_of_float. repeat case_match; congruence. Qed.

Lemma int_true_div_not_config a b : int_true_div a b <> Err ConfigError.
Proof.
  unfold int_true_div.
  apply result_bind_not_config; [apply float_of_int_not_config |]. intros x.
  apply result_bind_not_config; [apply float_of_int_not_config |]. intros y.
  apply float_div_not_config.
Qed.

Lemma scenes_for_split_not_config n size si :
  scenes_for_split n size si <> Err ConfigError.
Proof.
  unfold scenes_for_split.
  apply result_bind_not_config; [apply float_of_int_not_config |]. intros x.
  apply result_bind_not_config; [apply float_div_not_config |]. intros q.
  apply int_of_float_not_config.
Qed.

Lemma mapM_not_config {A B} (f : A -> result B) (l : list A) :
  (forall a, f a <> Err ConfigError) -> mapM f l <> Err ConfigError.
Proof.
  intros Hf. induction l as [|a l IH]; cbn; [discriminate |].
  apply result_bind_not_config; [apply Hf |]. intros b.
  apply result_bind_not_config; [exact IH |]. discriminate.
Qed.

Lemma M_bind_not_config {St A B} (m : M St A) (f : A -> M St B) :
  (forall s, (m s).2 <> Err ConfigError) ->
  (forall a s, (f a s).2 <> Err ConfigError) ->
  forall s, ((m ≫= f) s).2 <> Err ConfigError.
Proof.
  intros Hm Hf s. unfold mbind, M_bind. specialize (Hm s).
  destruct (m s) as [s' [a|e]]; cbn in *; auto.
  intros [= ->]. now apply Hm.
Qed.

Lemma lift_not_config {St A} (r : result A) :
  r <> Err ConfigError -> forall s : St, (lift r s).2 <> Err ConfigError.
Proof. intros Hr s. exact Hr. Qed.

Lemma for_each_not_config {St A B} (body : A -> B -> M St A) l :
  (forall acc x s, (body acc x s).2 <> Err ConfigError) ->
  forall acc s, (for_each body acc l s).2 <> Err ConfigError.
Proof.
  intros Hb. induction l as [|x l IH]; intros acc s; cbn; [discriminate |].
  apply M_bind_not_config; auto.
Qed.

Section SplitErrors.
Context {Agent TlFace : Type}.
Context (blank_scene : Scene) (blank_frame : Frame)
        (blank_agent : Agent) (blank_tl_face : TlFace).
Context (_compute_path_size : string -> Z).
Context (path_join : string -> string -> string).
Local Abbreviation Dataset := (ChunkedDataset Agent TlFace).
Local Abbreviation Store := (gmap string (Entry Agent TlFace)).
Local Abbreviation split :=
  (zarr_split blank_scene blank_frame blank_agent blank_tl_face
              _compute_path_size path_join).
Local Abbreviation init :=
  (initialize blank_scene blank_frame blank_agent blank_tl_face).
Implicit Types (fs : Store) (d input : Dataset).

Lemma num_els_not_config d a b :
  _get_num_els_in_scene_range d a b <> Err ConfigError.
Proof.
  unfold _get_num_els_in_scene_range. case_bool_decide; [| discriminate].
  repeat (apply result_bind_not_config; [apply py_index_not_config | intros ?]).
  discriminate.
Qed.

Lemma read_scene_blocks_not_config input k :
  read_scene_blocks input k <> Err ConfigError.
Proof.
  unfold read_scene_blocks.
  repeat (apply result_bind_not_config; [apply py_index_not_config | intros ?]).
  discriminate.
Qed.

Lemma write_slice_not_config {A} (l : list A) lo hi block :
  write_slice l lo hi block <> Err ConfigError.
Proof. intros H. apply write_slice_err in H. discriminate. Qed.

Lemma copy_scene_not_config input o1 o2 o3 cur k (out : Dataset) :
  (copy_scene input o1 o2 o3 cur k out).2 <> Err ConfigError.
Proof.
  revert out. unfold copy_scene.
  apply M_bind_not_config;
    [apply lift_not_config, read_scene_blocks_not_config |].
  intros [[[ss fs'] ags] ts].
  apply M_bind_not_config.
  { intros out. unfold write_scenes.
    pose proof (write_slice_not_config (scenes out) (num_scenes cur)
      (num_scenes cur + py_len (shift_scene o1 <$> ss)) (shift_scene o1 <$> ss)).
    destruct (write_slice (scenes out) _ _ _); cbn; congruence. }
  intros _. apply M_bind_not_config.
  { intros out. unfold write_frames.
    pose proof (write_slice_not_config (frames out) (num_frames cur)
      (num_frames cur + py_len (shift_frame o2 o3 <$> fs'))
      (shift_frame o2 o3 <$> fs')).
    destruct (write_slice (frames out) _ _ _); cbn; congruence. }
  intros _. apply M_bind_not_config.
  { intros out. unfold write_agents.
    pose proof (write_slice_not_config (agents out) (num_agents cur)
      (num_agents cur + py_len ags) ags).
    destruct (write_slice (agents out) _ _ _); cbn; congruence. }
  intros _. apply M_bind_not_config.
  { intros out. unfold write_tl_faces.
    pose proof (write_slice_not_config (tl_faces out) (num_tl_faces cur)
      (num_tl_faces cur + py_len ts) ts).
    destruct (write_slice (tl_faces out) _ _ _); cbn; congruence. }
  intros _ out. discriminate.
Qed.

Lemma append_zarr_subset_not_config input a b offs (out : Dataset) :
  (_append_zarr_subset input a b offs out).2 <> Err ConfigError.
Proof.
  revert out. unfold _append_zarr_subset, append_zarr_subset_cursors.
  apply M_bind_not_config; [| intros _ out; discriminate].
  apply M_bind_not_config; [apply lift_not_config, py_index_not_config |].
  intros scene.
  apply M_bind_not_config; [apply lift_not_config, py_index_not_config |].
  intros frame. apply for_each_not_config.
  intros acc x s. apply copy_scene_not_config.
Qed.

Lemma split_step_not_config input output_path acc it fs :
  (split_step blank_scene blank_frame blank_agent blank_tl_face path_join
     input output_path acc it fs).2 <> Err ConfigError.
Proof.
  revert fs. unfold split_step. destruct acc as [cur cuts], it as [n si].
  apply M_bind_not_config; [apply lift_not_config, num_els_not_config |].
  intros counts. apply M_bind_not_config.
  { intros fs. unfold initialize. destruct (fs !! _); cbn; discriminate. }
  intros _. apply M_bind_not_config; [| intros _ fs; discriminate].
  intros fs. unfold with_dataset.
  destruct (fs !! _) as [[out|]|]; cbn; try discriminate.
  pose proof (append_zarr_subset_not_config input cur (cur + n) None out).
  destruct (_append_zarr_subset input cur (cur + n) None out). exact H.
Qed.

End SplitErrors.

(** ** The guards of [zarr_split] *)

Lemma py_index_last_Some {A} (l : list A) x :
  last l = Some x -> py_index l (-1) = Ok x.
Proof.
  intros Hl. apply py_index_last.
  - rewrite last_lookup in Hl. rewrite <- Hl. f_equal. lia.
  - intros ->. discriminate.
Qed.

Lemma py_len_pos_last {A} (l : list A) :
  py_len l > 0 -> exists x, last l = Some x.
Proof.
  intros Hl. destruct (last l) as [x|] eqn:E; [eauto |].
  apply last_None in E. subst. unfold py_len in Hl; simpl in Hl; lia.
Qed.

Section SplitGuards.
Context {Agent TlFace : Type}.
Context (blank_scene : Scene) (blank_frame : Frame)
        (blank_agent : Agent) (blank_tl_face : TlFace).
Context (_compute_path_size : string -> Z).
Context (path_join : string -> string -> string).
Local Abbreviation Dataset := (ChunkedDataset Agent TlFace).
Local Abbreviation Store := (gmap string (Entry Agent TlFace)).
Local Abbreviation split :=
  (zarr_split blank_scene blank_frame blank_agent blank_tl_face
              _compute_path_size path_join).
Implicit Types (fs : Store) (d : Dataset).

(** C7 (as amended).  For every source that opens and every split spec
    list, [zarr_split] fails with [ConfigError] if and only if the list
    is empty or the budget of its last spec is not −1, and then nothing
    has been created: the store is what it was.  (A budget of −1 on a
    spec that is not the last is not looked at by this check.) *)
Theorem split_config_error_iff fs input_zarr d output_path split_infos :
  fs !! input_zarr = Some (Stored d) ->
  ((split input_zarr output_path split_infos fs).2 = Err ConfigError
   <-> (split_infos = []
        \/ exists l, last split_infos = Some l
             /\ float_is_minus_one (split_size_GB l) = false))
  /\ ((split input_zarr output_path split_infos fs).2 = Err ConfigError ->
      (split input_zarr output_path split_infos fs).1 = fs).
Proof.
  intros Hopen. unfold zarr_split.
  erewrite M_bind_ok by (unfold open_dataset; rewrite Hopen; reflexivity).
  case_bool_decide as Hlen.
  - destruct (py_len_pos_last split_infos Hlen) as (l & Hl).
    rewrite (py_index_last_Some _ _ Hl), M_bind_lift_ok.
    destruct (float_is_minus_one (split_size_GB l)) eqn:Hs.
    + match goal with
      | |- context [(?m fs).2] =>
          assert (Hno : (m fs).2 <> Err ConfigError)
      end.
      { revert fs Hopen. intros fs _. revert fs.
        apply M_bind_not_config;
          [apply lift_not_config, int_true_div_not_config |].
        intros size. apply M_bind_not_config.
        { apply lift_not_config, mapM_not_config.
          intros si. apply scenes_for_split_not_config. }
        intros targets. case_bool_decide; [| intros fs; discriminate].
        apply M_bind_not_config; [| intros [? ?] fs; discriminate].
        apply for_each_not_config. intros acc it fs.
        apply split_step_not_config. }
      split; [split |]; [tauto | | tauto].
      intros [-> | (l' & Hl' & Hs')]; [discriminate |].
      congruence.
    + cbn. split; [split |]; eauto.
  - assert (split_infos = []) as ->.
    { destruct split_infos; [reflexivity |].
      unfold py_len in Hlen; simpl in Hlen; lia. }
    cbn. split; [split |]; auto.
Qed.

(** C9 (as amended).  For every source that opens and every split spec
    list that passes the sentinel check (its last budget is −1), when
    the sum of the target scene counts of all specs before the last --
    each [int(total_scenes * split_size_GB / total_size_gb)], computed in
    floating point and truncated toward zero -- is greater than or equal
    to [total_scenes], [zarr_split] fails with [OverflowError], and
    nothing has been initialised or written: the store is what it
    was. *)
Theorem split_overflow_error fs input_zarr d output_path split_infos l
  size_input_gb num_scenes_output :
  fs !! input_zarr = Some (Stored d) ->
  last split_infos = Some l ->
  float_is_minus_one (split_size_GB l) = true ->
  int_true_div (_compute_path_size input_zarr) GIGABYTE = Ok size_input_gb ->
  mapM (scenes_for_split (py_len (scenes d)) size_input_gb)
       (py_slice split_infos 0 (-1)) = Ok num_scenes_output ->
  py_sum num_scenes_output >= py_len (scenes d) ->
  split input_zarr output_path split_infos fs = (fs, Err OverflowError).
Proof.
  intros Hopen Hl Hs Hsize Htargets Hsum. unfold zarr_split.
  erewrite M_bind_ok by (unfold open_dataset; rewrite Hopen; reflexivity).
  rewrite bool_decide_eq_true_2.
  2: { apply last_Some in Hl as (init & ->).
       unfold py_len. rewrite length_app. simpl. lia. }
  rewrite (py_index_last_Some _ _ Hl), M_bind_lift_ok, Hs.
  rewrite Hsize, M_bind_lift_ok, Htargets, M_bind_lift_ok.
  rewrite bool_decide_eq_false_2 by lia. reflexivity.
Qed.

End SplitGuards.

Lemma split_config_error_iff_witness :
  ((ex_split "a" "dst" [ex_info "p" float_2] ex_store).2 = Err ConfigError
   <-> ([ex_info "p" float_2] = []
        \/ exists l, last [ex_info "p" float_2] = Some l
             /\ float_is_minus_one (split_size_GB l) = false))
  /\ ((ex_split "a" "dst" [ex_info "p" float_2] ex_store).2
      = Err ConfigError ->
      (ex_split "a" "dst" [ex_info "p" float_2] ex_store).1 = ex_store).
Proof.
  apply (split_config_error_iff ex_blank_scene ex_blank_frame 0%nat 0%nat
           ex_path_size ex_path_join ex_store "a" ds_small).
  vm_compute; reflexivity.
Defined.

(** C7 fails as stated: in the first list a spec before the last
    carries −1 as well, so the list does not have exactly its last spec
    carrying the sentinel, yet the call does not fail with
    [ConfigError]; in the second list the same holds, and the call fails
    only after the first destination has been created. *)
Lemma split_accepts_sentinel_before_last :
  ~ exactly_last_sentinel [ex_info "p" float_m1; ex_info "q" float_m1]
  /\ (ex_split "a" "dst" [ex_info "p" float_m1; ex_info "q" float_m1]
        ex_store).2 = Err PreconditionError
  /\ ~ exactly_last_sentinel
         [ex_info "p" float_half; ex_info "q" float_m1; ex_info "r" float_m1]
  /\ (ex_split "a" "dst"
        [ex_info "p" float_half; ex_info "q" float_m1; ex_info "r" float_m1]
        ex_store).2 = Err PreconditionError
  /\ is_Some ((ex_split "a" "dst"
        [ex_info "p" float_half; ex_info "q" float_m1; ex_info "r" float_m1]
        ex_store).1 !! "dst/p")
  /\ ex_store !! "dst/p" = None.
Proof.
  split; [by_compute |]. split; [vm_compute; reflexivity |].
  split; [by_compute |]. split; [vm_compute; reflexivity |].
  split; [vm_compute; eauto | vm_compute; reflexivity].
Qed.

Lemma split_overflow_error_witness :
  ex_split "a" "dst" [ex_info "p" float_2; ex_info "q" float_m1] ex_store
  = (ex_store, Err OverflowError).
Proof.
  apply (split_overflow_error ex_blank_scene ex_blank_frame 0%nat 0%nat
           ex_path_size ex_path_join ex_store "a" ds_small "dst"
           [ex_info "p" float_2; ex_info "q" float_m1]
           (ex_info "q" float_m1)
           (S754_finite false 4503599627370496 (-52)) [4]).
  - vm_compute; reflexivity.
  - reflexivity.
  - vm_compute; reflexivity.
  - vm_compute; reflexivity.
  - vm_compute; reflexivity.
  - vm_compute; discriminate.
Defined.

(** C9 fails as stated.  In the first list the only spec is not a
    sentinel and its target of 4 scenes is not below the 2 scenes of the
    source, but the call fails with [ConfigError]: the sentinel check
    comes first.  In the second list the target of the only non-sentinel
    spec is 3, not below 2, but the code adds the (negative) target of
    the −1 spec in the middle, finds the sum below 2 and does not raise
    [OverflowError]. *)
Lemma split_overflow_not_raised :
  scenes_for_split (py_len (scenes ds_small))
    (S754_finite false 4503599627370496 (-52)) (ex_info "p" float_2) = Ok 4
  /\ 4 >= py_len (scenes ds_small)
  /\ (ex_split "a" "dst" [ex_info "p" float_2] ex_store).2 = Err ConfigError
  /\ scenes_for_split (py_len (scenes ds_small))
       (S754_finite false 4503599627370496 (-52)) (ex_info "p" float_1_5)
     = Ok 3
  /\ 3 >= py_len (scenes ds_small)
  /\ (ex_split "a" "dst"
        [ex_info "p" float_1_5; ex_info "q" float_m1; ex_info "r" float_m1]
        ex_store).2 = Err IndexError.
Proof.
  split; [vm_compute; reflexivity |]. split; [vm_compute; discriminate |].
  split; [vm_compute; reflexivity |]. split; [vm_compute; reflexivity |].
  split; [vm_compute; discriminate | vm_compute; reflexivity].
Qed.

(** ** The cuts of [zarr_split] *)

Lemma foldl_add_acc a l : foldl Z.add a l = a + foldl Z.add 0 l.
Proof.
  revert a; induction l as [|y l IH]; intros a; cbn [foldl]; [lia |].
  rewrite (IH (a + y)), (IH (0 + y)). lia.
Qed.

Lemma py_sum_cons x l : py_sum (x :: l) = x + py_sum l.
Proof. unfold py_sum. cbn [foldl]. now rewrite foldl_add_acc. Qed.

Lemma py_sum_app l1 l2 : py_sum (l1 ++ l2) = py_sum l1 + py_sum l2.
Proof.
  induction l1 as [|x l1 IH]; [reflexivity |].
  cbn [app]. rewrite !py_sum_cons, IH. lia.
Qed.

Lemma length_cuts_from cur sizes : length (cuts_from cur sizes) = length sizes.
Proof. revert cur; induction sizes; intros; simpl; auto. Qed.

Lemma chain_cuts_from cur sizes :
  Forall (fun n => 0 <= n) sizes ->
  chain cur (cuts_from cur sizes) (cur + py_sum sizes).
Proof.
  revert cur; induction sizes as [|n sizes IH]; intros cur Hs; simpl.
  - unfold py_sum; simpl; lia.
  - inversion Hs; subst. rewrite py_sum_cons. repeat split; try lia.
    replace (cur + (n + py_sum sizes)) with (cur + n + py_sum sizes) by lia.
    now apply IH.
Qed.

Lemma sizes_cuts_from cur sizes :
  (fun c : Z * Z => c.2 - c.1) <$> cuts_from cur sizes = sizes.
Proof.
  revert cur; induction sizes as [|n sizes IH]; intros cur; simpl; auto.
  f_equal; [lia | apply IH].
Qed.

Lemma nonempty_cuts_from cur sizes :
  Forall (fun n => 1 <= n) sizes ->
  Forall (fun c : Z * Z => c.1 < c.2) (cuts_from cur sizes).
Proof.
  revert cur; induction sizes as [|n sizes IH]; intros cur Hs; simpl;
    constructor; inversion Hs; subst; simpl; auto; lia.
Qed.

Lemma length_mapM_result {A B} (f : A -> result B) l k :
  mapM f l = Ok k -> length k = length l.
Proof.
  revert k; induction l as [|x l IH]; intros k; cbn.
  - now intros [= <-].
  - destruct (f x) as [y|]; cbn; [| discriminate].
    destruct (mapM f l) as [k'|]; cbn; [| discriminate].
    intros [= <-]. simpl. f_equal. now apply IH.
Qed.

Lemma py_slice_but_last {A} (l : list A) :
  py_slice l 0 (-1) = take (length l - 1) l.
Proof.
  unfold py_slice, py_bound, py_len.
  rewrite (bool_decide_eq_false_2 (0 < 0)) by lia.
  rewrite (bool_decide_eq_true_2 (-1 < 0)) by lia.
  replace (Z.to_nat (Z.min 0 (Z.of_nat (length l)))) with 0%nat by lia.
  rewrite drop_0. f_equal. lia.
Qed.

Section SplitCuts.
Context {Agent TlFace : Type}.
Context (blank_scene : Scene) (blank_frame : Frame)
        (blank_agent : Agent) (blank_tl_face : TlFace).
Context (_compute_path_size : string -> Z).
Context (path_join : string -> string -> string).
Local Abbreviation Dataset := (ChunkedDataset Agent TlFace).
Local Abbreviation Store := (gmap string (Entry Agent TlFace)).
Local Abbreviation split :=
  (zarr_split blank_scene blank_frame blank_agent blank_tl_face
              _compute_path_size path_join).
Local Abbreviation step :=
  (split_step blank_scene blank_frame blank_agent blank_tl_face path_join).
Local Abbreviation blank :=
  (blank_dataset blank_scene blank_frame blank_agent blank_tl_face).
Implicit Types (fs : Store) (d : Dataset).

Lemma all_has_frames d :
  valid_dataset d -> Forall has_frames (scenes d) ->
  forall i, 0 <= i < py_len (scenes d) ->
            frame_bound d i < frame_bound d (i + 1).
Proof.
  intros Hv Hall i Hi.
  apply (has_frames_in_range d 0 (py_len (scenes d))); auto; try lia.
  rewrite py_slice_take_drop by lia.
  rewrite Z.sub_0_r. change (Z.to_nat 0) with 0%nat. rewrite drop_0.
  unfold py_len. rewrite Nat2Z.id, firstn_all. exact Hall.
Qed.

Lemma dataset_append_empty_l d : dataset_append empty_dataset d = d.
Proof.
  unfold dataset_append, empty_dataset; cbn.
  change (py_len []) with 0.
  rewrite (list_fmap_ext (shift_scene 0) id) by (intros; apply shift_scene_0).
  rewrite (list_fmap_ext (shift_frame 0 0) id) by (intros; apply shift_frame_0).
  rewrite !list_fmap_id. now destruct d.
Qed.

(** A range copied into a fresh destination of its size is the range. *)
Lemma copied_into_blank d a b :
  valid_dataset d -> 0 <= a <= b -> b <= py_len (scenes d) ->
  copied d a b counter_zero (blank (range_counts d a b)) = scene_range d a b.
Proof.
  intros Hv Hab Hb.
  pose proof (range_counts_nonneg d a b Hv Hab) as Hnn.
  assert (Hz : num_els_add counter_zero (range_counts d a b)
               = range_counts d a b)
    by (now destruct (range_counts d a b)).
  assert (Hfit : num_els_le
            (num_els_add counter_zero (range_counts d a b))
            (dataset_lens (blank (range_counts d a b)))).
  { rewrite Hz, dataset_lens_blank by exact Hnn. unfold num_els_le; lia. }
  assert (H0 : num_els_le counter_zero counter_zero)
    by (unfold num_els_le; cbn; lia).
  pose proof (written_part_copied d a b counter_zero _ Hv Hab Hb H0 Hfit) as Hw.
  pose proof (dataset_lens_copied d a b counter_zero _ Hv Hab Hb H0 Hfit) as Hl.
  rewrite dataset_lens_blank in Hl by exact Hnn.
  rewrite Hz in Hw.
  set (C := copied d a b counter_zero (blank (range_counts d a b))) in *.
  rewrite <- (written_part_all C), Hl, Hw.
  apply dataset_append_empty_l.
Qed.

(** One turn of the loop over the cuts. *)
Lemma split_step_valid d output_path cur cuts n si fs :
  valid_dataset d -> Forall has_frames (scenes d) ->
  0 <= cur -> 1 <= n -> cur + n <= py_len (scenes d) ->
  fs !! path_join output_path (name si) = None ->
  step d output_path (cur, cuts) (n, si) fs
  = (<[path_join output_path (name si)
        := Stored (scene_range d cur (cur + n))]> fs,
     Ok (cur + n, cuts ++ [(cur, cur + n)])).
Proof.
  intros Hv Hall Hcur Hn Hfit Hfree.
  pose proof (all_has_frames d Hv Hall) as Hfr.
  assert (Hlt : frame_bound d cur < frame_bound d (cur + n)).
  { pose proof (Hfr cur ltac:(lia)).
    pose proof (frame_bound_mono d Hv (cur + 1) (cur + n) ltac:(lia)). lia. }
  pose proof (range_counts_nonneg d cur (cur + n) Hv ltac:(lia)) as Hnn.
  unfold split_step.
  rewrite (num_els_in_range d Hv) by lia.
  rewrite M_bind_lift_ok.
  erewrite M_bind_ok by (unfold initialize; rewrite Hfree; reflexivity).
  set (path := path_join output_path (name si)) in *.
  set (counts := range_counts d cur (cur + n)) in *.
  assert (Hcopy :
    with_dataset path (_append_zarr_subset d cur (cur + n) None)
      (<[path := Stored (blank counts)]> fs)
    = (<[path := Stored (scene_range d cur (cur + n))]> fs, Ok tt)).
  { unfold with_dataset. rewrite lookup_insert_eq.
    rewrite (append_zarr_subset_fresh d cur (cur + n) (blank counts) Hv).
    - rewrite insert_insert_eq. unfold counts.
      rewrite copied_into_blank by (auto; lia). reflexivity.
    - lia.
    - lia.
    - intros i Hi. apply Hfr. lia.
    - unfold counts. rewrite dataset_lens_blank by exact Hnn.
      unfold num_els_le; lia. }
  erewrite M_bind_ok by exact Hcopy. reflexivity.
Qed.

Lemma split_loop_spec d output_path :
  valid_dataset d -> Forall has_frames (scenes d) ->
  forall (items : list (Z * SplitInfo)) cur cuts fs,
    0 <= cur ->
    Forall (fun it => 1 <= it.1) items ->
    cur + py_sum items.*1 <= py_len (scenes d) ->
    NoDup ((fun it => path_join output_path (name it.2)) <$> items) ->
    Forall (fun it => fs !! path_join output_path (name it.2) = None) items ->
    exists fs',
      for_each (step d output_path) (cur, cuts) items fs
      = (fs', Ok (cur + py_sum items.*1, cuts ++ cuts_from cur items.*1))
      /\ Forall2 (fun it c =>
                    fs' !! path_join output_path (name it.2)
                    = Some (Stored (scene_range d c.1 c.2)))
                 items (cuts_from cur items.*1)
      /\ forall p,
           p ∉ (fun it => path_join output_path (name it.2)) <$> items ->
           fs' !! p = fs !! p.
Proof.
  intros Hv Hall items.
  induction items as [|[n si] items IH]; intros cur cuts fs Hcur Hpos Hfit
    Hnd Hfree.
  - exists fs. cbn. rewrite app_nil_r.
    change (py_sum []) with 0. rewrite Z.add_0_r. auto.
  - change (((n, si) :: items).*1) with (n :: items.*1) in *.
    rewrite fmap_cons in Hnd. cbn [snd] in Hnd.
    apply NoDup_cons in Hnd as (Hnotin & Hnd).
    inversion Hpos as [|? ? Hn Hpos']; subst. cbn [fst] in Hn.
    inversion Hfree as [|? ? Hf Hfree']; subst. cbn [snd] in Hf.
    rewrite py_sum_cons in *.
    assert (Hsum : 0 <= py_sum items.*1).
    { clear -Hpos'. induction items as [|[m ?] items IH];
        [unfold py_sum; simpl; lia |].
      change (((m, s) :: items).*1) with (m :: items.*1).
      inversion Hpos'; subst. rewrite py_sum_cons. cbn in *.
      specialize (IH ltac:(assumption)). lia. }
    destruct (IH (cur + n) (cuts ++ [(cur, cur + n)])
                (<[path_join output_path (name si)
                   := Stored (scene_range d cur (cur + n))]> fs))
      as (fs' & Hloop & Hstored & Hkeep); auto; try lia.
    { rewrite Forall_forall in Hfree' |- *. intros it Hit.
      rewrite lookup_insert_ne; [now apply Hfree' |].
      intros Heq. apply Hnotin. rewrite Heq.
      apply (list_elem_of_fmap_2
               (fun it => path_join output_path (name it.2))), Hit. }
    exists fs'. split; [| split].
    + cbn [for_each].
      erewrite M_bind_ok by (apply split_step_valid; auto; lia).
      rewrite Hloop. cbn [cuts_from]. rewrite <- app_assoc.
      do 3 f_equal. lia.
    + cbn [cuts_from]. constructor; [| exact Hstored].
      cbn [fst snd]. rewrite (Hkeep _ Hnotin).
      now rewrite lookup_insert_eq.
    + intros p Hp. rewrite fmap_cons in Hp. cbn [snd] in Hp.
      apply not_elem_of_cons in Hp as (Hne & Hp).
      rewrite (Hkeep p Hp). now rewrite lookup_insert_ne.
Qed.

End SplitCuts.

Section SplitCoverage.
Context {Agent TlFace : Type}.
Context (blank_scene : Scene) (blank_frame : Frame)
        (blank_agent : Agent) (blank_tl_face : TlFace).
Context (_compute_path_size : string -> Z).
Context (path_join : string -> string -> string).
Local Abbreviation Dataset := (ChunkedDataset Agent TlFace).
Local Abbreviation Store := (gmap string (Entry Agent TlFace)).
Local Abbreviation split :=
  (zarr_split blank_scene blank_frame blank_agent blank_tl_face
              _compute_path_size path_join).
Implicit Types (fs : Store) (d : Dataset).

(** C4 (as amended).  For every source that opens, satisfies the
    invariants of section 3 and whose scenes each have at least one
    frame, and every split spec list whose last budget is −1, whose
    targets (for the specs before the last) are each at least one scene
    and sum below [total_scenes], and whose destinations are distinct
    paths that do not exist, [zarr_split] returns one [(scene_start,
    scene_end)] pair per spec, in spec order; the first pair starts at 0,
    each pair ends where the next begins, the last ends at
    [total_scenes], no pair is empty; the sizes of the pairs are the
    targets followed by all remaining scenes for the sentinel; and each
    destination holds the scenes of its pair. *)
Theorem split_coverage_law fs input_zarr d output_path split_infos l
  size_input_gb num_scenes_output :
  fs !! input_zarr = Some (Stored d) ->
  valid_dataset d -> Forall has_frames (scenes d) ->
  last split_infos = Some l ->
  float_is_minus_one (split_size_GB l) = true ->
  int_true_div (_compute_path_size input_zarr) GIGABYTE = Ok size_input_gb ->
  mapM (scenes_for_split (py_len (scenes d)) size_input_gb)
       (py_slice split_infos 0 (-1)) = Ok num_scenes_output ->
  Forall (fun n => 1 <= n) num_scenes_output ->
  py_sum num_scenes_output < py_len (scenes d) ->
  NoDup ((fun si => path_join output_path (name si)) <$> split_infos) ->
  Forall (fun si => fs !! path_join output_path (name si) = None)
         split_infos ->
  exists fs' cuts,
    split input_zarr output_path split_infos fs = (fs', Ok cuts)
    /\ length cuts = length split_infos
    /\ chain 0 cuts (py_len (scenes d))
    /\ Forall (fun c : Z * Z => c.1 < c.2) cuts
    /\ (fun c : Z * Z => c.2 - c.1) <$> cuts
       = num_scenes_output
           ++ [py_len (scenes d) - py_sum num_scenes_output]
    /\ Forall2 (fun si c =>
                  fs' !! path_join output_path (name si)
                  = Some (Stored (scene_range d c.1 c.2)))
               split_infos cuts.
Proof.
  intros Hopen Hv Hall Hl Hs Hsize Htargets Hpos Hsum Hnd Hfree.
  set (total := py_len (scenes d)) in *.
  set (sizes := num_scenes_output ++ [total - py_sum num_scenes_output]).
  assert (Hlen : length sizes = length split_infos).
  { unfold sizes. rewrite length_app.
    rewrite (length_mapM_result _ _ _ Htargets), py_slice_but_last.
    rewrite length_take. apply last_Some in Hl as (init & ->).
    rewrite length_app. simpl. lia. }
  assert (Hsizes : Forall (fun n => 1 <= n) sizes).
  { unfold sizes. apply Forall_app. split; [exact Hpos |].
    constructor; [lia | constructor]. }
  assert (Hsum' : py_sum sizes = total).
  { unfold sizes. rewrite py_sum_app, py_sum_cons.
    change (py_sum []) with 0. lia. }
  set (items := zip sizes split_infos).
  assert (Hfst : items.*1 = sizes) by (apply fst_zip; lia).
  assert (Hsnd : items.*2 = split_infos) by (apply snd_zip; lia).
  destruct (split_loop_spec blank_scene blank_frame blank_agent
              blank_tl_face path_join d output_path Hv Hall items 0 [] fs)
    as (fs' & Hloop & Hstored & _).
  - lia.
  - apply (Forall_fmap fst (fun n => 1 <= n)). now rewrite Hfst.
  - rewrite Hfst, Hsum'. unfold total. lia.
  - change (NoDup (((fun si => path_join output_path (name si)) ∘ snd)
                     <$> items)).
    rewrite list_fmap_compose, Hsnd. exact Hnd.
  - apply (Forall_fmap snd
             (fun si => fs !! path_join output_path (name si) = None)).
    now rewrite Hsnd.
  - rewrite Hfst in Hloop, Hstored. cbn [app] in Hloop.
    exists fs', (cuts_from 0 sizes). split; [| split; [| split; [| split; [| split]]]].
    + unfold zarr_split.
      erewrite M_bind_ok by (unfold open_dataset; rewrite Hopen; reflexivity).
      rewrite bool_decide_eq_true_2.
      2: { apply last_Some in Hl as (init & ->).
           unfold py_len. rewrite length_app. simpl. lia. }
      rewrite (py_index_last_Some _ _ Hl), M_bind_lift_ok, Hs.
      rewrite Hsize, M_bind_lift_ok. fold total.
      rewrite Htargets, M_bind_lift_ok.
      rewrite bool_decide_eq_true_2 by lia.
      fold sizes. fold items.
      erewrite M_bind_ok by exact Hloop. reflexivity.
    + now rewrite length_cuts_from.
    + rewrite <- Hsum'. apply (chain_cuts_from 0).
      eapply Forall_impl; [exact Hsizes |]. intros; simpl in *; lia.
    + now apply nonempty_cuts_from.
    + apply sizes_cuts_from.
    + rewrite <- Hsnd. apply Forall2_fmap_l. exact Hstored.
Qed.

End SplitCoverage.

Lemma split_coverage_law_witness :
  exists fs' cuts,
    ex_split "a" "dst" [ex_info "p" float_half; ex_info "q" float_m1] ex_store
    = (fs', Ok cuts)
    /\ length cuts = length [ex_info "p" float_half; ex_info "q" float_m1]
    /\ chain 0 cuts (py_len (scenes ds_small))
    /\ Forall (fun c : Z * Z => c.1 < c.2) cuts
    /\ (fun c : Z * Z => c.2 - c.1) <$> cuts
       = [1] ++ [py_len (scenes ds_small) - py_sum [1]]
    /\ Forall2 (fun si c =>
                  fs' !! ex_path_join "dst" (name si)
                  = Some (Stored (scene_range ds_small c.1 c.2)))
               [ex_info "p" float_half; ex_info "q" float_m1] cuts.
Proof.
  apply (split_coverage_law ex_blank_scene ex_blank_frame 0%nat 0%nat
           ex_path_size ex_path_join ex_store "a" ds_small "dst"
           [ex_info "p" float_half; ex_info "q" float_m1]
           (ex_info "q" float_m1)
           (S754_finite false 4503599627370496 (-52)) [1]).
  - vm_compute; reflexivity.
  - by_compute.
  - by_compute.
  - reflexivity.
  - vm_compute; reflexivity.
  - vm_compute; reflexivity.
  - vm_compute; reflexivity.
  - by_compute.
  - vm_compute; reflexivity.
  - by_compute.
  - repeat constructor.
Defined.

(** C4 fails as stated.  First input: a valid source of two scenes and
    a list whose last spec is the sentinel and whose only other target,
    [int(2 * 0.25 / 1.0) = 0], sums below 2; the call fails on the empty
    range [0, 0) and returns no pairs.  Second input: the same kind of
    list with a target of 1, and a valid source whose second scene has no
    frame; the call fails at the second piece. *)
Lemma split_fails_on_empty_piece :
  valid_dataset ds_small
  /\ exactly_last_sentinel [ex_info "p" float_quarter; ex_info "q" float_m1]
  /\ mapM (scenes_for_split (py_len (scenes ds_small))
             (S754_finite false 4503599627370496 (-52)))
          [ex_info "p" float_quarter] = Ok [0]
  /\ py_sum [0] < py_len (scenes ds_small)
  /\ (ex_split "a" "dst" [ex_info "p" float_quarter; ex_info "q" float_m1]
        ex_store).2 = Err PreconditionError
  /\ valid_dataset ds_idle_scene
  /\ mapM (scenes_for_split (py_len (scenes ds_idle_scene))
             (S754_finite false 4503599627370496 (-52)))
          [ex_info "p" float_half] = Ok [1]
  /\ py_sum [1] < py_len (scenes ds_idle_scene)
  /\ (ex_split "a" "dst" [ex_info "p" float_half; ex_info "q" float_m1]
        (ex_store_of ds_idle_scene)).2 = Err IndexError.
Proof.
  split; [by_compute |]. split; [by_compute |].
  split; [vm_compute; reflexivity |]. split; [vm_compute; reflexivity |].
  split; [vm_compute; reflexivity |]. split; [by_compute |].
  split; [vm_compute; reflexivity |]. split; [vm_compute; reflexivity |].
  vm_compute; reflexivity.
Qed.

(** * Further properties *)

(** ** More on the range accountant *)

Section AccountantMore.
Context {Agent TlFace : Type}.
Local Abbreviation Dataset := (ChunkedDataset Agent TlFace).
Implicit Types d src out : Dataset.

(** X1.  On a dataset that satisfies the invariants, the accountant asked
    for the whole dataset, as [zarr_concat] asks it, returns the four
    lengths of the dataset if the dataset has a scene and a frame; without
    a scene its assertion err_case, and with scenes but no frame it raises
    [IndexError]. *)
Theorem accountant_whole_dataset d :
  valid_dataset d ->
  _get_num_els_in_scene_range d 0 (py_len (scenes d))
  = match scenes d, frames d with
    | [], _ => Err PreconditionError
    | _ :: _, [] => Err IndexError
    | _ :: _, _ :: _ => Ok (dataset_lens d)
    end.
Proof.
  intros Hv.
  destruct (scenes d) as [|s ss] eqn:Es.
  { reflexivity. }
  destruct (frames d) as [|f fs] eqn:Ef.
  - unfold _get_num_els_in_scene_range.
    rewrite bool_decide_eq_true_2 by (unfold py_len; simpl; lia).
    rewrite Ef, Es. cbn [py_index py_len length]. 
    rewrite (py_index_lookup (s :: ss) 0 s) by (simpl; auto; lia).
    cbn [mbind result_bind].
    destruct (py_index (s :: ss) _) as [s'|e] eqn:E; cbn [mbind result_bind].
    + now rewrite !py_index_nil.
    + now apply py_index_err in E as ->.
  - rewrite <- Es.
    rewrite (num_els_in_range d Hv 0 (py_len (scenes d))).
    + now rewrite range_counts_all.
    + rewrite Es. unfold py_len; simpl; lia.
    + lia.
    + rewrite frame_bound_len by assumption. rewrite Ef.
      unfold py_len; simpl. change (frame_bound d 0) with 0. lia.
Qed.

(** X2.  On a dataset that satisfies the invariants, the counts of two
    adjacent ranges of scenes add up to the counts of their union, when
    every scene of the union has a frame: asked for [a, b), for [b, c)
    and for [a, c), the accountant returns counts, and the third is the
    key-wise sum of the first two. *)
Theorem accountant_additive d a b c :
  valid_dataset d ->
  0 <= a < b -> b < c -> c <= py_len (scenes d) ->
  Forall has_frames (py_slice (scenes d) a c) ->
  exists n1 n2,
    _get_num_els_in_scene_range d a b = Ok n1
    /\ _get_num_els_in_scene_range d b c = Ok n2
    /\ _get_num_els_in_scene_range d a c = Ok (num_els_add n1 n2).
Proof.
  intros Hv Hab Hbc Hc Hall.
  pose proof (has_frames_in_range d a c Hv ltac:(lia) Hc Hall) as Hstep.
  assert (Hlt : forall i j, a <= i < j -> j <= c ->
                            frame_bound d i < frame_bound d j).
  { intros i j Hij Hj.
    pose proof (Hstep i ltac:(lia)).
    pose proof (frame_bound_mono d Hv (i + 1) j ltac:(lia)). lia. }
  exists (range_counts d a b), (range_counts d b c).
  rewrite !(num_els_in_range d Hv) by (try lia; apply Hlt; lia).
  repeat split. unfold num_els_add, range_counts; cbn. f_equal; f_equal; lia.
Qed.

Local Ltac err_case :=
  split; [split; [intros; discriminate | lia] |];
  split; [intros ? [= <-]; auto | intros; discriminate].

(** X3.  What the accountant can do, on any dataset and any two indices:
    it raises its [AssertionError] exactly when [scene_index_end <=
    scene_index_start]; any other failure is an [IndexError] of one of its
    four reads; and counts it returns have [num_scenes = scene_index_end -
    scene_index_start > 0]. *)
Theorem accountant_outcomes d (scene_index_start scene_index_end : Z) :
  (_get_num_els_in_scene_range d scene_index_start scene_index_end
   = Err PreconditionError <-> scene_index_end <= scene_index_start)
  /\ (forall e,
        _get_num_els_in_scene_range d scene_index_start scene_index_end
        = Err e -> e = PreconditionError \/ e = IndexError)
  /\ (forall n,
        _get_num_els_in_scene_range d scene_index_start scene_index_end
        = Ok n ->
        num_scenes n = scene_index_end - scene_index_start
        /\ 0 < num_scenes n).
Proof.
  unfold _get_num_els_in_scene_range.
  case_bool_decide as Hgt.
  - destruct (py_index (scenes d) scene_index_start) as [s1|e1] eqn:E1;
      cbn [mbind result_bind]; [| apply py_index_err in E1 as ->; err_case ].
    destruct (py_index (scenes d) (scene_index_end - 1)) as [s2|e2] eqn:E2;
      cbn [mbind result_bind]; [| apply py_index_err in E2 as ->; err_case ].
    destruct (py_index (frames d) (frame_index_interval s1).1)
      as [f1|e3] eqn:E3;
      cbn [mbind result_bind]; [| apply py_index_err in E3 as ->; err_case ].
    destruct (py_index (frames d) ((frame_index_interval s2).2 - 1))
      as [f2|e4] eqn:E4;
      cbn [mbind result_bind]; [| apply py_index_err in E4 as ->; err_case ].
    split; [split; [intros; discriminate | lia] |].
    split; [intros; discriminate |].
    intros n [= <-]. cbn. lia.
  - split; [split; [lia | reflexivity] |].
    split; [intros e [= <-]; auto | intros; discriminate].
Qed.

End AccountantMore.

(** ** More on the subset copier *)

Section SpliceLookups.
Context {A : Type}.
Implicit Types (l block : list A).

Lemma py_index_Ok_inv l i x :
  py_index l i = Ok x -> 0 <= i -> l !! Z.to_nat i = Some x.
Proof.
  unfold py_index. cbv zeta. intros H Hi.
  rewrite (bool_decide_eq_false_2 (i < 0)) in H by lia.
  case_bool_decide; [| discriminate].
  destruct (l !! Z.to_nat i); congruence.
Qed.

Lemma zslice_lookup_index l lo hi i x :
  0 <= lo -> 0 <= i < hi - lo -> py_index l (lo + i) = Ok x ->
  zslice l lo hi !! Z.to_nat i = Some x.
Proof.
  intros Hlo Hi Hx. apply py_index_Ok_inv in Hx; [| lia].
  unfold zslice. rewrite slice_lookup by lia.
  now replace (Z.to_nat lo + Z.to_nat i)%nat with (Z.to_nat (lo + i)) by lia.
Qed.

Lemma py_index_zsplice_block l lo block i x :
  0 <= lo -> lo + py_len block <= py_len l -> 0 <= i ->
  block !! Z.to_nat i = Some x ->
  py_index (zsplice l lo block) (lo + i) = Ok x.
Proof.
  intros Hlo Hfit Hi Hx. apply py_index_lookup; [lia |].
  pose proof (lookup_lt_Some _ _ _ Hx) as Hlt.
  unfold zsplice, py_len in *.
  assert (length (take (Z.to_nat lo) l) = Z.to_nat lo) as Hlen
    by (rewrite length_take; lia).
  rewrite lookup_app_r by lia. rewrite Hlen.
  rewrite lookup_app_l by lia.
  now replace (Z.to_nat (lo + i) - Z.to_nat lo)%nat with (Z.to_nat i) by lia.
Qed.

Lemma zsplice_lookup_outside l lo block (i : nat) :
  0 <= lo -> lo + py_len block <= py_len l ->
  Z.of_nat i < lo \/ lo + py_len block <= Z.of_nat i ->
  zsplice l lo block !! i = l !! i.
Proof.
  intros Hlo Hfit Hi. unfold zsplice, py_len in *.
  assert (length (take (Z.to_nat lo) l) = Z.to_nat lo) as Hlen
    by (rewrite length_take; lia).
  destruct Hi as [Hi | Hi].
  - rewrite lookup_app_l by lia. apply lookup_take_lt. lia.
  - rewrite lookup_app_r by lia. rewrite lookup_app_r by lia.
    rewrite lookup_drop, Hlen. f_equal. lia.
Qed.

End SpliceLookups.

Section CopierMore.
Context {Agent TlFace : Type}.
Local Abbreviation Dataset := (ChunkedDataset Agent TlFace).
Implicit Types d src out : Dataset.

(** The copier on a range of a valid dataset whose scenes have frames,
    into a destination with room at the cursors. *)
Lemma copier_on_valid_range src a b cur out n :
  valid_dataset src ->
  0 <= a < b -> b <= py_len (scenes src) ->
  Forall has_frames (py_slice (scenes src) a b) ->
  _get_num_els_in_scene_range src a b = Ok n ->
  num_els_le counter_zero cur ->
  num_els_le (num_els_add cur n) (dataset_lens out) ->
  n = range_counts src a b
  /\ _append_zarr_subset src a b (Some cur) out
     = (copied src a b cur out, Ok tt)
  /\ exists scene frame,
       py_index (scenes src) a = Ok scene
       /\ (frame_index_interval scene).1 = frame_bound src a
       /\ py_index (frames src) (frame_index_interval scene).1 = Ok frame
       /\ (agent_index_interval frame).1
          = agent_bound src (frame_bound src a)
       /\ (traffic_light_faces_index_interval frame).1
          = tl_face_bound src (frame_bound src a).
Proof.
  intros Hv Hab Hb Hall Hn Hcur Hfit.
  pose proof (has_frames_in_range src a b Hv ltac:(lia) Hb Hall) as Hfr.
  pose proof (frame_bound_lt_of_has_frames src a b Hv Hab Hb Hall) as Hlt.
  assert (n = range_counts src a b) as ->
    by (now apply (num_els_in_range_inv src a b n Hv)).
  split; [reflexivity |]. split.
  - now apply append_zarr_subset_valid.
  - destruct (scene_at src Hv a) as (sa & Hsa & Hia); [lia |].
    pose proof (frame_bound_range src Hv a).
    pose proof (frame_bound_range src Hv b).
    destruct (frame_at src Hv (frame_bound src a)) as (fa & Hfa & Haa & Hta);
      [lia |].
    exists sa, fa. rewrite Hia, Haa, Hta. cbn [fst snd].
    repeat split.
    + apply py_index_lookup; [lia | exact Hsa].
    + apply py_index_lookup; [lia | exact Hfa].
Qed.

(** X4.  What the copier writes.  For a source that satisfies the
    invariants, a range [0 <= a < b <= len(scenes)] whose scenes each have
    a frame, and a destination with room for the counts of the range at
    the write offsets: the call returns, and at each level the records of
    the range stand in the destination from the write offset on, in the
    order of the source.  Scenes keep all their fields but the frame
    interval, which is moved by (offset of frames - first frame of the
    range); frames keep all their fields but the two intervals, which are
    moved by (offset of agents - first agent of the range) and (offset of
    faces - first face of the range); agents and faces are copied as they
    are. *)
Theorem copier_writes_rebased_records src a b cur out n :
  valid_dataset src ->
  0 <= a < b -> b <= py_len (scenes src) ->
  Forall has_frames (py_slice (scenes src) a b) ->
  _get_num_els_in_scene_range src a b = Ok n ->
  num_els_le counter_zero cur ->
  num_els_le (num_els_add cur n) (dataset_lens out) ->
  exists out' scene frame,
    _append_zarr_subset src a b (Some cur) out = (out', Ok tt)
    /\ py_index (scenes src) a = Ok scene
    /\ py_index (frames src) (frame_index_interval scene).1 = Ok frame
    /\ (forall i s,
          0 <= i < num_scenes n ->
          py_index (scenes src) (a + i) = Ok s ->
          py_index (scenes out') (num_scenes cur + i)
          = Ok (shift_scene
                  (num_frames cur - (frame_index_interval scene).1) s))
    /\ (forall j f,
          0 <= j < num_frames n ->
          py_index (frames src) ((frame_index_interval scene).1 + j) = Ok f ->
          py_index (frames out') (num_frames cur + j)
          = Ok (shift_frame
                  (num_agents cur - (agent_index_interval frame).1)
                  (num_tl_faces cur
                   - (traffic_light_faces_index_interval frame).1) f))
    /\ (forall m x,
          0 <= m < num_agents n ->
          py_index (agents src) ((agent_index_interval frame).1 + m) = Ok x ->
          py_index (agents out') (num_agents cur + m) = Ok x)
    /\ (forall m x,
          0 <= m < num_tl_faces n ->
          py_index (tl_faces src)
                   ((traffic_light_faces_index_interval frame).1 + m) = Ok x ->
          py_index (tl_faces out') (num_tl_faces cur + m) = Ok x).
Proof.
  intros Hv Hab Hb Hall Hn Hcur Hfit.
  destruct (copier_on_valid_range src a b cur out n Hv Hab Hb Hall Hn Hcur Hfit)
    as (-> & Hcopy & scene & frame & Hs & Hfs & Hf & Has & Hts).
  exists (copied src a b cur out), scene, frame.
  split; [exact Hcopy |]. split; [exact Hs |]. split; [exact Hf |].
  rewrite Hfs, Has, Hts.
  destruct Hcur as (Hs0 & Hf0 & Ha0 & Ht0).
  destruct Hfit as (Cs & Cf & Ca & Ct).
  destruct (range_block_lens src a b Hv ltac:(lia) Hb) as (Ls & Lf & La & Lt).
  pose proof (frame_bound_range src Hv a).
  pose proof (agent_bound_range src Hv (frame_bound src a)).
  pose proof (tl_face_bound_range src Hv (frame_bound src a)).
  cbn in Hs0, Hf0, Ha0, Ht0, Cs, Cf, Ca, Ct.
  cbn [range_counts num_scenes num_frames num_agents num_tl_faces
       copied scenes frames agents tl_faces].
  split; [| split; [| split]].
  - intros i s Hi Hx.
    apply py_index_zsplice_block; rewrite ?py_len_fmap; try lia.
    rewrite list_lookup_fmap.
    now rewrite (zslice_lookup_index _ a b i s) by (auto; lia).
  - intros j f Hj Hx.
    apply py_index_zsplice_block; rewrite ?py_len_fmap; try lia.
    rewrite list_lookup_fmap.
    now rewrite (zslice_lookup_index _ _ _ j f) by (auto; lia).
  - intros m x Hm Hx.
    apply py_index_zsplice_block; try lia.
    now rewrite (zslice_lookup_index _ _ _ m x) by (auto; lia).
  - intros m x Hm Hx.
    apply py_index_zsplice_block; try lia.
    now rewrite (zslice_lookup_index _ _ _ m x) by (auto; lia).
Qed.

(** X5.  What the copier leaves alone.  Under the same conditions, every
    record of the destination outside the four written windows
    [offset, offset + count) is what it was before the call. *)
Theorem copier_leaves_rest_untouched src a b cur out n :
  valid_dataset src ->
  0 <= a < b -> b <= py_len (scenes src) ->
  Forall has_frames (py_slice (scenes src) a b) ->
  _get_num_els_in_scene_range src a b = Ok n ->
  num_els_le counter_zero cur ->
  num_els_le (num_els_add cur n) (dataset_lens out) ->
  exists out',
    _append_zarr_subset src a b (Some cur) out = (out', Ok tt)
    /\ (forall i : nat,
          Z.of_nat i < num_scenes cur
          \/ num_scenes cur + num_scenes n <= Z.of_nat i ->
          scenes out' !! i = scenes out !! i)
    /\ (forall i : nat,
          Z.of_nat i < num_frames cur
          \/ num_frames cur + num_frames n <= Z.of_nat i ->
          frames out' !! i = frames out !! i)
    /\ (forall i : nat,
          Z.of_nat i < num_agents cur
          \/ num_agents cur + num_agents n <= Z.of_nat i ->
          agents out' !! i = agents out !! i)
    /\ (forall i : nat,
          Z.of_nat i < num_tl_faces cur
          \/ num_tl_faces cur + num_tl_faces n <= Z.of_nat i ->
          tl_faces out' !! i = tl_faces out !! i).
Proof.
  intros Hv Hab Hb Hall Hn Hcur Hfit.
  destruct (copier_on_valid_range src a b cur out n Hv Hab Hb Hall Hn Hcur Hfit)
    as (-> & Hcopy & _).
  exists (copied src a b cur out). split; [exact Hcopy |].
  destruct Hcur as (Hs0 & Hf0 & Ha0 & Ht0).
  destruct Hfit as (Cs & Cf & Ca & Ct).
  destruct (range_block_lens src a b Hv ltac:(lia) Hb) as (Ls & Lf & La & Lt).
  cbn in Hs0, Hf0, Ha0, Ht0, Cs, Cf, Ca, Ct.
  cbn [range_counts num_scenes num_frames num_agents num_tl_faces
       copied scenes frames agents tl_faces].
  split; [| split; [| split]]; intros i Hi;
    apply zsplice_lookup_outside; rewrite ?py_len_fmap; lia.
Qed.

End CopierMore.

Section CopierAlways.
Context {Agent TlFace : Type}.
Local Abbreviation Dataset := (ChunkedDataset Agent TlFace).
Implicit Types d src input out : Dataset.

Lemma result_bind_err {A B} (P : error -> Prop) (r : result A)
  (f : A -> result B) :
  (forall e, r = Err e -> P e) -> (forall a e, f a = Err e -> P e) ->
  forall e, r ≫= f = Err e -> P e.
Proof.
  intros Hr Hf e. destruct r as [a|e']; cbn.
  - apply Hf.
  - intros [= <-]. now apply Hr.
Qed.

Lemma read_scene_blocks_err input k e :
  read_scene_blocks input k = Err e -> e = IndexError.
Proof.
  revert e. unfold read_scene_blocks.
  repeat (apply result_bind_err; [apply py_index_err | intros ?]).
  discriminate.
Qed.

Lemma copy_scene_err input off_f off_a off_t cur k out out' e :
  copy_scene input off_f off_a off_t cur k out = (out', Err e) ->
  e = IndexError \/ e = OutOfBoundsError.
Proof.
  unfold copy_scene.
  destruct (read_scene_blocks input k) as [[[[ss fs] ags] ts]|e0] eqn:E0.
  2: { rewrite M_bind_lift_err. intros [= <- <-].
       left. now apply read_scene_blocks_err in E0. }
  rewrite M_bind_lift_ok.
  unfold write_scenes, write_frames, write_agents, write_tl_faces,
    mbind, M_bind, mret, M_ret.
  destruct (write_slice (scenes out) _ _ _) as [l1|] eqn:E1;
    [| intros [= <- <-]; right; now apply write_slice_err in E1].
  cbn [scenes frames agents tl_faces].
  destruct (write_slice (frames out) _ _ _) as [l2|] eqn:E2;
    cbn [scenes frames agents tl_faces];
    [| intros [= <- <-]; right; now apply write_slice_err in E2].
  destruct (write_slice (agents out) _ _ _) as [l3|] eqn:E3;
    cbn [scenes frames agents tl_faces];
    [| intros [= <- <-]; right; now apply write_slice_err in E3].
  destruct (write_slice (tl_faces out) _ _ _) as [l4|] eqn:E4;
    cbn [scenes frames agents tl_faces];
    [| intros [= <- <-]; right; now apply write_slice_err in E4].
  discriminate.
Qed.

Lemma copy_loop_err input off_f off_a off_t l : forall cur out out' e,
  for_each (copy_scene input off_f off_a off_t) cur l out = (out', Err e) ->
  e = IndexError \/ e = OutOfBoundsError.
Proof.
  induction l as [|k l IH]; intros cur out out' e; simpl.
  - discriminate.
  - unfold mbind, M_bind.
    destruct (copy_scene input off_f off_a off_t cur k out)
      as [out1 [cur1|e1]] eqn:E.
    + apply IH.
    + intros [= <- <-]. eapply copy_scene_err; eauto.
Qed.

(** The copier, as its two reads followed by its loop. *)
Lemma append_zarr_subset_unfold input a b offs out :
  _append_zarr_subset input a b offs out
  = match py_index (scenes input) a with
    | Ok scene =>
        match py_index (frames input) (frame_index_interval scene).1 with
        | Ok frame =>
            let cur := match offs with None => counter_zero | Some c => c end in
            let '(out', r) :=
              for_each
                (copy_scene input
                   (num_frames cur - (frame_index_interval scene).1)
                   (num_agents cur - (agent_index_interval frame).1)
                   (num_tl_faces cur
                    - (traffic_light_faces_index_interval frame).1))
                cur (py_range a b) out in
            (out', match r with Ok _ => Ok tt | Err e => Err e end)
        | Err e => (out, Err e)
        end
    | Err e => (out, Err e)
    end.
Proof.
  unfold _append_zarr_subset, append_zarr_subset_cursors, mbind, M_bind, lift.
  destruct (py_index (scenes input) a) as [scene|e]; [| reflexivity].
  cbv beta iota zeta.
  destruct (py_index (frames input) _) as [frame|e]; [| reflexivity].
  destruct (for_each _ _ _ out) as [out' [c|e]]; reflexivity.
Qed.

(** X6.  Whatever its arguments, the copier leaves the four lengths of
    the destination as they are, whether it returns or raises; and when
    it raises, it raises [IndexError] (a read of the source out of range)
    or [OutOfBoundsError] (a refused write), nothing else. *)
Theorem copier_never_resizes input a b offs out :
  dataset_lens (_append_zarr_subset input a b offs out).1 = dataset_lens out
  /\ forall e,
       (_append_zarr_subset input a b offs out).2 = Err e ->
       e = IndexError \/ e = OutOfBoundsError.
Proof.
  rewrite append_zarr_subset_unfold.
  destruct (py_index (scenes input) a) as [scene|e0] eqn:E0.
  2: { split; [reflexivity |]. intros e [= <-].
       left. now apply py_index_err in E0. }
  destruct (py_index (frames input) _) as [frame|e1] eqn:E1.
  2: { split; [reflexivity |]. intros e [= <-].
       left. now apply py_index_err in E1. }
  cbv zeta.
  destruct (for_each _ _ _ out) as [out' r] eqn:E.
  split.
  - cbn [fst]. eapply copy_loop_lens; eauto.
  - cbn [snd]. destruct r as [c|e']; [discriminate |].
    intros e [= <-]. eapply copy_loop_err; eauto.
Qed.

(** X7.  The copier asked for an empty range ([scene_index_end <=
    scene_index_start]) leaves the destination as it is; but it still
    reads the scene at [scene_index_start] and the first frame of that
    scene, so it returns only if both exist and raises [IndexError]
    otherwise, as it does on a source without scenes for every range. *)
Theorem copier_empty_range input a b offs out :
  b <= a ->
  (_append_zarr_subset input a b offs out).1 = out
  /\ ((_append_zarr_subset input a b offs out).2 = Ok tt
      <-> exists scene frame,
            py_index (scenes input) a = Ok scene
            /\ py_index (frames input) (frame_index_interval scene).1
               = Ok frame)
  /\ ((_append_zarr_subset input a b offs out).2 <> Ok tt ->
      (_append_zarr_subset input a b offs out).2 = Err IndexError).
Proof.
  intros Hba. rewrite append_zarr_subset_unfold.
  assert (py_range a b = []) as ->.
  { unfold py_range, seqZ. replace (Z.to_nat (b - a)) with 0%nat by lia.
    reflexivity. }
  destruct (py_index (scenes input) a) as [scene|e0] eqn:E0.
  2: { apply py_index_err in E0 as ->. cbn [fst snd].
       split; [reflexivity |]. split; [| reflexivity].
       split; [discriminate | intros (? & ? & ? & _); discriminate]. }
  destruct (py_index (frames input) _) as [frame|e1] eqn:E1.
  2: { pose proof E1 as E1'. apply py_index_err in E1' as ->. cbn [fst snd].
       split; [reflexivity |]. split; [| reflexivity].
       split; [discriminate |].
       intros (s & f & [= <-] & Hf). congruence. }
  cbn. split; [reflexivity |]. split; [| intros Hne; now destruct Hne].
  split; [| reflexivity]. intros _. eauto.
Qed.

(** X8.  Copying two adjacent ranges one after the other, the second at
    the write offsets the first ends with, is copying their union: for a
    source that satisfies the invariants, [0 <= a < b < c <= len(scenes)]
    with a frame in every scene of [a, c), and a destination with room,
    [_append_zarr_subset] on [a, b) at the offsets [cur] followed by
    [_append_zarr_subset] on [b, c) at [cur] plus the counts of [a, b)
    leaves the destination that one call on [a, c) at [cur] leaves. *)
Theorem copier_adjacent_ranges src a b c cur out n1 n2 :
  valid_dataset src ->
  0 <= a < b -> b < c -> c <= py_len (scenes src) ->
  Forall has_frames (py_slice (scenes src) a c) ->
  _get_num_els_in_scene_range src a b = Ok n1 ->
  _get_num_els_in_scene_range src b c = Ok n2 ->
  num_els_le counter_zero cur ->
  num_els_le (num_els_add (num_els_add cur n1) n2) (dataset_lens out) ->
  (_append_zarr_subset src a b (Some cur);;
   _append_zarr_subset src b c (Some (num_els_add cur n1))) out
  = _append_zarr_subset src a c (Some cur) out
  /\ (_append_zarr_subset src a c (Some cur) out).2 = Ok tt.
Proof.
  intros Hv Hab Hbc Hc Hall Hn1 Hn2 Hcur Hfit.
  pose proof (has_frames_in_range src a c Hv ltac:(lia) Hc Hall) as Hstep.
  assert (Hlt : forall i j, a <= i < j -> j <= c ->
                            frame_bound src i < frame_bound src j).
  { intros i j Hij Hj.
    pose proof (Hstep i ltac:(lia)).
    pose proof (frame_bound_mono src Hv (i + 1) j ltac:(lia)). lia. }
  apply (num_els_in_range_inv src a b n1 Hv) in Hn1;
    [| lia | lia | apply Hlt; lia].
  apply (num_els_in_range_inv src b c n2 Hv) in Hn2;
    [| lia | lia | apply Hlt; lia].
  subst n1 n2.
  destruct Hcur as (Hs0 & Hf0 & Ha0 & Ht0).
  destruct Hfit as (Cs & Cf & Ca & Ct).
  cbn in Hs0, Hf0, Ha0, Ht0, Cs, Cf, Ca, Ct.
  pose proof (frame_bound_range src Hv a).
  pose proof (frame_bound_range src Hv b).
  pose proof (frame_bound_range src Hv c).
  pose proof (Hlt a b ltac:(lia) ltac:(lia)).
  pose proof (Hlt b c ltac:(lia) ltac:(lia)).
  pose proof (agent_bound_range src Hv (frame_bound src a)).
  pose proof (agent_bound_mono src Hv (frame_bound src a) (frame_bound src b)).
  pose proof (agent_bound_mono src Hv (frame_bound src b) (frame_bound src c)).
  pose proof (agent_bound_range src Hv (frame_bound src c)).
  pose proof (tl_face_bound_range src Hv (frame_bound src a)).
  pose proof (tl_face_bound_mono src Hv (frame_bound src a) (frame_bound src b)).
  pose proof (tl_face_bound_mono src Hv (frame_bound src b) (frame_bound src c)).
  pose proof (tl_face_bound_range src Hv (frame_bound src c)).
  destruct (range_block_lens src a b Hv ltac:(lia) ltac:(lia))
    as (Ls & Lf & La & Lt).
  rewrite (append_zarr_subset_valid src a c cur out Hv) ;
    [| lia | lia | intros; apply Hstep; lia
     | unfold num_els_le; cbn; lia | unfold num_els_le; cbn; lia].
  split; [| reflexivity].
  erewrite M_bind_ok; cycle 1.
  { apply (append_zarr_subset_valid src a b cur out Hv);
      [lia | lia | intros; apply Hstep; lia
      | unfold num_els_le; cbn; lia | unfold num_els_le; cbn; lia]. }
  rewrite (append_zarr_subset_valid src b c _ _ Hv);
    [| lia | lia | intros; apply Hstep; lia
     | unfold num_els_le; cbn; lia | ].
  2: { rewrite dataset_lens_copied; auto; try lia;
         unfold num_els_le; cbn; lia. }
  f_equal. unfold copied.
  cbn [range_counts num_els_add num_scenes num_frames num_agents num_tl_faces
       scenes frames agents tl_faces].
  f_equal.
  - rewrite zsplice_zsplice_at by (rewrite ?py_len_fmap; lia).
    replace (num_frames cur + (frame_bound src b - frame_bound src a)
             - frame_bound src b)
      with (num_frames cur - frame_bound src a) by lia.
    rewrite <- fmap_app. unfold zslice. rewrite slice_app by lia.
    reflexivity.
  - rewrite zsplice_zsplice_at by (rewrite ?py_len_fmap; lia).
    replace (num_agents cur
             + (agent_bound src (frame_bound src b)
                - agent_bound src (frame_bound src a))
             - agent_bound src (frame_bound src b))
      with (num_agents cur - agent_bound src (frame_bound src a)) by lia.
    replace (num_tl_faces cur
             + (tl_face_bound src (frame_bound src b)
                - tl_face_bound src (frame_bound src a))
             - tl_face_bound src (frame_bound src b))
      with (num_tl_faces cur - tl_face_bound src (frame_bound src a)) by lia.
    rewrite <- fmap_app. unfold zslice. rewrite slice_app by lia.
    reflexivity.
  - rewrite zsplice_zsplice_at by lia.
    unfold zslice. rewrite slice_app by lia. reflexivity.
  - rewrite zsplice_zsplice_at by lia.
    unfold zslice. rewrite slice_app by lia. reflexivity.
Qed.

End CopierAlways.

(** ** More on [zarr_concat] *)

Section ConcatMore.
Context {Agent TlFace : Type}.
Context (blank_scene : Scene) (blank_frame : Frame)
        (blank_agent : Agent) (blank_tl_face : TlFace).
Local Abbreviation Dataset := (ChunkedDataset Agent TlFace).
Local Abbreviation Store := (gmap string (Entry Agent TlFace)).
Local Abbreviation blank :=
  (blank_dataset blank_scene blank_frame blank_agent blank_tl_face).
Local Abbreviation concat :=
  (zarr_concat blank_scene blank_frame blank_agent blank_tl_face).
Implicit Types (fs : Store) (d acc : Dataset) (out : string).
Implicit Types (w : World Agent TlFace) (log : list string).

Lemma with_dataset_other {A} path (m : M Dataset A) fs p :
  p <> path -> (with_dataset path m fs).1 !! p = fs !! p.
Proof.
  intros Hp. unfold with_dataset.
  destruct (fs !! path) as [[d|]|]; try reflexivity.
  destruct (m d) as [d' r]. cbn [fst]. now rewrite lookup_insert_ne.
Qed.

Lemma concat_step_other out nums cur it fs p :
  p <> out -> (concat_step out nums cur it fs).1 !! p = fs !! p.
Proof.
  intros Hp. destruct it as [idx input_zarr].
  unfold concat_step, mbind, M_bind, open_dataset.
  destruct (fs !! input_zarr) as [[d|]|]; try reflexivity.
  pose proof (with_dataset_other out
                (_append_zarr_subset d 0 (py_len (scenes d)) (Some cur))
                fs p Hp) as Hw.
  destruct (with_dataset out _ fs) as [fs1 [[]|e]]; cbn [fst] in *;
    [| exact Hw].
  unfold lift. destruct (py_index nums idx); exact Hw.
Qed.

Lemma concat_loop_other out nums l p :
  p <> out ->
  forall cur fs, (for_each (concat_step out nums) cur l fs).1 !! p = fs !! p.
Proof.
  intros Hp. induction l as [|it l IH]; intros cur fs; [reflexivity |].
  cbn [for_each]. unfold mbind, M_bind.
  pose proof (concat_step_other out nums cur it fs p Hp) as Hs.
  destruct (concat_step out nums cur it fs) as [fs1 [cur1|e]];
    cbn [fst] in *; [| exact Hs].
  now rewrite IH.
Qed.

(** X9.  [zarr_concat] writes under [output_zarr] and nowhere else: for
    every list of inputs and every state of the disk, whether the call
    returns or raises, what is stored under any other path is what was
    stored before, the inputs included.  And when [output_zarr] exists
    already the call raises at once: nothing is read, written or
    printed. *)
Theorem concat_touches_only_output inputs out w :
  (forall p,
     p <> out ->
     disk (zarr_concat blank_scene blank_frame blank_agent blank_tl_face
             inputs out w).1 !! p
     = disk w !! p)
  /\ (is_Some (disk w !! out) ->
      zarr_concat blank_scene blank_frame blank_agent blank_tl_face
        inputs out w
      = (w, Err AlreadyExistsError)).
Proof.
  destruct w as [fs log]. rewrite zarr_concat_unfold. cbn [disk].
  case_bool_decide as Hex.
  { split; [reflexivity | reflexivity]. }
  split; [| intros; contradiction].
  intros p Hp.
  destruct (scan_inputs_survivors fs inputs ([], []) log log)
    as (r & log1 & _ & H1 & _).
  rewrite H1. destruct r as [[nums valid]|e]; [| reflexivity].
  unfold mbind at 1, M_bind at 1.
  unfold on_disk at 1, initialize. cbn [disk stdout].
  destruct (fs !! out) as [x|] eqn:Eo; [exfalso; apply Hex; eauto |].
  unfold mbind, M_bind.
  rewrite (for_each_on_disk (concat_step out nums)).
  unfold on_disk. cbn [disk stdout].
  pose proof (concat_loop_other out nums (enumerate valid) p Hp counter_zero
                (<[out := Stored (blank (foldl counter_iadd counter_zero nums))]> fs))
    as Hl.
  destruct (for_each (concat_step out nums) counter_zero (enumerate valid) _)
    as [fs2 [c|e]]; cbn [fst disk mret M_ret] in *;
    rewrite Hl; now rewrite lookup_insert_ne.
Qed.

End ConcatMore.

(** ** Appended datasets: frames in every scene, associativity *)

Section AppendMore.
Context {Agent TlFace : Type}.
Local Abbreviation Dataset := (ChunkedDataset Agent TlFace).
Implicit Types (d a b c acc : Dataset) (ds : list Dataset).

Lemma has_frames_shift k (s : Scene) :
  has_frames (shift_scene k s) <-> has_frames s.
Proof. unfold has_frames, shift_scene, shift_interval; cbn. lia. Qed.

Lemma Forall_has_frames_shift k (l : list Scene) :
  Forall has_frames (shift_scene k <$> l) <-> Forall has_frames l.
Proof.
  rewrite Forall_fmap. apply Forall_proper; [| reflexivity].
  intros s. apply has_frames_shift.
Qed.

Lemma has_frames_append a b :
  Forall has_frames (scenes a) -> Forall has_frames (scenes b) ->
  Forall has_frames (scenes (dataset_append a b)).
Proof.
  intros Ha Hb. cbn. apply Forall_app. split; [exact Ha |].
  now apply Forall_has_frames_shift.
Qed.

Lemma populated_append a b :
  Forall has_frames (scenes a) -> populated b ->
  populated (dataset_append a b).
Proof.
  intros Ha (Hne & Hb). split.
  - cbn. destruct (scenes b); [congruence |].
    rewrite fmap_cons. intros H. now apply app_eq_nil in H as (_ & ?).
  - now apply has_frames_append.
Qed.

Lemma foldl_append_has_frames ds : forall acc,
  Forall has_frames (scenes acc) ->
  Forall (fun d => Forall has_frames (scenes d)) ds ->
  Forall has_frames (scenes (foldl dataset_append acc ds)).
Proof.
  induction ds as [|d ds IH]; intros acc Hacc Hds; simpl; auto.
  inversion Hds; subst. apply IH; auto. now apply has_frames_append.
Qed.

Lemma foldl_append_scenes_nonempty ds : forall acc,
  scenes acc <> [] -> scenes (foldl dataset_append acc ds) <> [].
Proof.
  induction ds as [|d ds IH]; intros acc Hacc; simpl; auto.
  apply IH. cbn. intros H. now apply app_eq_nil in H as (? & _).
Qed.

Lemma dataset_concat_populated ds :
  Forall populated ds -> ds <> [] -> populated (dataset_concat ds).
Proof.
  intros Hall Hne. destruct ds as [|d ds]; [congruence |].
  inversion Hall as [|? ? Hd Hds]; subst.
  unfold dataset_concat. cbn [foldl]. split.
  - apply foldl_append_scenes_nonempty.
    apply populated_append; [constructor | exact Hd].
  - apply foldl_append_has_frames.
    + apply has_frames_append; [constructor | apply Hd].
    + eapply Forall_impl; [exact Hds |]. now intros ? (_ & ?).
Qed.

Lemma dataset_append_assoc a b c :
  dataset_append (dataset_append a b) c
  = dataset_append a (dataset_append b c).
Proof.
  unfold dataset_append. cbn [scenes frames agents tl_faces].
  rewrite !py_len_app, !py_len_fmap, !fmap_app, <- !app_assoc.
  rewrite <- !list_fmap_compose.
  assert (Hs : forall l : list Scene,
             shift_scene (py_len (frames a) + py_len (frames b)) <$> l
             = (shift_scene (py_len (frames a))
                ∘ shift_scene (py_len (frames b))) <$> l).
  { intros l. apply list_fmap_ext. intros _ s _. cbn.
    rewrite shift_scene_shift. f_equal. lia. }
  assert (Hf : forall l : list Frame,
             shift_frame (py_len (agents a) + py_len (agents b))
                         (py_len (tl_faces a) + py_len (tl_faces b)) <$> l
             = (shift_frame (py_len (agents a)) (py_len (tl_faces a))
                ∘ shift_frame (py_len (agents b)) (py_len (tl_faces b)))
                 <$> l).
  { intros l. apply list_fmap_ext. intros _ f _. cbn.
    rewrite shift_frame_shift. f_equal; lia. }
  now rewrite Hs, Hf.
Qed.

Lemma dataset_append_empty_r a : dataset_append a empty_dataset = a.
Proof.
  unfold dataset_append, empty_dataset; cbn.
  rewrite !app_nil_r. now destruct a.
Qed.

Lemma foldl_append_concat ds : forall acc,
  foldl dataset_append acc ds = dataset_append acc (dataset_concat ds).
Proof.
  induction ds as [|d ds IH] using rev_ind; intros acc.
  - cbn. now rewrite dataset_append_empty_r.
  - rewrite foldl_snoc, dataset_concat_snoc, IH.
    now rewrite dataset_append_assoc.
Qed.

Lemma dataset_concat_app ds1 ds2 :
  dataset_concat (ds1 ++ ds2)
  = dataset_append (dataset_concat ds1) (dataset_concat ds2).
Proof.
  unfold dataset_concat at 1. rewrite foldl_app.
  apply foldl_append_concat.
Qed.

End AppendMore.

Section ConcatLaws.
Context {Agent TlFace : Type}.
Context (blank_scene : Scene) (blank_frame : Frame)
        (blank_agent : Agent) (blank_tl_face : TlFace).
Local Abbreviation Dataset := (ChunkedDataset Agent TlFace).
Local Abbreviation Store := (gmap string (Entry Agent TlFace)).
Local Abbreviation concat :=
  (zarr_concat blank_scene blank_frame blank_agent blank_tl_face).
Implicit Types (fs : Store) (d acc : Dataset) (out : string).
Implicit Types (w : World Agent TlFace) (log : list string).

Lemma surviving_app fs xs ys :
  surviving fs (xs ++ ys) = surviving fs xs ++ surviving fs ys.
Proof. unfold surviving. apply omap_app. Qed.

Lemma surviving_insert_other fs p (e : Entry Agent TlFace) paths :
  p ∉ paths -> surviving (<[p := e]> fs) paths = surviving fs paths.
Proof.
  induction paths as [|q paths IH]; intros Hp; [reflexivity |].
  rewrite !surviving_cons.
  apply not_elem_of_cons in Hp as (Hq & Hp).
  rewrite lookup_insert_ne by congruence.
  rewrite IH by assumption. reflexivity.
Qed.

Lemma surviving_valid_concat fs paths :
  Forall (fun pd => valid_dataset pd.2 /\ populated pd.2)
         (surviving fs paths) ->
  valid_dataset (dataset_concat (surviving fs paths).*2)
  /\ Forall has_frames (scenes (dataset_concat (surviving fs paths).*2))
  /\ (surviving fs paths <> [] ->
      populated (dataset_concat (surviving fs paths).*2)).
Proof.
  intros Hgood.
  assert (Hv : Forall valid_dataset (surviving fs paths).*2).
  { apply Forall_fmap. eapply Forall_impl; [exact Hgood |]. now intros ? (? & _). }
  assert (Hp : Forall populated (surviving fs paths).*2).
  { apply Forall_fmap. eapply Forall_impl; [exact Hgood |]. now intros ? (_ & ?). }
  split; [| split].
  - apply foldl_append_valid; [apply valid_empty_dataset | exact Hv].
  - apply foldl_append_has_frames; [constructor |].
    eapply Forall_impl; [exact Hp |]. now intros ? (_ & ?).
  - intros Hne. apply dataset_concat_populated; [exact Hp |].
    destruct (surviving fs paths); [congruence | discriminate].
Qed.

(** X10.  What [zarr_concat] leaves under [output_zarr] is a dataset that
    satisfies the invariants of section 3, so that it can be an input of
    [zarr_concat] or [zarr_split] in its turn: when the destination path
    is free and every source that opens satisfies the invariants and has
    a frame in every scene (and has a scene), the call returns, the
    output satisfies the invariants, every scene of the output has a
    frame, each of its four lengths is the sum of the lengths of the
    sources that open, and it has a scene as soon as one source opens. *)
Theorem concat_output_is_valid inputs out fs log :
  fs !! out = None ->
  Forall (fun pd => valid_dataset pd.2 /\ populated pd.2)
         (surviving fs inputs) ->
  exists output w',
    concat inputs out {| disk := fs; stdout := log |} = (w', Ok tt)
    /\ disk w' !! out = Some (Stored output)
    /\ valid_dataset output
    /\ Forall has_frames (scenes output)
    /\ dataset_lens output
       = foldl num_els_add counter_zero
               (dataset_lens <$> (surviving fs inputs).*2)
    /\ (surviving fs inputs <> [] -> populated output).
Proof.
  intros Hout Hgood.
  destruct (surviving_valid_concat fs inputs Hgood) as (Hv & Hf & Hp).
  eexists _, _. split; [| split; [| split; [| split; [| split]]]].
  - apply zarr_concat_spec; [exact Hout |].
    intros p d Hpd. rewrite Forall_forall in Hgood. apply (Hgood _ Hpd).
  - cbn [disk]. apply lookup_insert_eq.
  - exact Hv.
  - exact Hf.
  - change counter_zero with (dataset_lens (@empty_dataset Agent TlFace)).
    now rewrite foldl_num_els_add_lens.
  - exact Hp.
Qed.

(** X11.  Concatenating in two stages gives what concatenating at once
    gives.  With three free paths [o1], [o2], [out], every source of [xs]
    and [ys] that opens valid and populated, and at least one source
    opening in each list: [zarr_concat xs o1], then [zarr_concat ys o2],
    then [zarr_concat [o1; o2] out] all return, and the dataset they
    leave under [out] is the dataset that [zarr_concat (xs ++ ys) out]
    leaves there. *)
Theorem concat_of_concats xs ys o1 o2 out fs log :
  fs !! o1 = None -> fs !! o2 = None -> fs !! out = None ->
  o1 <> o2 -> out <> o1 -> out <> o2 -> o1 ∉ ys ->
  Forall (fun pd => valid_dataset pd.2 /\ populated pd.2)
         (surviving fs (xs ++ ys)) ->
  surviving fs xs <> [] -> surviving fs ys <> [] ->
  exists w1 w2 w3 w,
    concat xs o1 {| disk := fs; stdout := log |} = (w1, Ok tt)
    /\ concat ys o2 w1 = (w2, Ok tt)
    /\ concat [o1; o2] out w2 = (w3, Ok tt)
    /\ concat (xs ++ ys) out {| disk := fs; stdout := log |} = (w, Ok tt)
    /\ disk w3 !! out = disk w !! out
    /\ is_Some (disk w !! out).
Proof.
  intros Ho1 Ho2 Hout H12 Hn1 Hn2 Hys Hgood Hx Hy.
  rewrite surviving_app in Hgood. apply Forall_app in Hgood as (Hgx & Hgy).
  destruct (surviving_valid_concat fs xs Hgx) as (Hv1 & _ & Hp1).
  destruct (surviving_valid_concat fs ys Hgy) as (Hv2 & _ & Hp2).
  specialize (Hp1 Hx). specialize (Hp2 Hy).
  set (D1 := dataset_concat (surviving fs xs).*2) in *.
  set (D2 := dataset_concat (surviving fs ys).*2) in *.
  set (fs1 := <[o1 := Stored D1]> fs).
  set (fs2 := <[o2 := Stored D2]> fs1).
  assert (Hs2 : surviving fs1 ys = surviving fs ys)
    by (now apply surviving_insert_other).
  assert (Hs3 : surviving fs2 [o1; o2] = [(o1, D1); (o2, D2)]).
  { rewrite !surviving_cons. unfold fs2, fs1.
    rewrite lookup_insert_ne by congruence.
    rewrite !lookup_insert_eq. reflexivity. }
  eexists _, _, _, _.
  split; [| split; [| split; [| split; [| split]]]].
  - apply zarr_concat_spec; [exact Ho1 |].
    intros p d Hpd. rewrite Forall_forall in Hgx. apply (Hgx _ Hpd).
  - fold D1. fold fs1. apply zarr_concat_spec.
    + unfold fs1. now rewrite lookup_insert_ne by congruence.
    + rewrite Hs2. intros p d Hpd.
      rewrite Forall_forall in Hgy. apply (Hgy _ Hpd).
  - rewrite Hs2. fold D2. fold fs2. apply zarr_concat_spec.
    + unfold fs2, fs1. now rewrite !lookup_insert_ne by congruence.
    + rewrite Hs3. intros p d Hpd.
      apply elem_of_cons in Hpd as [[= -> ->] | Hpd]; [auto |].
      apply elem_of_cons in Hpd as [[= -> ->] | Hpd]; [auto |].
      now apply elem_of_nil in Hpd.
  - apply zarr_concat_spec; [exact Hout |].
    rewrite surviving_app. intros p d Hpd.
    apply elem_of_app in Hpd as [Hpd | Hpd].
    + rewrite Forall_forall in Hgx. apply (Hgx _ Hpd).
    + rewrite Forall_forall in Hgy. apply (Hgy _ Hpd).
  - cbn [disk]. rewrite !lookup_insert_eq. f_equal. f_equal.
    rewrite Hs3, surviving_app, fmap_app, dataset_concat_app.
    fold D1. fold D2. cbn [fmap list_fmap snd].
    unfold dataset_concat. cbn [foldl].
    now rewrite dataset_append_empty_l.
  - cbn [disk]. rewrite lookup_insert_eq. eauto.
Qed.

End ConcatLaws.

Section ConcatSizing.
Context {Agent TlFace : Type}.
Context (blank_scene : Scene) (blank_frame : Frame)
        (blank_agent : Agent) (blank_tl_face : TlFace).
Local Abbreviation Dataset := (ChunkedDataset Agent TlFace).
Local Abbreviation Store := (gmap string (Entry Agent TlFace)).
Local Abbreviation concat :=
  (zarr_concat blank_scene blank_frame blank_agent blank_tl_face).
Implicit Types (fs : Store) (d acc : Dataset) (out : string).
Implicit Types (w : World Agent TlFace) (log : list string).

Lemma accountant_err d a b e :
  _get_num_els_in_scene_range d a b = Err e ->
  e = PreconditionError \/ e = IndexError.
Proof.
  unfold _get_num_els_in_scene_range.
  case_bool_decide; [| intros [= <-]; auto].
  intros Hr. right. revert e Hr.
  repeat (apply result_bind_err; [apply py_index_err | intros ?]).
  discriminate.
Qed.

Lemma scan_inputs_failure fs inputs :
  forall (lists : list NumEls * list string) log,
    (exists p d e, p ∈ inputs /\ fs !! p = Some (Stored d)
       /\ _get_num_els_in_scene_range d 0 (py_len (scenes d)) = Err e) ->
    exists e log',
      for_each scan_input lists inputs {| disk := fs; stdout := log |}
      = ({| disk := fs; stdout := log' |}, Err e)
      /\ (e = PreconditionError \/ e = IndexError).
Proof.
  induction inputs as [|q inputs IH]; intros lists log (p & d & e & Hp & Hd & He).
  { now apply elem_of_nil in Hp. }
  cbn [for_each].
  destruct (fs !! q) as [[dq|]|] eqn:Eq.
  - destruct (_get_num_els_in_scene_range dq 0 (py_len (scenes dq)))
      as [n|eq] eqn:En.
    + assert (Hin : p ∈ inputs).
      { apply elem_of_cons in Hp as [-> | Hp]; [| exact Hp]. congruence. }
      destruct (IH (lists.1 ++ [n], lists.2 ++ [q]) log) as (e' & log' & H & He');
        [eauto 10 |].
      exists e', log'. split; [| exact He'].
      erewrite M_bind_ok
        by (rewrite (scan_input_opens _ _ _ _ _ Eq), En; reflexivity).
      exact H.
    + exists eq, log. split; [| now apply accountant_err in En].
      erewrite M_bind_err
        by (rewrite (scan_input_opens _ _ _ _ _ Eq), En; reflexivity).
      reflexivity.
  - assert (Hin : p ∈ inputs).
    { apply elem_of_cons in Hp as [-> | Hp]; [| exact Hp]. congruence. }
    destruct (IH lists (log ++ [not_valid_line q])) as (e' & log' & H & He');
      [eauto 10 |].
    exists e', log'. split; [| exact He'].
    erewrite M_bind_ok
      by (apply scan_input_skips; intros d'; rewrite Eq; discriminate).
    exact H.
  - assert (Hin : p ∈ inputs).
    { apply elem_of_cons in Hp as [-> | Hp]; [| exact Hp]. congruence. }
    destruct (IH lists (log ++ [not_valid_line q])) as (e' & log' & H & He');
      [eauto 10 |].
    exists e', log'. split; [| exact He'].
    erewrite M_bind_ok
      by (apply scan_input_skips; intros d'; rewrite Eq; discriminate).
    exact H.
Qed.

(** X12.  The sizing pass of [zarr_concat] is all or nothing.  If one of
    the inputs opens but the accountant raises on it (a dataset without
    scenes, or whose boundary frames do not exist), the call raises the
    accountant's exception, [AssertionError] or [IndexError], before the
    output is created: the disk is what it was, whatever the other
    inputs are. *)
Theorem concat_sizing_failure_writes_nothing inputs out fs log p d e :
  fs !! out = None ->
  p ∈ inputs -> fs !! p = Some (Stored d) ->
  _get_num_els_in_scene_range d 0 (py_len (scenes d)) = Err e ->
  disk (concat inputs out {| disk := fs; stdout := log |}).1 = fs
  /\ ((concat inputs out {| disk := fs; stdout := log |}).2
      = Err PreconditionError
      \/ (concat inputs out {| disk := fs; stdout := log |}).2
         = Err IndexError).
Proof.
  intros Hout Hp Hd He.
  rewrite zarr_concat_unfold.
  rewrite bool_decide_eq_false_2 by (rewrite Hout; apply is_Some_None).
  destruct (scan_inputs_failure fs inputs ([], []) log) as (e' & log' & H & He');
    [eauto 10 |].
  rewrite H. cbn [fst snd disk]. split; [reflexivity |].
  destruct He' as [-> | ->]; auto.
Qed.

End ConcatSizing.

(** ** Ranges of scenes as datasets *)

Section SceneRanges.
Context {Agent TlFace : Type}.
Local Abbreviation Dataset := (ChunkedDataset Agent TlFace).
Implicit Types (d : Dataset).

Lemma scene_range_has_frames d a b :
  Forall has_frames (scenes d) ->
  Forall has_frames (scenes (scene_range d a b)).
Proof.
  intros Hall. cbn. apply Forall_has_frames_shift.
  unfold zslice. now apply Forall_take, Forall_drop.
Qed.

Lemma scene_range_populated d a b :
  valid_dataset d -> 0 <= a < b -> b <= py_len (scenes d) ->
  Forall has_frames (scenes d) ->
  populated (scene_range d a b).
Proof.
  intros Hv Hab Hb Hall. split; [| now apply scene_range_has_frames].
  destruct (range_block_lens d a b Hv ltac:(lia) Hb) as (Ls & _).
  cbn. intros H. apply fmap_nil_inv in H. rewrite H in Ls.
  unfold py_len in Ls; simpl in Ls; lia.
Qed.

Lemma scene_range_nil d a : scene_range d a a = empty_dataset.
Proof.
  unfold scene_range, zslice. rewrite !Z.sub_diag.
  change (Z.to_nat 0) with 0%nat. now rewrite !take_0.
Qed.

(** A range followed by the range that starts where it ends. *)
Lemma scene_range_append d a b c :
  valid_dataset d -> 0 <= a <= b -> b <= c -> c <= py_len (scenes d) ->
  dataset_append (scene_range d a b) (scene_range d b c) = scene_range d a c.
Proof.
  intros Hv Hab Hbc Hc.
  destruct (range_block_lens d a b Hv ltac:(lia) ltac:(lia))
    as (Ls & Lf & La & Lt).
  pose proof (frame_bound_range d Hv a).
  pose proof (frame_bound_mono d Hv a b ltac:(lia)).
  pose proof (frame_bound_mono d Hv b c ltac:(lia)).
  pose proof (agent_bound_range d Hv (frame_bound d a)).
  pose proof (agent_bound_mono d Hv (frame_bound d a) (frame_bound d b)).
  pose proof (agent_bound_mono d Hv (frame_bound d b) (frame_bound d c)).
  pose proof (tl_face_bound_range d Hv (frame_bound d a)).
  pose proof (tl_face_bound_mono d Hv (frame_bound d a) (frame_bound d b)).
  pose proof (tl_face_bound_mono d Hv (frame_bound d b) (frame_bound d c)).
  unfold dataset_append, scene_range.
  cbn [scenes frames agents tl_faces].
  rewrite !py_len_fmap, Lf, La, Lt.
  rewrite <- !list_fmap_compose.
  assert (Hs : forall l : list Scene,
             (shift_scene (frame_bound d b - frame_bound d a)
              ∘ shift_scene (- frame_bound d b)) <$> l
             = shift_scene (- frame_bound d a) <$> l).
  { intros l. apply list_fmap_ext. intros _ s _. cbn.
    rewrite shift_scene_shift. f_equal. lia. }
  assert (Hf : forall l : list Frame,
             (shift_frame
                (agent_bound d (frame_bound d b)
                 - agent_bound d (frame_bound d a))
                (tl_face_bound d (frame_bound d b)
                 - tl_face_bound d (frame_bound d a))
              ∘ shift_frame (- agent_bound d (frame_bound d b))
                            (- tl_face_bound d (frame_bound d b))) <$> l
             = shift_frame (- agent_bound d (frame_bound d a))
                           (- tl_face_bound d (frame_bound d a)) <$> l).
  { intros l. apply list_fmap_ext. intros _ f _. cbn.
    rewrite shift_frame_shift. f_equal; lia. }
  rewrite Hs, Hf, <- !fmap_app. unfold zslice.
  rewrite !slice_app by lia. reflexivity.
Qed.

(** Consecutive ranges that tile [a, b), one after the other. *)
Lemma concat_scene_ranges d :
  valid_dataset d ->
  forall (cuts : list (Z * Z)) a b,
    chain a cuts b -> 0 <= a -> b <= py_len (scenes d) ->
    foldl dataset_append (scene_range d 0 a)
          ((fun c => scene_range d c.1 c.2) <$> cuts)
    = scene_range d 0 b.
Proof.
  intros Hv. induction cuts as [|c cuts IH]; intros a b Hc Ha Hb.
  - cbn in *. now subst.
  - destruct Hc as (H1 & H2 & Hc). pose proof (chain_le _ _ _ Hc).
    rewrite fmap_cons. cbn [foldl]. rewrite <- H1.
    rewrite scene_range_append by (auto; lia).
    apply IH; auto; lia.
Qed.

Lemma dataset_concat_cuts d (cuts : list (Z * Z)) :
  valid_dataset d -> chain 0 cuts (py_len (scenes d)) ->
  dataset_concat ((fun c => scene_range d c.1 c.2) <$> cuts) = d.
Proof.
  intros Hv Hc. unfold dataset_concat.
  rewrite <- (scene_range_nil d 0).
  rewrite (concat_scene_ranges d Hv cuts 0 (py_len (scenes d))) by (auto; lia).
  now apply scene_range_all.
Qed.

End SceneRanges.

(** ** More on [zarr_split] *)

Lemma cuts_from_within cur sizes total :
  0 <= cur -> Forall (fun n => 1 <= n) sizes -> cur + py_sum sizes <= total ->
  Forall (fun c : Z * Z => 0 <= c.1 < c.2 /\ c.2 <= total)
         (cuts_from cur sizes).
Proof.
  revert cur; induction sizes as [|n sizes IH]; intros cur Hc Hs Ht; simpl.
  - constructor.
  - inversion Hs; subst. rewrite py_sum_cons in Ht.
    assert (0 <= py_sum sizes).
    { clear -H2. induction sizes as [|m sizes IH'].
      - unfold py_sum; simpl; lia.
      - inversion H2; subst. rewrite py_sum_cons. specialize (IH' H3). lia. }
    constructor; [cbn; lia |]. apply IH; auto; lia.
Qed.

Section SplitMore.
Context {Agent TlFace : Type}.
Context (blank_scene : Scene) (blank_frame : Frame)
        (blank_agent : Agent) (blank_tl_face : TlFace).
Context (_compute_path_size : string -> Z).
Context (path_join : string -> string -> string).
Local Abbreviation Dataset := (ChunkedDataset Agent TlFace).
Local Abbreviation Store := (gmap string (Entry Agent TlFace)).
Local Abbreviation split :=
  (zarr_split blank_scene blank_frame blank_agent blank_tl_face
              _compute_path_size path_join).
Local Abbreviation step :=
  (split_step blank_scene blank_frame blank_agent blank_tl_face path_join).
Local Abbreviation concat :=
  (zarr_concat blank_scene blank_frame blank_agent blank_tl_face).
Local Abbreviation init :=
  (initialize blank_scene blank_frame blank_agent blank_tl_face).
Implicit Types (fs : Store) (d : Dataset).

Lemma initialize_other path c fs p :
  p <> path -> (init path c fs).1 !! p = fs !! p.
Proof.
  intros Hp. unfold initialize.
  destruct (fs !! path); [reflexivity |].
  cbn [fst]. now rewrite lookup_insert_ne.
Qed.

Lemma split_step_other d output_path acc it fs p :
  p <> path_join output_path (name it.2) ->
  (step d output_path acc it fs).1 !! p = fs !! p.
Proof.
  intros Hp. destruct acc as [cur cuts], it as [n si]. cbn [snd] in Hp.
  unfold split_step, mbind, M_bind, lift.
  destruct (_get_num_els_in_scene_range d cur (cur + n)) as [c|e];
    [| reflexivity].
  pose proof (initialize_other (path_join output_path (name si)) c fs p Hp)
    as Hi.
  destruct (init _ c fs) as [fs1 [[]|e]]; cbn [fst] in *; [| exact Hi].
  pose proof (with_dataset_other (path_join output_path (name si))
                (_append_zarr_subset d cur (cur + n) None) fs1 p Hp) as Hw.
  destruct (with_dataset _ _ fs1) as [fs2 [[]|e]]; cbn [fst mret M_ret] in *;
    rewrite Hw; exact Hi.
Qed.

Lemma split_loop_other d output_path p :
  forall (items : list (Z * SplitInfo)) acc fs,
    Forall (fun it => p <> path_join output_path (name it.2)) items ->
    (for_each (step d output_path) acc items fs).1 !! p = fs !! p.
Proof.
  induction items as [|it items IH]; intros acc fs Hp; [reflexivity |].
  inversion Hp as [|? ? Hit Hrest]; subst.
  cbn [for_each]. unfold mbind, M_bind.
  pose proof (split_step_other d output_path acc it fs p Hit) as Hs.
  destruct (step d output_path acc it fs) as [fs1 [acc1|e]];
    cbn [fst] in *; [| exact Hs].
  now rewrite IH.
Qed.

Lemma zarr_split_other input_zarr output_path split_infos fs p :
  p ∉ (fun si => path_join output_path (name si)) <$> split_infos ->
  (split input_zarr output_path split_infos fs).1 !! p = fs !! p.
Proof.
  intros Hp. unfold zarr_split, mbind, M_bind, open_dataset, lift, raise.
  destruct (fs !! input_zarr) as [[d|]|]; try reflexivity.
  case_bool_decide; [| reflexivity].
  destruct (py_index split_infos (-1)) as [l|e]; [| reflexivity].
  destruct (float_is_minus_one (split_size_GB l)); [| reflexivity].
  destruct (int_true_div _ _) as [g|e]; [| reflexivity].
  destruct (mapM _ _) as [sizes|e]; [| reflexivity].
  case_bool_decide; [| reflexivity].
  match goal with
  | |- context [for_each ?b ?a ?l fs] =>
      pose proof (split_loop_other d output_path p l a fs) as Hl;
      destruct (for_each b a l fs) as [fs1 [[c cuts]|e]]
  end; cbn [fst] in *; apply Hl.
  - apply Forall_forall. intros [n si] Hin Heq.
    apply elem_of_zip_r in Hin. apply Hp.
    apply list_elem_of_fmap. exists si. auto.
  - apply Forall_forall. intros [n si] Hin Heq.
    apply elem_of_zip_r in Hin. apply Hp.
    apply list_elem_of_fmap. exists si. auto.
Qed.

(** X13.  [zarr_split] writes under the paths [output_path / name] of its
    pieces and nowhere else: for every input, every list of pieces and
    every state of the disk, whether the call returns or raises, what is
    stored under any other path is what was stored before. *)
Theorem split_touches_only_pieces input_zarr output_path split_infos fs p :
  p ∉ (fun si => path_join output_path (name si)) <$> split_infos ->
  (zarr_split blank_scene blank_frame blank_agent blank_tl_face
     _compute_path_size path_join input_zarr output_path split_infos fs).1
    !! p
  = fs !! p.
Proof. apply zarr_split_other. Qed.

(** A call of [zarr_split] that goes through. *)
Lemma zarr_split_spec fs input_zarr d output_path split_infos l
  size_input_gb num_scenes_output :
  fs !! input_zarr = Some (Stored d) ->
  valid_dataset d -> Forall has_frames (scenes d) ->
  last split_infos = Some l ->
  float_is_minus_one (split_size_GB l) = true ->
  int_true_div (_compute_path_size input_zarr) GIGABYTE = Ok size_input_gb ->
  mapM (scenes_for_split (py_len (scenes d)) size_input_gb)
       (py_slice split_infos 0 (-1)) = Ok num_scenes_output ->
  Forall (fun n => 1 <= n) num_scenes_output ->
  py_sum num_scenes_output < py_len (scenes d) ->
  NoDup ((fun si => path_join output_path (name si)) <$> split_infos) ->
  Forall (fun si => fs !! path_join output_path (name si) = None)
         split_infos ->
  exists fs' cuts,
    split input_zarr output_path split_infos fs = (fs', Ok cuts)
    /\ cuts = cuts_from 0 (num_scenes_output
                ++ [py_len (scenes d) - py_sum num_scenes_output])
    /\ length cuts = length split_infos
    /\ chain 0 cuts (py_len (scenes d))
    /\ Forall (fun c : Z * Z => 0 <= c.1 < c.2 /\ c.2 <= py_len (scenes d))
              cuts
    /\ Forall2 (fun si c =>
                  fs' !! path_join output_path (name si)
                  = Some (Stored (scene_range d c.1 c.2)))
               split_infos cuts
    /\ forall p,
         p ∉ (fun si => path_join output_path (name si)) <$> split_infos ->
         fs' !! p = fs !! p.
Proof.
  intros Hopen Hv Hall Hl Hs Hsize Htargets Hpos Hsum Hnd Hfree.
  set (total := py_len (scenes d)) in *.
  set (sizes := num_scenes_output ++ [total - py_sum num_scenes_output]).
  assert (Hlen : length sizes = length split_infos).
  { unfold sizes. rewrite length_app.
    rewrite (length_mapM_result _ _ _ Htargets), py_slice_but_last.
    rewrite length_take. apply last_Some in Hl as (init' & ->).
    rewrite length_app. simpl. lia. }
  assert (Hsizes : Forall (fun n => 1 <= n) sizes).
  { unfold sizes. apply Forall_app. split; [exact Hpos |].
    constructor; [lia | constructor]. }
  assert (Hsum' : py_sum sizes = total).
  { unfold sizes. rewrite py_sum_app, py_sum_cons.
    change (py_sum []) with 0. lia. }
  set (items := zip sizes split_infos).
  assert (Hfst : items.*1 = sizes) by (apply fst_zip; lia).
  assert (Hsnd : items.*2 = split_infos) by (apply snd_zip; lia).
  destruct (split_loop_spec blank_scene blank_frame blank_agent
              blank_tl_face path_join d output_path Hv Hall items 0 [] fs)
    as (fs' & Hloop & Hstored & Hother).
  - lia.
  - apply (Forall_fmap fst (fun n => 1 <= n)). now rewrite Hfst.
  - rewrite Hfst, Hsum'. unfold total. lia.
  - change (NoDup (((fun si => path_join output_path (name si)) ∘ snd)
                     <$> items)).
    rewrite list_fmap_compose, Hsnd. exact Hnd.
  - apply (Forall_fmap snd
             (fun si => fs !! path_join output_path (name si) = None)).
    now rewrite Hsnd.
  - rewrite Hfst in Hloop, Hstored. cbn [app] in Hloop.
    assert (Hchain : chain 0 (cuts_from 0 sizes) total).
    { rewrite <- Hsum'. apply (chain_cuts_from 0).
      eapply Forall_impl; [exact Hsizes |]. intros; simpl in *; lia. }
    exists fs', (cuts_from 0 sizes).
    split; [| split; [| split; [| split; [| split; [| split]]]]].
    + unfold zarr_split.
      erewrite M_bind_ok by (unfold open_dataset; rewrite Hopen; reflexivity).
      rewrite bool_decide_eq_true_2.
      2: { apply last_Some in Hl as (init' & ->).
           unfold py_len. rewrite length_app. simpl. lia. }
      rewrite (py_index_last_Some _ _ Hl), M_bind_lift_ok, Hs.
      rewrite Hsize, M_bind_lift_ok. fold total.
      rewrite Htargets, M_bind_lift_ok.
      rewrite bool_decide_eq_true_2 by lia.
      fold sizes. fold items.
      erewrite M_bind_ok by exact Hloop. reflexivity.
    + reflexivity.
    + now rewrite length_cuts_from.
    + exact Hchain.
    + apply cuts_from_within; [lia | exact Hsizes | lia].
    + rewrite <- Hsnd. apply Forall2_fmap_l. exact Hstored.
    + intros p Hp. apply Hother.
      change (p ∉ ((fun si => path_join output_path (name si)) ∘ snd)
                     <$> items).
      now rewrite list_fmap_compose, Hsnd.
Qed.

Lemma surviving_all_stored fs (paths : list string) (ds : list Dataset) :
  Forall2 (fun p d => fs !! p = Some (Stored d)) paths ds ->
  surviving fs paths = zip paths ds /\ skipped fs paths = [].
Proof.
  induction 1 as [|p d paths ds Hp _ (IH1 & IH2)]; [split; reflexivity |].
  rewrite surviving_cons, skipped_cons, Hp, IH1, IH2. split; reflexivity.
Qed.

(** X14.  The pieces [zarr_split] writes are datasets in their own
    right.  For an input that opens, satisfies the invariants and has a
    frame in every scene, and a list of pieces that passes the checks
    (last budget -1, every other target at least one scene, the targets
    summing below the number of scenes, distinct destinations that do
    not exist): the call returns, and the piece stored for each cut
    [(start, end)] holds the scenes [start, ..., end - 1] of the input,
    satisfies the invariants, has a scene and a frame in every scene, and
    its four lengths are the counts the accountant gives for the cut. *)
Theorem split_pieces_are_datasets fs input_zarr d output_path split_infos l
  size_input_gb num_scenes_output :
  fs !! input_zarr = Some (Stored d) ->
  valid_dataset d -> Forall has_frames (scenes d) ->
  last split_infos = Some l ->
  float_is_minus_one (split_size_GB l) = true ->
  int_true_div (_compute_path_size input_zarr) GIGABYTE = Ok size_input_gb ->
  mapM (scenes_for_split (py_len (scenes d)) size_input_gb)
       (py_slice split_infos 0 (-1)) = Ok num_scenes_output ->
  Forall (fun n => 1 <= n) num_scenes_output ->
  py_sum num_scenes_output < py_len (scenes d) ->
  NoDup ((fun si => path_join output_path (name si)) <$> split_infos) ->
  Forall (fun si => fs !! path_join output_path (name si) = None)
         split_infos ->
  exists fs' cuts,
    split input_zarr output_path split_infos fs = (fs', Ok cuts)
    /\ Forall2 (fun si c =>
                  exists piece,
                    fs' !! path_join output_path (name si)
                    = Some (Stored piece)
                    /\ piece = scene_range d c.1 c.2
                    /\ valid_dataset piece
                    /\ populated piece
                    /\ _get_num_els_in_scene_range d c.1 c.2
                       = Ok (dataset_lens piece))
               split_infos cuts.
Proof.
  intros Hopen Hv Hall Hl Hs Hsize Htargets Hpos Hsum Hnd Hfree.
  destruct (zarr_split_spec fs input_zarr d output_path split_infos l
              size_input_gb num_scenes_output)
    as (fs' & cuts & Hsplit & _ & _ & _ & Hin & Hstored & _); auto.
  exists fs', cuts. split; [exact Hsplit |].
  apply Forall2_same_length_lookup. split.
  { now apply Forall2_length in Hstored. }
  intros i si c Hsi Hc.
  pose proof (Forall2_lookup_lr _ _ _ _ _ _ Hstored Hsi Hc) as Hst.
  rewrite Forall_forall in Hin.
  destruct (Hin c) as ((Hc0 & Hc1) & Hc2);
    [eapply list_elem_of_lookup_2; exact Hc |].
  exists (scene_range d c.1 c.2).
  split; [exact Hst |]. split; [reflexivity |].
  split; [apply valid_scene_range; auto; lia |].
  split; [apply scene_range_populated; auto; lia |].
  rewrite dataset_lens_scene_range by (auto; lia).
  apply num_els_in_range; auto; try lia.
  pose proof (all_has_frames d Hv Hall c.1 ltac:(lia)).
  pose proof (frame_bound_mono d Hv (c.1 + 1) c.2 ltac:(lia)). lia.
Qed.

(** X15.  Splitting and concatenating the pieces gives the input back.
    Under the conditions of a split that goes through, [zarr_concat] on
    the paths of the pieces, in the order of [split_infos], into a free
    path that is not one of the pieces, returns without printing, and
    the dataset it writes is the input dataset of the split, record for
    record. *)
Theorem split_then_concat_round_trip fs log input_zarr d output_path
  split_infos l size_input_gb num_scenes_output out :
  fs !! input_zarr = Some (Stored d) ->
  valid_dataset d -> Forall has_frames (scenes d) ->
  last split_infos = Some l ->
  float_is_minus_one (split_size_GB l) = true ->
  int_true_div (_compute_path_size input_zarr) GIGABYTE = Ok size_input_gb ->
  mapM (scenes_for_split (py_len (scenes d)) size_input_gb)
       (py_slice split_infos 0 (-1)) = Ok num_scenes_output ->
  Forall (fun n => 1 <= n) num_scenes_output ->
  py_sum num_scenes_output < py_len (scenes d) ->
  NoDup ((fun si => path_join output_path (name si)) <$> split_infos) ->
  Forall (fun si => fs !! path_join output_path (name si) = None)
         split_infos ->
  fs !! out = None ->
  out ∉ (fun si => path_join output_path (name si)) <$> split_infos ->
  exists fs' cuts,
    split input_zarr output_path split_infos fs = (fs', Ok cuts)
    /\ concat ((fun si => path_join output_path (name si)) <$> split_infos)
         out {| disk := fs'; stdout := log |}
       = ({| disk := <[out := Stored d]> fs'; stdout := log |}, Ok tt).
Proof.
  intros Hopen Hv Hall Hl Hs Hsize Htargets Hpos Hsum Hnd Hfree Hout Hnotin.
  destruct (zarr_split_spec fs input_zarr d output_path split_infos l
              size_input_gb num_scenes_output)
    as (fs' & cuts & Hsplit & _ & Hlen & Hchain & Hin & Hstored & Hother);
    auto.
  exists fs', cuts. split; [exact Hsplit |].
  set (paths := (fun si => path_join output_path (name si)) <$> split_infos).
  set (pieces := (fun c : Z * Z => scene_range d c.1 c.2) <$> cuts).
  assert (Hall2 : Forall2 (fun p x => fs' !! p = Some (Stored x)) paths pieces).
  { unfold paths, pieces. apply Forall2_fmap. exact Hstored. }
  destruct (surviving_all_stored fs' paths pieces Hall2) as (Hsurv & Hskip).
  assert (Hsnd : (zip paths pieces).*2 = pieces).
  { apply snd_zip. unfold paths, pieces. rewrite !length_fmap. lia. }
  rewrite (zarr_concat_spec _ _ _ _ _ _ fs' log).
  - rewrite Hsurv, Hskip, Hsnd, app_nil_r.
    unfold pieces. now rewrite dataset_concat_cuts.
  - rewrite Hother by exact Hnotin. exact Hout.
  - rewrite Hsurv. intros p x Hpx.
    assert (x ∈ pieces) as Hx.
    { rewrite <- Hsnd. apply list_elem_of_fmap. exists (p, x). auto. }
    unfold pieces in Hx. apply list_elem_of_fmap in Hx as (c & -> & Hc).
    rewrite Forall_forall in Hin. destruct (Hin c Hc) as ((? & ?) & ?).
    split; [apply valid_scene_range; auto; lia |].
    apply scene_range_populated; auto; lia.
Qed.

(** X16.  A split in one piece is a copy.  With [split_infos] holding
    the sentinel entry alone, an input that opens, satisfies the
    invariants, has a scene and a frame in every scene, and a destination
    that does not exist: [zarr_split] returns the single cut
    [(0, len(scenes))] and the piece it writes is the input dataset,
    whatever the size of the input on disk. *)
Theorem split_sentinel_only fs input_zarr d output_path si size_input_gb :
  fs !! input_zarr = Some (Stored d) ->
  valid_dataset d -> populated d ->
  float_is_minus_one (split_size_GB si) = true ->
  int_true_div (_compute_path_size input_zarr) GIGABYTE = Ok size_input_gb ->
  fs !! path_join output_path (name si) = None ->
  split input_zarr output_path [si] fs
  = (<[path_join output_path (name si) := Stored d]> fs,
     Ok [(0, py_len (scenes d))]).
Proof.
  intros Hopen Hv Hpop Hs Hsize Hfree.
  pose proof (populated_len d Hpop) as Hn. destruct Hpop as (_ & Hall).
  assert (Hsum : py_sum [] < py_len (scenes d))
    by (unfold py_sum; simpl; lia).
  assert (Hnd : NoDup ((fun si => path_join output_path (name si)) <$> [si]))
    by (cbn; apply NoDup_singleton).
  assert (Hmap : mapM (scenes_for_split (py_len (scenes d)) size_input_gb)
                      (py_slice [si] 0 (-1)) = Ok [])
    by (now rewrite py_slice_but_last).
  destruct (zarr_split_spec fs input_zarr d output_path [si] si
              size_input_gb [] Hopen Hv Hall eq_refl Hs Hsize Hmap
              ltac:(constructor) Hsum Hnd ltac:(repeat constructor; exact Hfree))
    as (fs' & cuts & Hsplit & Hcuts & _ & _ & _ & Hstored & Hother).
  - rewrite Hsplit. cbn in Hcuts. change (py_sum []) with 0 in Hcuts.
    rewrite Z.sub_0_r, Z.add_0_l in Hcuts. subst cuts.
    f_equal.
    apply Forall2_cons_1 in Hstored as (Hst & _). cbn [fst snd] in Hst.
    rewrite (scene_range_all d Hv) in Hst.
    apply map_eq. intros p.
    destruct (decide (p = path_join output_path (name si))) as [-> | Hp].
    + now rewrite lookup_insert_eq.
    + rewrite lookup_insert_ne by congruence.
      apply Hother. cbn. rewrite list_elem_of_singleton. exact Hp.
Qed.

(** X17.  An input whose directory weighs nothing cannot be cut in more
    than one piece: when [_compute_path_size] gives 0 for an input that
    opens, [split_infos] ends with the sentinel and has at least two
    entries, and the number of scenes converts to a float, the division
    by [size_input_gb] raises [ZeroDivisionError]; nothing has been
    written. *)
Theorem split_zero_size fs input_zarr d output_path split_infos l x :
  fs !! input_zarr = Some (Stored d) ->
  last split_infos = Some l ->
  float_is_minus_one (split_size_GB l) = true ->
  (2 <= length split_infos)%nat ->
  _compute_path_size input_zarr = 0 ->
  float_of_int (py_len (scenes d)) = Ok x ->
  split input_zarr output_path split_infos fs = (fs, Err ZeroDivisionError).
Proof.
  intros Hopen Hl Hs Hlen Hsize Hx.
  unfold zarr_split.
  erewrite M_bind_ok by (unfold open_dataset; rewrite Hopen; reflexivity).
  rewrite bool_decide_eq_true_2 by (unfold py_len; lia).
  rewrite (py_index_last_Some _ _ Hl), M_bind_lift_ok, Hs.
  rewrite Hsize.
  change (int_true_div 0 GIGABYTE) with (Ok (S754_zero false) : result float64).
  rewrite M_bind_lift_ok.
  rewrite py_slice_but_last.
  destruct split_infos as [|si0 [|si1 rest]]; cbn [length] in Hlen; try lia.
  replace (length (si0 :: si1 :: rest) - 1)%nat
    with (S (length rest)) by (cbn [length]; lia).
  assert (Hdiv : forall si,
            scenes_for_split (py_len (scenes d)) (S754_zero false) si
            = Err ZeroDivisionError)
    by (intros si; unfold scenes_for_split; now rewrite Hx).
  cbn [take mapM]. rewrite Hdiv. reflexivity.
Qed.

End SplitMore.

(** ** Reading a scene of a piece *)





Section PieceBounds.
Context {Agent TlFace : Type}.
Local Abbreviation Dataset := (ChunkedDataset Agent TlFace).
Implicit Types (d : Dataset).





End PieceBounds.

(** ** What the test of [zarr_split] compares *)

Section SplitScenes.
Context {Agent TlFace : Type}.
Context (blank_scene : Scene) (blank_frame : Frame)
        (blank_agent : Agent) (blank_tl_face : TlFace).
Context (_compute_path_size : string -> Z).
Context (path_join : string -> string -> string).
Local Abbreviation Dataset := (ChunkedDataset Agent TlFace).
Local Abbreviation Store := (gmap string (Entry Agent TlFace)).
Local Abbreviation split :=
  (zarr_split blank_scene blank_frame blank_agent blank_tl_face
              _compute_path_size path_join).
Implicit Types (fs : Store) (d : Dataset).


End SplitScenes.

(** ** [_compute_path_size] *)

Section PathSizeProps.
Import PathSize.

Lemma glob_all_directory entries :
  py_sum (omap size_if_file (glob_all (Directory entries)))
  = py_sum (entry_weight <$> entries).
Proof.
  cbn [glob_all].
  induction entries as [|f entries IH]; [reflexivity |].
  cbn [flat_map]. rewrite fmap_cons, py_sum_cons, <- IH.
  change (f :: glob_all f ++ flat_map (fun f => f :: glob_all f) entries)
    with ((f :: glob_all f) ++ flat_map (fun f => f :: glob_all f) entries).
  rewrite omap_app, py_sum_app. f_equal.
  destruct f as [sz|es|].
  - cbn. unfold py_sum; simpl; lia.
  - reflexivity.
  - reflexivity.
Qed.

(** X19.  [_compute_path_size] counts the regular files at every depth
    under a directory and nothing else.  For a path that is a directory
    the result is the sum, over the entries of the directory, of the
    size of the entry if it is a regular file, of the result for the
    entry if it is a directory, and of 0 otherwise; for a path that is
    not a directory (a missing path, but also a regular file, whatever
    its size) the result is 0. *)
Theorem compute_path_size_counts_nested_files file_system path :
  _compute_path_size file_system path
  = match file_system path with
    | Some (Directory entries) => py_sum (entry_weight <$> entries)
    | _ => 0
    end
  /\ forall f,
       entry_weight f
       = match f with
         | RegularFile st_size => st_size
         | Directory _ => _compute_path_size (fun _ => Some f) path
         | OtherEntry => 0
         end.
Proof.
  split.
  - unfold _compute_path_size.
    destruct (file_system path) as [[sz|entries|]|]; try reflexivity.
    apply glob_all_directory.
  - intros [sz|entries|]; reflexivity.
Qed.

End PathSizeProps.

(** ** Instances of the further properties *)

Lemma accountant_whole_dataset_witness :
  _get_num_els_in_scene_range ds_small 0 (py_len (scenes ds_small))
  = Ok (dataset_lens ds_small).
Proof.
  apply (accountant_whole_dataset ds_small). by_compute.
Defined.

Lemma accountant_additive_witness :
  exists n1 n2,
    _get_num_els_in_scene_range ds_small 0 1 = Ok n1
    /\ _get_num_els_in_scene_range ds_small 1 2 = Ok n2
    /\ _get_num_els_in_scene_range ds_small 0 2 = Ok (num_els_add n1 n2).
Proof.
  apply (accountant_additive ds_small 0 1 2).
  - by_compute.
  - lia.
  - lia.
  - by_compute.
  - by_compute.
Defined.

Lemma copier_writes_rebased_records_witness :
  exists out' scene frame,
    _append_zarr_subset ds_small 0 2 (Some ex_counts_small) ex_dest
    = (out', Ok tt)
    /\ py_index (scenes ds_small) 0 = Ok scene
    /\ py_index (frames ds_small) (frame_index_interval scene).1 = Ok frame
    /\ (forall i s,
          0 <= i < num_scenes ex_counts_small ->
          py_index (scenes ds_small) (0 + i) = Ok s ->
          py_index (scenes out') (num_scenes ex_counts_small + i)
          = Ok (shift_scene
                  (num_frames ex_counts_small
                   - (frame_index_interval scene).1) s))
    /\ (forall j f,
          0 <= j < num_frames ex_counts_small ->
          py_index (frames ds_small) ((frame_index_interval scene).1 + j)
          = Ok f ->
          py_index (frames out') (num_frames ex_counts_small + j)
          = Ok (shift_frame
                  (num_agents ex_counts_small
                   - (agent_index_interval frame).1)
                  (num_tl_faces ex_counts_small
                   - (traffic_light_faces_index_interval frame).1) f))
    /\ (forall m x,
          0 <= m < num_agents ex_counts_small ->
          py_index (agents ds_small) ((agent_index_interval frame).1 + m)
          = Ok x ->
          py_index (agents out') (num_agents ex_counts_small + m) = Ok x)
    /\ (forall m x,
          0 <= m < num_tl_faces ex_counts_small ->
          py_index (tl_faces ds_small)
                   ((traffic_light_faces_index_interval frame).1 + m) = Ok x ->
          py_index (tl_faces out') (num_tl_faces ex_counts_small + m) = Ok x).
Proof.
  apply (copier_writes_rebased_records ds_small 0 2 ex_counts_small ex_dest
           ex_counts_small).
  - by_compute.
  - lia.
  - by_compute.
  - by_compute.
  - vm_compute; reflexivity.
  - by_compute.
  - by_compute.
Defined.

Lemma copier_leaves_rest_untouched_witness :
  exists out',
    _append_zarr_subset ds_small 0 2 (Some ex_counts_small) ex_dest
    = (out', Ok tt)
    /\ (forall i : nat,
          Z.of_nat i < num_scenes ex_counts_small
          \/ num_scenes ex_counts_small + num_scenes ex_counts_small
             <= Z.of_nat i ->
          scenes out' !! i = scenes ex_dest !! i)
    /\ (forall i : nat,
          Z.of_nat i < num_frames ex_counts_small
          \/ num_frames ex_counts_small + num_frames ex_counts_small
             <= Z.of_nat i ->
          frames out' !! i = frames ex_dest !! i)
    /\ (forall i : nat,
          Z.of_nat i < num_agents ex_counts_small
          \/ num_agents ex_counts_small + num_agents ex_counts_small
             <= Z.of_nat i ->
          agents out' !! i = agents ex_dest !! i)
    /\ (forall i : nat,
          Z.of_nat i < num_tl_faces ex_counts_small
          \/ num_tl_faces ex_counts_small + num_tl_faces ex_counts_small
             <= Z.of_nat i ->
          tl_faces out' !! i = tl_faces ex_dest !! i).
Proof.
  apply (copier_leaves_rest_untouched ds_small 0 2 ex_counts_small ex_dest
           ex_counts_small).
  - by_compute.
  - lia.
  - by_compute.
  - by_compute.
  - vm_compute; reflexivity.
  - by_compute.
  - by_compute.
Defined.

Lemma copier_empty_range_witness :
  (_append_zarr_subset ds_small 1 1 None ex_dest).1 = ex_dest
  /\ ((_append_zarr_subset ds_small 1 1 None ex_dest).2 = Ok tt
      <-> exists scene frame,
            py_index (scenes ds_small) 1 = Ok scene
            /\ py_index (frames ds_small) (frame_index_interval scene).1
               = Ok frame)
  /\ ((_append_zarr_subset ds_small 1 1 None ex_dest).2 <> Ok tt ->
      (_append_zarr_subset ds_small 1 1 None ex_dest).2 = Err IndexError).
Proof.
  apply (copier_empty_range ds_small 1 1 None ex_dest). lia.
Defined.

Lemma copier_adjacent_ranges_witness :
  (_append_zarr_subset ds_small 0 1 (Some counter_zero);;
   _append_zarr_subset ds_small 1 2
     (Some (num_els_add counter_zero ex_counts_first))) ex_dest
  = _append_zarr_subset ds_small 0 2 (Some counter_zero) ex_dest
  /\ (_append_zarr_subset ds_small 0 2 (Some counter_zero) ex_dest).2 = Ok tt.
Proof.
  apply (copier_adjacent_ranges ds_small 0 1 2 counter_zero ex_dest
           ex_counts_first ex_counts_second).
  - by_compute.
  - lia.
  - lia.
  - by_compute.
  - by_compute.
  - vm_compute; reflexivity.
  - vm_compute; reflexivity.
  - by_compute.
  - by_compute.
Defined.

Lemma concat_output_is_valid_witness :
  exists output w',
    ex_concat ["a"; "missing"; "a"] "out" {| disk := ex_store; stdout := [] |}
    = (w', Ok tt)
    /\ disk w' !! "out" = Some (Stored output)
    /\ valid_dataset output
    /\ Forall has_frames (scenes output)
    /\ dataset_lens output
       = foldl num_els_add counter_zero
               (dataset_lens <$> (surviving ex_store ["a"; "missing"; "a"]).*2)
    /\ (surviving ex_store ["a"; "missing"; "a"] <> [] -> populated output).
Proof.
  apply (concat_output_is_valid ex_blank_scene ex_blank_frame 0%nat 0%nat
           ["a"; "missing"; "a"] "out" ex_store []).
  - vm_compute; reflexivity.
  - by_compute.
Defined.

Lemma concat_of_concats_witness :
  exists w1 w2 w3 w,
    ex_concat ["a"] "o1" {| disk := ex_store; stdout := [] |} = (w1, Ok tt)
    /\ ex_concat ["a"; "bad"] "o2" w1 = (w2, Ok tt)
    /\ ex_concat ["o1"; "o2"] "out" w2 = (w3, Ok tt)
    /\ ex_concat (["a"] ++ ["a"; "bad"]) "out"
         {| disk := ex_store; stdout := [] |} = (w, Ok tt)
    /\ disk w3 !! "out" = disk w !! "out"
    /\ is_Some (disk w !! "out").
Proof.
  apply (concat_of_concats ex_blank_scene ex_blank_frame 0%nat 0%nat
           ["a"] ["a"; "bad"] "o1" "o2" "out" ex_store []).
  - vm_compute; reflexivity.
  - vm_compute; reflexivity.
  - vm_compute; reflexivity.
  - discriminate.
  - discriminate.
  - discriminate.
  - by_compute.
  - by_compute.
  - vm_compute; discriminate.
  - vm_compute; discriminate.
Defined.

Lemma concat_sizing_failure_writes_nothing_witness :
  disk (ex_concat ["missing"; "a"] "out"
          {| disk := ex_store_of ds_no_scenes; stdout := [] |}).1
  = ex_store_of ds_no_scenes
  /\ ((ex_concat ["missing"; "a"] "out"
         {| disk := ex_store_of ds_no_scenes; stdout := [] |}).2
      = Err PreconditionError
      \/ (ex_concat ["missing"; "a"] "out"
            {| disk := ex_store_of ds_no_scenes; stdout := [] |}).2
         = Err IndexError).
Proof.
  apply (concat_sizing_failure_writes_nothing ex_blank_scene ex_blank_frame
           0%nat 0%nat ["missing"; "a"] "out" (ex_store_of ds_no_scenes) []
           "a" ds_no_scenes PreconditionError).
  - vm_compute; reflexivity.
  - by_compute.
  - vm_compute; reflexivity.
  - vm_compute; reflexivity.
Defined.

Lemma split_touches_only_pieces_witness :
  (ex_split "a" "dst" [ex_info "p" float_half; ex_info "q" float_m1]
     ex_store).1 !! "a"
  = ex_store !! "a".
Proof.
  apply (split_touches_only_pieces ex_blank_scene ex_blank_frame 0%nat 0%nat
           ex_path_size ex_path_join "a" "dst"
           [ex_info "p" float_half; ex_info "q" float_m1] ex_store "a").
  by_compute.
Defined.

Lemma split_pieces_are_datasets_witness :
  exists fs' cuts,
    ex_split "a" "dst" [ex_info "p" float_half; ex_info "q" float_m1] ex_store
    = (fs', Ok cuts)
    /\ Forall2 (fun si c =>
                  exists piece,
                    fs' !! ex_path_join "dst" (name si) = Some (Stored piece)
                    /\ piece = scene_range ds_small c.1 c.2
                    /\ valid_dataset piece
                    /\ populated piece
                    /\ _get_num_els_in_scene_range ds_small c.1 c.2
                       = Ok (dataset_lens piece))
               [ex_info "p" float_half; ex_info "q" float_m1] cuts.
Proof.
  apply (split_pieces_are_datasets ex_blank_scene ex_blank_frame 0%nat 0%nat
           ex_path_size ex_path_join ex_store "a" ds_small "dst"
           [ex_info "p" float_half; ex_info "q" float_m1]
           (ex_info "q" float_m1)
           (S754_finite false 4503599627370496 (-52)) [1]).
  - vm_compute; reflexivity.
  - by_compute.
  - by_compute.
  - reflexivity.
  - vm_compute; reflexivity.
  - vm_compute; reflexivity.
  - vm_compute; reflexivity.
  - by_compute.
  - vm_compute; reflexivity.
  - by_compute.
  - repeat constructor.
Defined.

Lemma split_then_concat_round_trip_witness :
  exists fs' cuts,
    ex_split "a" "dst" [ex_info "p" float_half; ex_info "q" float_m1] ex_store
    = (fs', Ok cuts)
    /\ ex_concat ((fun si => ex_path_join "dst" (name si))
                    <$> [ex_info "p" float_half; ex_info "q" float_m1])
         "back" {| disk := fs'; stdout := [] |}
       = ({| disk := <["back" := Stored ds_small]> fs'; stdout := [] |},
          Ok tt).
Proof.
  apply (split_then_concat_round_trip ex_blank_scene ex_blank_frame
           0%nat 0%nat ex_path_size ex_path_join ex_store [] "a" ds_small
           "dst" [ex_info "p" float_half; ex_info "q" float_m1]
           (ex_info "q" float_m1)
           (S754_finite false 4503599627370496 (-52)) [1] "back").
  - vm_compute; reflexivity.
  - by_compute.
  - by_compute.
  - reflexivity.
  - vm_compute; reflexivity.
  - vm_compute; reflexivity.
  - vm_compute; reflexivity.
  - by_compute.
  - vm_compute; reflexivity.
  - by_compute.
  - repeat constructor.
  - vm_compute; reflexivity.
  - by_compute.
Defined.

Lemma split_sentinel_only_witness :
  ex_split "a" "dst" [ex_info "q" float_m1] ex_store
  = (<[ex_path_join "dst" (name (ex_info "q" float_m1))
        := Stored ds_small]> ex_store,
     Ok [(0, py_len (scenes ds_small))]).
Proof.
  apply (split_sentinel_only ex_blank_scene ex_blank_frame 0%nat 0%nat
           ex_path_size ex_path_join ex_store "a" ds_small "dst"
           (ex_info "q" float_m1)
           (S754_finite false 4503599627370496 (-52))).
  - vm_compute; reflexivity.
  - by_compute.
  - by_compute.
  - vm_compute; reflexivity.
  - vm_compute; reflexivity.
  - vm_compute; reflexivity.
Defined.

Lemma split_zero_size_witness :
  ex_split_weightless "a" "dst"
    [ex_info "p" float_half; ex_info "q" float_m1] ex_store
  = (ex_store, Err ZeroDivisionError).
Proof.
  apply (split_zero_size ex_blank_scene ex_blank_frame 0%nat 0%nat
           (PathSize._compute_path_size ex_empty_dirs) ex_path_join
           ex_store "a" ds_small "dst"
           [ex_info "p" float_half; ex_info "q" float_m1]
           (ex_info "q" float_m1) float_2).
  - vm_compute; reflexivity.
  - reflexivity.
  - vm_compute; reflexivity.
  - simpl; lia.
  - vm_compute; reflexivity.
  - vm_compute; reflexivity.
Defined.


(** The size of the example tree: 10 + (20 + 30) + 0. *)
Lemma compute_path_size_example :
  PathSize._compute_path_size (fun _ => Some ex_tree) "data.zarr" = 60
  /\ PathSize._compute_path_size (fun _ => Some (PathSize.RegularFile 10))
       "data.zarr" = 0
  /\ PathSize._compute_path_size (fun _ => None) "data.zarr" = 0.
Proof. repeat split. Qed.
